(** * d3-folder-tree: the collapsible folder tree of [src/lib/folder_tree.js]

    A shallow embedding of [FolderTree] and of the parts of d3 (v4) it calls.

    - JavaScript objects are mutable and shared: the hierarchy nodes live in
      a heap ([list Node.t], an object reference is an index, [new Node]
      appends), and a property that may be absent is an [option].
    - d3-hierarchy ([d3.hierarchy], [node.eachBefore], [node.each],
      [node.descendants], [node.links]) and d3-selection's data join are the
      library the file runs on; their models follow the library's loops.
      The loops run on the heap, so they carry a bound on the number of
      iterations; [None] means the bound was too small.  The theorems show
      that it never is.
    - Numbers are small integers (a depth times 22, a row times 27), exact
      in JavaScript's doubles; they are [Z] here, and [None] stands for
      [undefined].
    - A transition is recorded on the element with its target values;
      [transitions_end] applies them.  Time itself is not modelled. *)

From stdpp Require Import base numbers strings option list.

Set Default Proof Using "Type".

(** ** JavaScript values that reach [tooltip_key] *)

Inductive JsValue :=
  | JsUndefined
  | JsNull
  | JsBoolean (b : bool)
  | JsNumber (z : Z)
  | JsString (s : string)          (* typeof v === 'string' *)
  | JsStringObject (s : string)    (* v instanceof String *)
  | JsObject.

Definition typeof_string (v : JsValue) : bool :=
  match v with JsString _ => true | _ => false end.

Definition instanceof_String (v : JsValue) : bool :=
  match v with JsStringObject _ => true | _ => false end.

(** [v !== null] *)
Definition strict_ne_null (v : JsValue) : bool :=
  match v with JsNull => false | _ => true end.

(** The property key a value denotes in [obj[v]]. *)
Definition property_key (v : JsValue) : option string :=
  match v with
  | JsString s | JsStringObject s => Some s
  | _ => None
  end.

(** ** The input data: nested records

    [fields] are the string-valued properties of a record ([name], the
    tooltip text, ...); [kids] is its [children] property, [None] when the
    record has no such property. *)

Local Unset Elimination Schemes.
Inductive Data :=
  | mkData (fields : list (string * string)) (kids : option (list Data)).
Local Set Elimination Schemes.

Definition data_fields (d : Data) : list (string * string) :=
  match d with mkData f _ => f end.

Definition data_children (d : Data) : option (list Data) :=
  match d with mkData _ k => k end.

Fixpoint assoc_string (k : string) (l : list (string * string)) : option string :=
  match l with
  | [] => None
  | (k', v) :: l' => if String.eqb k k' then Some v else assoc_string k l'
  end.

(** [d.data.name] *)
Definition data_name (d : Data) : option string :=
  assoc_string "name" (data_fields d).

Inductive PropertyValue :=
  | PUndefined
  | PString (s : string)
  | PChildren (l : list Data).

(** [data[key]], for the own properties of a record; what a record
    inherits from [Object.prototype] is left out. *)
Definition data_get (key : string) (d : Data) : PropertyValue :=
  if String.eqb key "children"
  then match data_children d with Some l => PChildren l | None => PUndefined end
  else match assoc_string key (data_fields d) with
       | Some s => PString s
       | None => PUndefined
       end.

(** ** Hierarchy nodes on the heap *)

(** An object reference. *)
Abbreviation addr := nat (only parsing).

(** What a [children] or [_children] property can hold. *)
Inductive ChildrenValue :=
  | CUndefined
  | CNull
  | CArray (l : list addr).

Definition array_items (v : ChildrenValue) : list addr :=
  match v with CArray l => l | _ => [] end.

Module Node.
(** [children], [_children], [id], [x], [y], [row], [x0], [y0] are own
    properties that may be absent. *)
Record t := mk {
  data : Data;
  depth : nat;
  parent : option addr;
  children : option ChildrenValue;
  _children : option ChildrenValue;
  id : option Z;
  x : option Z;
  y : option Z;
  row : option Z;
  x0 : option Z;
  y0 : option Z
}.

(** [new Node(data)] of d3-hierarchy, with the depth and parent that
    [d3.hierarchy] writes right after. *)
Definition new (d : Data) (dep : nat) (par : option addr) : t :=
  mk d dep par None None None None None None None None.

Definition set_children (v : option ChildrenValue) (n : t) : t :=
  mk (data n) (depth n) (parent n) v (_children n) (id n)
     (x n) (y n) (row n) (x0 n) (y0 n).

Definition set__children (v : option ChildrenValue) (n : t) : t :=
  mk (data n) (depth n) (parent n) (children n) v (id n)
     (x n) (y n) (row n) (x0 n) (y0 n).

Definition set_id (v : option Z) (n : t) : t :=
  mk (data n) (depth n) (parent n) (children n) (_children n) v
     (x n) (y n) (row n) (x0 n) (y0 n).

Definition set_x (v : option Z) (n : t) : t :=
  mk (data n) (depth n) (parent n) (children n) (_children n) (id n)
     v (y n) (row n) (x0 n) (y0 n).

Definition set_y (v : option Z) (n : t) : t :=
  mk (data n) (depth n) (parent n) (children n) (_children n) (id n)
     (x n) v (row n) (x0 n) (y0 n).

Definition set_row (v : option Z) (n : t) : t :=
  mk (data n) (depth n) (parent n) (children n) (_children n) (id n)
     (x n) (y n) v (x0 n) (y0 n).

Definition set_x0 (v : option Z) (n : t) : t :=
  mk (data n) (depth n) (parent n) (children n) (_children n) (id n)
     (x n) (y n) (row n) v (y0 n).

Definition set_y0 (v : option Z) (n : t) : t :=
  mk (data n) (depth n) (parent n) (children n) (_children n) (id n)
     (x n) (y n) (row n) (x0 n) v.

(** [Object.hasOwn(d, "children")], [Object.hasOwn(d, "_children")] *)
Definition hasOwn_children (n : t) : bool :=
  match children n with Some _ => true | None => false end.

Definition hasOwn__children (n : t) : bool :=
  match _children n with Some _ => true | None => false end.
End Node.

Abbreviation Store := (list Node.t).

(** Reading a property through a reference.  A reference always points to
    an object in JavaScript; the [None] of an index past the heap has no
    counterpart there and reads as an absent property. *)
Definition get {A} (f : Node.t → option A) (σ : Store) (d : addr) : option A :=
  σ !! d ≫= f.

Definition hasOwn_children (σ : Store) (d : addr) : bool :=
  match σ !! d with Some n => Node.hasOwn_children n | None => false end.

Definition hasOwn__children (σ : Store) (d : addr) : bool :=
  match σ !! d with Some n => Node.hasOwn__children n | None => false end.

(** ** d3-hierarchy *)

(** [d3.hierarchy(data)]: one node per record; a node gets a [children]
    array only when its record has a non-empty [children] list.  The root
    is allocated at [length σ]. *)
Fixpoint hierarchy_node (d : Data) (dep : nat) (par : option addr) (σ : Store)
    {struct d} : addr * Store :=
  let a := length σ in
  let σ1 := σ ++ [Node.new d dep par] in
  match d with
  | mkData _ (Some (c :: cs)) =>
      let '(ks, σ2) :=
        (fix children_of (l : list Data) (σ : Store) : list addr * Store :=
           match l with
           | [] => ([], σ)
           | k :: l' =>
               let '(b, σ') := hierarchy_node k (S dep) (Some a) σ in
               let '(bs, σ'') := children_of l' σ' in
               (b :: bs, σ'')
           end) (c :: cs) σ1 in
      (a, alter (Node.set_children (Some (CArray ks))) a σ2)
  | _ => (a, σ1)
  end.

Definition hierarchy (d : Data) (σ : Store) : addr * Store :=
  hierarchy_node d 0 None σ.

(** The inner loop of [hierarchy_node] on its own: the children of the
    node at [a]. *)
Definition hierarchy_children (a : addr) (dep : nat)
    : list Data → Store → list addr * Store :=
  fix children_of (l : list Data) (σ : Store) : list addr * Store :=
    match l with
    | [] => ([], σ)
    | k :: l' =>
        let '(b, σ') := hierarchy_node k (S dep) (Some a) σ in
        let '(bs, σ'') := children_of l' σ' in
        (b :: bs, σ'')
    end.

(** The children a traversal descends into: [children = node.children;
    if (children) ...]. *)
Definition truthy_children (σ : Store) (node : addr) : list addr :=
  match get Node.children σ node with
  | Some v => array_items v
  | None => []
  end.

Section Traversal.
Context {A : Type} (heap_of : A → Store).

(** [node.eachBefore(callback)]: a stack, the top at the head of [nodes];
    the children are pushed last to first.  The second component is the
    sequence of nodes the callback was called on. *)
Fixpoint eachBefore_loop (fuel : nat) (nodes : list addr)
    (callback : addr → A → A) (s : A) : option (A * list addr) :=
  match nodes with
  | [] => Some (s, [])
  | node :: rest =>
      match fuel with
      | O => None
      | S fuel' =>
          let s' := callback node s in
          let pushed := truthy_children (heap_of s') node in
          match eachBefore_loop fuel' (pushed ++ rest) callback s' with
          | Some (s'', visited) => Some (s'', node :: visited)
          | None => None
          end
      end
  end.

(** One level of [node.each]: [while (node = current.pop())]. *)
Fixpoint each_level (current : list addr) (callback : addr → A → A)
    (s : A) (next : list addr) : A * list addr :=
  match current with
  | [] => (s, next)
  | node :: current' =>
      let s' := callback node s in
      each_level current' callback s' (next ++ truthy_children (heap_of s') node)
  end.

(** [node.each(callback)]: breadth first, level by level. *)
Fixpoint each_loop (fuel : nat) (next : list addr)
    (callback : addr → A → A) (s : A) : option (A * list addr) :=
  match next with
  | [] => Some (s, [])
  | _ :: _ =>
      match fuel with
      | O => None
      | S fuel' =>
          let '(s', next') := each_level next callback s [] in
          match each_loop fuel' next' callback s' with
          | Some (s'', visited) => Some (s'', next ++ visited)
          | None => None
          end
      end
  end.

(** Each loop pops a node object per iteration; the bound is the number
    of objects on the heap. *)
Definition eachBefore (root : addr) (callback : addr → A → A) (s : A)
    : option (A * list addr) :=
  eachBefore_loop (length (heap_of s)) [root] callback s.

Definition each (root : addr) (callback : addr → A → A) (s : A)
    : option (A * list addr) :=
  each_loop (length (heap_of s)) [root] callback s.
End Traversal.

(** [root.descendants()] *)
Definition descendants (root : addr) (σ : Store) : option (list addr) :=
  match each (A := Store * list addr) fst root
          (λ node s, (s.1, s.2 ++ [node])) (σ, []) with
  | Some (s, _) => Some s.2
  | None => None
  end.

(** A link object [{source: node.parent, target: node}]. *)
Record Link := mkLink { source : option addr; target : addr }.

(** [root.links()] *)
Definition links (root : addr) (σ : Store) : option (list Link) :=
  match each (A := Store * list Link) fst root
          (λ node s,
             if bool_decide (node ≠ root)
             then (s.1, s.2 ++ [mkLink (get Node.parent s.1 node) node])
             else s) (σ, []) with
  | Some (s, _) => Some s.2
  | None => None
  end.

(** ** The rendered scene *)

(** The three glyphicons of [folder_icon]: open folder, closed folder,
    file. *)
Inductive Glyphicon := glyph_e118 | glyph_e117 | glyph_e022.

Inductive Color := slate_gray | eerie_black | onyx.

(** [translate(x,y)] *)
Abbreviation Translate := (option Z * option Z)%type.

(** A pending [selection.transition()] on an element. *)
Record Transition := mkTransition {
  to_transform : Translate;
  to_opacity : Z;
  then_remove : bool
}.

(** A [g.node] with its glyphicon and file name [text] children, which
    share its datum. *)
Record NodeElem := mkNodeElem {
  datum : addr;
  transform : Translate;
  opacity : Z;
  glyph_fill : Color;
  glyph_click : bool;          (* a click listener is attached *)
  glyph_text : Glyphicon;
  filename_dx : Z;
  filename_text : option string;
  filename_hover : bool;       (* mouseover, mousemove, mouseout listeners *)
  transition : option Transition
}.

(** The [d] attribute of a link: [M mx,my V v] and then [H h] or [h h]. *)
Record PathD := mkPathD {
  move_x : option Z;
  move_y : option Z;
  vertical : option Z;
  horizontal_absolute : bool;
  horizontal : Z
}.

(** A [path.link]. *)
Record LinkElem := mkLinkElem {
  link_datum : Link;
  path_d : PathD;
  link_transition : option (PathD * bool)   (* target, then remove *)
}.

(** The variables of the [FolderTree] closure that change, and the scene. *)
Record State := mkState {
  st_heap : Store;
  st_id : Z;                      (* [id], the node index *)
  st_root : option addr;          (* [root] *)
  st_nodes : list NodeElem;       (* the [g.node] elements; a pass lists the ones
                                     it appends last, wherever d3 inserts them *)
  st_links : list LinkElem;       (* [svg.selectAll(".link")], document order *)
  st_height : option Z            (* the height the svg is moving to *)
}.

Definition with_heap (σ : Store) (st : State) : State :=
  mkState σ (st_id st) (st_root st) (st_nodes st) (st_links st) (st_height st).

Definition init : State := mkState [] 0 None [] [] None.

(** ** d3-selection's data join *)

(** The key function of the node join: [d.id || (d.id = ++id)]. *)
Definition key (d : addr) (st : State) : Z * State :=
  let fresh :=
    let id' := (st_id st + 1)%Z in
    (id', mkState (alter (Node.set_id (Some id')) d (st_heap st)) id'
            (st_root st) (st_nodes st) (st_links st) (st_height st)) in
  match get Node.id (st_heap st) d with
  | Some k => if (k =? 0)%Z then fresh else (k, st)
  | None => fresh
  end.

(** First loop of the keyed join: the key of every element of the group. *)
Fixpoint group_keys (group : list NodeElem) (st : State) : list Z * State :=
  match group with
  | [] => ([], st)
  | e :: group' =>
      let '(k, st1) := key (datum e) st in
      let '(ks, st2) := group_keys group' st1 in
      (k :: ks, st2)
  end.

(** [nodeByKeyValue]: the first element holding a key owns it. *)
Fixpoint node_by_key (i : nat) (keys : list Z) : list (Z * nat) :=
  match keys with
  | [] => []
  | k :: keys' => (k, i) :: node_by_key (S i) keys'
  end.

Fixpoint assoc_key (k : Z) (m : list (Z * nat)) : option nat :=
  match m with
  | [] => None
  | (k', i) :: m' => if (k =? k')%Z then Some i else assoc_key k m'
  end.

(** [nodeByKeyValue[keyValue] = null] *)
Definition consume_key (k : Z) (m : list (Z * nat)) : list (Z * nat) :=
  filter (λ p, p.1 ≠ k) m.

(** Second loop: every datum joins the element that owns its key (update,
    [Some i]) or enters ([None]). *)
Fixpoint bind_data (data : list addr) (m : list (Z * nat)) (st : State)
    : list (addr * option nat) * State :=
  match data with
  | [] => ([], st)
  | d :: data' =>
      let '(k, st1) := key d st in
      match assoc_key k m with
      | Some i =>
          let '(r, st2) := bind_data data' (consume_key k m) st1 in
          ((d, Some i) :: r, st2)
      | None =>
          let '(r, st2) := bind_data data' m st1 in
          ((d, None) :: r, st2)
      end
  end.

(** The datum bound to element [i] of the group, if the join kept it. *)
Fixpoint joined_datum (i : nat) (joined : list (addr * option nat)) : option addr :=
  match joined with
  | [] => None
  | (d, Some j) :: joined' => if Nat.eqb i j then Some d else joined_datum i joined'
  | (_, None) :: joined' => joined_datum i joined'
  end.

(** The data of the enter selection, in order. *)
Fixpoint entering_data (joined : list (addr * option nat)) : list addr :=
  match joined with
  | [] => []
  | (d, None) :: joined' => d :: entering_data joined'
  | (_, Some _) :: joined' => entering_data joined'
  end.

(** ** FolderTree *)

Definition margin_top : Z := 40.
Definition row_height : Z := 27.
Definition indentation : Z := 22.
Definition icon_width : Z := 14.
Definition source_vertical_offset : Z := -7.
Definition target_vertical_offset : Z := -16.

(** What the callback of [d3.json] receives. *)
Inductive Response :=
  | Failure (error : string)
  | Success (data : Data).

(** How a call ends. *)
Inductive Completion :=
  | Normal (st : State)
  | Throw (error : string) (st : State).

(** The widget in its page: the requests that [d3.json] has sent and that
    are not answered yet, each by the file it asks for.  They all hold the
    callback of [load]. *)
Record Widget := mkWidget {
  w_state : State;
  w_pending : list string
}.

(** How a call ends in the page. *)
Inductive Outcome :=
  | Returns (w : Widget)
  | Throws (error : string) (w : Widget).

Definition scale (v : option Z) (k : Z) : option Z := (λ z, z * k)%Z <$> v.
Definition shift (v : option Z) (k : Z) : option Z := (λ z, z + k)%Z <$> v.

Section FolderTree.
Variables (min_height : Z) (tooltip_key : JsValue).

(** Sanity check tooltip_key, if provided. *)
Definition tooltip_key_str : JsValue :=
  if strict_ne_null tooltip_key
  then if typeof_string tooltip_key || instanceof_String tooltip_key
       then tooltip_key
       else JsNull
  else JsNull.

Definition folder_icon (σ : Store) (d : addr) : Glyphicon :=
  if hasOwn_children σ d then glyph_e118
  else if hasOwn__children σ d then glyph_e117
  else glyph_e022.

Definition glyphicon_color (σ : Store) (d : addr) : Color :=
  if hasOwn__children σ d then slate_gray
  else if hasOwn_children σ d then eerie_black
  else onyx.

(** The callback of [root.eachBefore] in [update]; [row] is its counter,
    and [layout_node] its three assignments to [n]. *)
Definition layout_node (row : Z) (n : Node.t) : Node.t :=
  Node.set_row (Some row)
    (Node.set_y (Some (row * row_height)%Z)
       (Node.set_x (Some (Z.of_nat (Node.depth n) * indentation)%Z) n)).

Definition layout_callback (n : addr) (s : Store * Z) : Store * Z :=
  let row := (s.2 + 1)%Z in
  (alter (layout_node row) n s.1, row).

(** Calculate the position of each node. *)
Definition layout (root : addr) (σ : Store) : option (Store * list addr) :=
  match eachBefore fst root layout_callback (σ, (-1)%Z) with
  | Some (s, visited) => Some (s.1, visited)
  | None => None
  end.

(** The callback of [entering_glyphicons.filter]: it gives an entering
    node whose record has an empty [children] list a [children] property
    unless the node already has one of the two; its result decides
    whether the click listener is attached. *)
Definition entering_filter (d : addr) (σ : Store) : bool * Store :=
  let σ' :=
    match get (λ n, Some (Node.data n)) σ d with
    | Some (mkData _ (Some [])) =>
        if negb (hasOwn_children σ d) && negb (hasOwn__children σ d)
        then alter (Node.set_children (Some CNull)) d σ
        else σ
    | _ => σ
    end in
  (hasOwn_children σ' d || hasOwn__children σ' d, σ').

Fixpoint filter_entering (ds : list addr) (σ : Store) : list bool * Store :=
  match ds with
  | [] => ([], σ)
  | d :: ds' =>
      let '(b, σ1) := entering_filter d σ in
      let '(bs, σ2) := filter_entering ds' σ1 in
      (b :: bs, σ2)
  end.

Definition position (σ : Store) (d : addr) : Translate :=
  (get Node.x σ d, get Node.y σ d).

Definition previous_position (σ : Store) (d : addr) : Translate :=
  (get Node.x0 σ d, get Node.y0 σ d).

(** An entering [g.node]: [σ] is the heap when the element is appended
    and its glyphicon coloured, [σ'] the heap after the filter ran. *)
Definition entering_node (source : addr) (σ σ' : Store) (d : addr) (click : bool)
    : NodeElem :=
  mkNodeElem d (previous_position σ source) 0
    (glyphicon_color σ d) click (folder_icon σ' d)
    (if hasOwn_children σ' d then 22 else 20)%Z
    (get (λ n, data_name (Node.data n)) σ' d)
    (strict_ne_null tooltip_key_str)
    (Some (mkTransition (position σ' d) 1 false)).

(** A [g.node] already in the scene: it moves to its datum's position or,
    when no datum joined it, to the source and is then removed. *)
Definition persisting_node (source : addr) (σ : Store)
    (joined : list (addr * option nat)) (i : nat) (e : NodeElem) : NodeElem :=
  match joined_datum i joined with
  | Some d =>
      mkNodeElem d (transform e) (opacity e) (glyph_fill e) (glyph_click e)
        (glyph_text e) (filename_dx e) (filename_text e) (filename_hover e)
        (Some (mkTransition (position σ d) 1 false))
  | None =>
      mkNodeElem (datum e) (transform e) (opacity e) (glyph_fill e) (glyph_click e)
        (glyph_text e) (filename_dx e) (filename_text e) (filename_hover e)
        (Some (mkTransition (position σ source) 0 true))
  end.

(** The text of the tooltip on [mousemove]: [d.data[tooltip_key_str]]. *)
Definition tooltip_text (σ : Store) (d : addr) : PropertyValue :=
  match property_key tooltip_key_str, σ !! d with
  | Some k, Some n => data_get k (Node.data n)
  | _, _ => PUndefined
  end.

(** The collapsed path at the source that entering links start from and
    exiting links end in. *)
Definition collapsed_path (σ : Store) (source : addr) (absolute : bool) : PathD :=
  let row := get Node.row σ source in
  mkPathD
    (shift (scale (Z.of_nat <$> get (λ n, Some (Node.depth n)) σ source) indentation)
           (icon_width / 2))
    (shift (scale row row_height) source_vertical_offset)
    (shift (scale row row_height) source_vertical_offset)
    absolute 0.

Definition link_path (σ : Store) (l : Link) : PathD :=
  mkPathD
    (shift (scale (Z.of_nat <$> (source l ≫= get (λ n, Some (Node.depth n)) σ))
              indentation)
           (icon_width / 2))
    (shift (scale (source l ≫= get Node.row σ) row_height) source_vertical_offset)
    (shift (scale (get Node.row σ (target l)) row_height) target_vertical_offset)
    false (indentation - icon_width / 2 - 2).

(** The link join has no key function: datum [i] joins element [i]. *)
Definition join_links (source : addr) (σ : Store) (group : list LinkElem)
    (data : list Link) : list LinkElem :=
  zip_with (λ e l, mkLinkElem l (path_d e) (Some (link_path σ l, false)))
           group data
  ++ map (λ e, mkLinkElem (link_datum e) (path_d e)
                 (Some (collapsed_path σ source false, true)))
         (drop (length data) group)
  ++ map (λ l, mkLinkElem l (collapsed_path σ source true)
                 (Some (link_path σ l, false)))
         (drop (length group) data).

(** Stash the old positions for transition. *)
Definition stash_node (n : Node.t) : Node.t :=
  Node.set_y0 (Node.y n) (Node.set_x0 (Node.x n) n).

Definition stash_callback (d : addr) (σ : Store) : Store :=
  alter stash_node d σ.

Definition update (source : addr) (st : State) : option State :=
  match st_root st with
  | None => None
  | Some root =>
      match descendants root (st_heap st) with
      | None => None
      | Some data_nodes =>
          let height :=
            Z.max min_height
              (Z.of_nat (length data_nodes) * row_height + margin_top) in
          match layout root (st_heap st) with
          | None => None
          | Some (σ1, _) =>
              let '(keys, st2) := group_keys (st_nodes st) (with_heap σ1 st) in
              let '(joined, st3) := bind_data data_nodes (node_by_key 0 keys) st2 in
              let σ3 := st_heap st3 in
              let entering := entering_data joined in
              let '(clicks, σ4) := filter_entering entering σ3 in
              let nodes :=
                imap (persisting_node source σ4 joined) (st_nodes st)
                ++ zip_with (entering_node source σ3 σ4) entering clicks in
              match links root σ4 with
              | None => None
              | Some data_links =>
                  let links := join_links source σ4 (st_links st) data_links in
                  match each (λ σ : Store, σ) root stash_callback σ4 with
                  | None => None
                  | Some (σ5, _) =>
                      Some (mkState σ5 (st_id st3) (st_root st) nodes links
                              (Some height))
                  end
              end
          end
      end
  end.

(** The first statement of [click]: move the child list to the other
    property. *)
Definition toggle (d : addr) (σ : Store) : Store :=
  if hasOwn_children σ d
  then alter (λ n, Node.set_children None
                     (Node.set__children (Node.children n) n)) d σ
  else alter (λ n, Node.set__children None
                     (Node.set_children
                        (Some (default CUndefined (Node._children n))) n)) d σ.

(** Toggle children on click; [this] is the glyphicon clicked.
    [toggled] is the state in which [click] calls [update]. *)
Definition toggled (this : nat) (d : addr) (st : State) : State :=
  let σ := toggle d (st_heap st) in
  mkState σ (st_id st) (st_root st)
    (alter (λ e, mkNodeElem (datum e) (transform e) (opacity e)
                   (glyphicon_color σ (datum e)) (glyph_click e)
                   (folder_icon σ (datum e)) (filename_dx e) (filename_text e)
                   (filename_hover e) (transition e))
           this (st_nodes st))
    (st_links st) (st_height st).

Definition click (this : nat) (d : addr) (st : State) : option State :=
  update d (toggled this d st).

(** The callback that [load] hands to [d3.json].  [loaded] is the root
    and the state in which the callback calls [update]. *)
Definition loaded (data : Data) (st : State) : addr * State :=
  let '(root, σ) := hierarchy data (st_heap st) in
  (root,
   mkState (alter (λ n, Node.set_y0 (Some 0%Z) (Node.set_x0 (Some 0%Z) n)) root σ)
     (st_id st) (Some root) (st_nodes st) (st_links st) (st_height st)).

Definition load_callback (r : Response) (st : State) : option Completion :=
  match r with
  | Failure error => Some (Throw error st)
  | Success data =>
      let '(root, st') := loaded data st in
      Normal <$> update root st'
  end.

(** [load(json_file)]: [d3.json] sends the request and keeps the
    callback; [load] returns. *)
Definition load (json_file : string) (w : Widget) : Outcome :=
  Returns (mkWidget (w_state w) (w_pending w ++ [json_file])).

(** The answer to request [i] arrives: [d3.json] calls the callback it
    kept, once, with the error or the data; [d3_json] is what the request
    for a file yields.  What the callback throws, it throws to
    [d3.json]. *)
Definition answer (d3_json : string → Response) (i : nat) (w : Widget)
    : option Outcome :=
  match w_pending w !! i with
  | Some json_file =>
      match load_callback (d3_json json_file) (w_state w) with
      | Some (Normal st) => Some (Returns (mkWidget st (delete i (w_pending w))))
      | Some (Throw error st) =>
          Some (Throws error (mkWidget st (delete i (w_pending w))))
      | None => None
      end
  | None => None
  end.

(** ** What happens after [load] *)

Definition end_node_transition (e : NodeElem) : option NodeElem :=
  match transition e with
  | Some t =>
      if then_remove t then None
      else Some (mkNodeElem (datum e) (to_transform t) (to_opacity t)
                   (glyph_fill e) (glyph_click e) (glyph_text e) (filename_dx e)
                   (filename_text e) (filename_hover e) None)
  | None => Some e
  end.

Definition end_link_transition (e : LinkElem) : option LinkElem :=
  match link_transition e with
  | Some (p, remove) =>
      if remove then None else Some (mkLinkElem (link_datum e) p None)
  | None => Some e
  end.

(** The pending transitions reach their end. *)
Definition transitions_end (st : State) : State :=
  mkState (st_heap st) (st_id st) (st_root st)
    (omap end_node_transition (st_nodes st))
    (omap end_link_transition (st_links st))
    (st_height st).

Inductive Event :=
  | Click (this : nat)       (* a click on the glyphicon of [g.node] number [this] *)
  | TransitionsEnd.

(** A click reaches [click] only through a listener. *)
Definition dispatch (ev : Event) (st : State) : option State :=
  match ev with
  | Click this =>
      match st_nodes st !! this with
      | Some e => if glyph_click e then click this (datum e) st else Some st
      | None => Some st
      end
  | TransitionsEnd => Some (transitions_end st)
  end.

Fixpoint run (evs : list Event) (st : State) : option State :=
  match evs with
  | [] => Some st
  | ev :: evs' =>
      match dispatch ev st with
      | Some st' => run evs' st'
      | None => None
      end
  end.

(** The callback of [load] called with the data on a fresh widget, then
    the events. *)
Definition session (data : Data) (evs : list Event) : option State :=
  match load_callback (Success data) init with
  | Some (Normal st) => run evs st
  | _ => None
  end.
End FolderTree.

(** ** Input data of the examples *)

Definition file (name : string) : Data := mkData [("name", name)] None.

Definition folder (name : string) (l : list Data) : Data :=
  mkData [("name", name)] (Some l).

(** [{name: "root", children: [{name: "a"}, {name: "b", children:
    [{name: "c"}]}]}] *)
Definition scenario_A : Data :=
  folder "root" [file "a"; folder "b" [file "c"]].

(** Two folders of one file each. *)
Definition two_folders : Data :=
  folder "root" [folder "a" [file "c"]; folder "b" [file "d"]].

(** A record with [children: []]. *)
Definition empty_folder : Data := folder "d" [].

(** Scenario A once loaded, and its node [b]. *)
Definition scenario_A_state : State :=
  default init (session 0 JsNull scenario_A []).

Definition scenario_A_b : Node.t :=
  default (Node.new scenario_A 0 None) (st_heap scenario_A_state !! 2).

(** The empty folder once loaded, without a tooltip key and with the
    empty string for one. *)
Definition empty_folder_state : State :=
  default init (session 0 JsNull empty_folder []).

Definition empty_key_state : State :=
  default init (session 0 (JsString "") empty_folder []).

(** The element and the node of the empty folder. *)
Definition empty_folder_elem : NodeElem :=
  default (entering_node JsNull 0 [] [] 0 false) (st_nodes empty_folder_state !! 0).

Definition empty_folder_node : Node.t :=
  default (Node.new empty_folder 0 None)
    (st_heap empty_folder_state !! datum empty_folder_elem).

(** Scenario A once loaded with the tooltip key [name]. *)
Definition scenario_A_named : State :=
  default init (session 0 (JsString "name") scenario_A []).

(** The two folders once drawn, and after a click on the first of them. *)
Definition two_folders_shown : State :=
  default init (session 0 JsNull two_folders [TransitionsEnd]).

Definition two_folders_collapsed : State :=
  default init (session 0 JsNull two_folders [TransitionsEnd; Click 1]).

(** The element of folder [a] in the two states. *)
Definition two_folders_shown_a : NodeElem :=
  default (entering_node JsNull 0 [] [] 0 false) (st_nodes two_folders_shown !! 1).

Definition two_folders_collapsed_a : NodeElem :=
  default (entering_node JsNull 0 [] [] 0 false) (st_nodes two_folders_collapsed !! 1).

(** Folder [b] of the two folders, and its element. *)
Definition two_folders_shown_b : NodeElem :=
  default (entering_node JsNull 0 [] [] 0 false) (st_nodes two_folders_shown !! 2).

Definition two_folders_b : Node.t :=
  default (Node.new two_folders 0 None)
    (st_heap two_folders_shown !! datum two_folders_shown_b).

(** ** The vocabulary of the specification *)

(** [b] is a proper ancestor of [a]: [a.parent], [a.parent.parent], ... *)
Inductive ancestor (σ : Store) : addr → addr → Prop :=
  | ancestor_parent a n p :
      σ !! a = Some n → Node.parent n = Some p → ancestor σ p a
  | ancestor_further a n p b :
      σ !! a = Some n → Node.parent n = Some p → ancestor σ b p → ancestor σ b a.

(** A node is visible when every ancestor is expanded, that is, holds its
    child list under [children]. *)
Definition visible (σ : Store) (a : addr) : Prop :=
  is_Some (σ !! a) ∧ ∀ b, ancestor σ b a → hasOwn_children σ b = true.

(** A node has children when one of the two properties is there. *)
Definition has_slot (σ : Store) (a : addr) : bool :=
  hasOwn_children σ a || hasOwn__children σ a.

(** The child list of a node, under whichever property holds it. *)
Definition slot_items (n : Node.t) : list addr :=
  match Node.children n, Node._children n with
  | Some v, _ => array_items v
  | None, Some v => array_items v
  | None, None => []
  end.

(** What the filter of entering nodes does to the node it is called on. *)
Definition normalize_node (n : Node.t) : Node.t :=
  match data_children (Node.data n) with
  | Some [] =>
      if negb (Node.hasOwn_children n) && negb (Node.hasOwn__children n)
      then Node.set_children (Some CNull) n
      else n
  | _ => n
  end.

(** The key function leaves a node alone or gives it an identity. *)
Definition id_assigned (n n' : Node.t) : Prop :=
  n' = n ∨ (Node.id n = None ∧ ∃ k, n' = Node.set_id (Some k) n).

(** The filter of entering nodes leaves a node alone or gives a node
    that has neither property an empty [children]. *)
Definition normalized_from (n n' : Node.t) : Prop :=
  n' = n ∨
  (Node.children n = None ∧ Node._children n = None ∧
   data_children (Node.data n) = Some [] ∧
   n' = Node.set_children (Some CNull) n).

(** What [toggle] does to the node it is called on. *)
Definition toggled_node (n n' : Node.t) : Prop :=
  (∃ v, Node.children n = Some v ∧
        n' = Node.set_children None (Node.set__children (Some v) n)) ∨
  (Node.children n = None ∧
   n' = Node.set__children None
          (Node.set_children (Some (default CUndefined (Node._children n))) n)).

(** Two heaps whose nodes are related one by one. *)
Definition heap_rel (R : Node.t → Node.t → Prop) (σ σ' : Store) : Prop :=
  ∀ a, option_Forall2 R (σ !! a) (σ' !! a).

(** A heap that is another one with a function applied to each node. *)
Definition pointwise (g : addr → Node.t → Node.t) (σ σ' : Store) : Prop :=
  ∀ a, σ' !! a = g a <$> σ !! a.

(** The element of a group that shows a node, counting from [i]. *)
Fixpoint find_elem (d : addr) (i : nat) (group : list NodeElem) : option nat :=
  match group with
  | [] => None
  | e :: group' =>
      if decide (datum e = d) then Some i else find_elem d (S i) group'
  end.

(** Two heaps agree on a projection of their nodes. *)
Definition agree {B} (f : Node.t → B) (σ σ' : Store) : Prop :=
  ∀ a, f <$> σ !! a = f <$> σ' !! a.

(** What a toggle leaves alone on every node. *)
Definition skeleton (n : Node.t) : Data * nat * option addr * list addr :=
  (Node.data n, Node.depth n, Node.parent n, slot_items n).

(** What only a toggle or the filter of entering nodes changes. *)
Definition shape (n : Node.t)
    : Data * nat * option addr * option ChildrenValue * option ChildrenValue :=
  (Node.data n, Node.depth n, Node.parent n, Node.children n, Node._children n).

(** What [update] does not change once it is set: identity and record. *)
Definition identity (n : Node.t) : option Z * Data := (Node.id n, Node.data n).

Definition placement (n : Node.t) : option Z * option Z * option Z :=
  (Node.x n, Node.y n, Node.row n).

Definition slots (n : Node.t) : option ChildrenValue * option ChildrenValue :=
  (Node.children n, Node._children n).

(** The tree that the heap holds, as built by [d3.hierarchy]. *)
Local Unset Elimination Schemes.
Inductive Tree := TNode (a : addr) (kids : list Tree).
Local Set Elimination Schemes.

Definition taddr (t : Tree) : addr := match t with TNode a _ => a end.
Definition tkids (t : Tree) : list Tree := match t with TNode _ k => k end.

Fixpoint addrs (t : Tree) : list addr :=
  match t with TNode a kids => a :: flat_map addrs kids end.

(** The heap holds [t] below a node with the given parent and depth. *)
Local Unset Elimination Schemes.
Inductive Repr (σ : Store) : option addr → nat → Tree → Prop :=
  | Repr_node a kids n par dep :
      σ !! a = Some n →
      Node.parent n = par →
      Node.depth n = dep →
      slot_items n = map taddr kids →
      map (λ k, Node.data <$> σ !! taddr k) kids
        = map Some (default [] (data_children (Node.data n))) →
      Forall (Repr σ (Some a) (S dep)) kids →
      Repr σ par dep (TNode a kids).
Local Set Elimination Schemes.

Definition well_formed (σ : Store) (t : Tree) : Prop :=
  ∃ par dep, Repr σ par dep t.

(** The subtrees a traversal descends into. *)
Definition expanded_kids (σ : Store) (t : Tree) : list Tree :=
  if hasOwn_children σ (taddr t) then tkids t else [].

(** Pre-order over the expanded part of a tree. *)
Fixpoint preorder (σ : Store) (t : Tree) : list addr :=
  match t with
  | TNode a kids =>
      a :: if hasOwn_children σ a then flat_map (preorder σ) kids else []
  end.

(** Breadth-first order over the expanded part of a forest. *)
Fixpoint breadth_first (fuel : nat) (σ : Store) (ts : list Tree) : list addr :=
  match ts with
  | [] => []
  | _ :: _ =>
      match fuel with
      | O => []
      | S fuel' =>
          map taddr ts ++ breadth_first fuel' σ (flat_map (expanded_kids σ) ts)
      end
  end.

(** What [d3.hierarchy] has done when it has turned a record into the tree
    [t]: the heap grew from [σ] to [σ'] by the nodes of [t], all expanded
    and without identity. *)
Definition built (σ σ' : Store) (par : option addr) (dep : nat)
    (t : Tree) (d : Data) : Prop :=
  taddr t = length σ ∧
  Repr σ' par dep t ∧
  NoDup (addrs t) ∧
  (∀ b, b ∈ addrs t ↔ length σ ≤ b < length σ') ∧
  (∀ b, b < length σ → σ' !! b = σ !! b) ∧
  Node.data <$> σ' !! length σ = Some d ∧
  preorder σ' t = addrs t ∧
  (∀ b n, length σ ≤ b → σ' !! b = Some n →
          Node.id n = None ∧ Node._children n = None).

Definition built_children (σ σ' : Store) (a : addr) (dep : nat)
    (ts : list Tree) (l : list Data) : Prop :=
  length σ ≤ length σ' ∧
  Forall (Repr σ' (Some a) (S dep)) ts ∧
  NoDup (flat_map addrs ts) ∧
  (∀ b, b ∈ flat_map addrs ts ↔ length σ ≤ b < length σ') ∧
  (∀ b, b < length σ → σ' !! b = σ !! b) ∧
  map (λ k, Node.data <$> σ' !! taddr k) ts = map Some l ∧
  flat_map (preorder σ') ts = flat_map addrs ts ∧
  (∀ b n, length σ ≤ b → σ' !! b = Some n →
          Node.id n = None ∧ Node._children n = None).

(** [x] occurs before [y] in [l]. *)
Definition before {A} (l : list A) (x y : A) : Prop :=
  ∃ l1 l2 l3, l = l1 ++ x :: l2 ++ y :: l3.

(** The heap of the state is a tree rooted at [root] and holds nothing
    else. *)
Definition tree_inv (st : State) (T : Tree) : Prop :=
  st_root st = Some (taddr T) ∧
  Repr (st_heap st) None 0 T ∧
  NoDup (addrs T) ∧
  ∀ a, a < length (st_heap st) → a ∈ addrs T.

(** Identities are positive, below the counter and not shared. *)
Definition ids_inv (st : State) : Prop :=
  (0 ≤ st_id st)%Z ∧
  (∀ a k, get Node.id (st_heap st) a = Some k → (0 < k ≤ st_id st)%Z) ∧
  (∀ a b k, get Node.id (st_heap st) a = Some k →
            get Node.id (st_heap st) b = Some k → a = b).

(** Every rendered element shows a node that has an identity, and no two
    show the same node. *)
Definition scene_inv (st : State) : Prop :=
  NoDup (datum <$> st_nodes st) ∧
  ∀ e, e ∈ st_nodes st → is_Some (get Node.id (st_heap st) (datum e)).

(** What holds of a state once a pass has rendered it. *)
Definition rendered (st : State) : Prop :=
  (∀ a n, st_heap st !! a = Some n → is_Some (Node.id n)) ∧
  (∀ a n, st_heap st !! a = Some n →
          data_children (Node.data n) = Some [] → has_slot (st_heap st) a = true) ∧
  (∀ a n, st_heap st !! a = Some n →
          Node.x0 n = Node.x n ∧ Node.y0 n = Node.y n).

(** No node holds a child list under both properties. *)
Definition one_slot_inv (st : State) : Prop :=
  ∀ a n, st_heap st !! a = Some n →
         Node.children n = None ∨ Node._children n = None.

(** What holds of every state between two events. *)
Definition session_inv (st : State) (T : Tree) : Prop :=
  tree_inv st T ∧ ids_inv st ∧ scene_inv st ∧ rendered st ∧ one_slot_inv st.

(** Every file name in the scene has the hover listeners, or none has. *)
Definition scene_hover (tooltip_key : JsValue) (st : State) : Prop :=
  ∀ e, e ∈ st_nodes st → filename_hover e = strict_ne_null (tooltip_key_str tooltip_key).

(** Every element that shows a node whose record has an empty [children]
    array is drawn as a folder: it has the click listener and not the file
    icon. *)
Definition scene_folders (st : State) : Prop :=
  ∀ e n, e ∈ st_nodes st → st_heap st !! datum e = Some n →
         data_children (Node.data n) = Some [] →
         glyph_click e = true ∧ glyph_text e ≠ glyph_e022.

(** What [update] makes of an element that was in the scene: it moves to
    the position of its node when the node is still visible, and to the
    source, to be removed, when it is not. *)
Definition moved_node (σ : Store) (source : addr) (still : bool) (e : NodeElem)
    : NodeElem :=
  mkNodeElem (datum e) (transform e) (opacity e) (glyph_fill e) (glyph_click e)
    (glyph_text e) (filename_dx e) (filename_text e) (filename_hover e)
    (Some (if still then mkTransition (position σ (datum e)) 1 false
           else mkTransition (position σ source) 0 true)).

(** The states in which a pass of [update] starts, with its pivot: the
    one that [load] prepares and the ones that a click prepares. *)
Inductive PassStart (min_height : Z) (tooltip_key : JsValue)
    : addr → State → Prop :=
  | pass_load data :
      PassStart min_height tooltip_key (loaded data init).1 (loaded data init).2
  | pass_click data evs st this e :
      session min_height tooltip_key data evs = Some st →
      st_nodes st !! this = Some e →
      glyph_click e = true →
      PassStart min_height tooltip_key (datum e) (toggled this (datum e) st).

(** The number of records of the input. *)
Fixpoint data_size (d : Data) : nat :=
  match d with
  | mkData _ k =>
      S (match k with
         | Some l =>
             (fix sizes (l : list Data) : nat :=
                match l with
                | [] => 0
                | c :: l' => data_size c + sizes l'
                end) l
         | None => 0
         end)
  end.

(** ** Invariants of the scene *)

(** Every visible node has an element. *)
Definition scene_shown (st : State) : Prop :=
  ∀ a, visible (st_heap st) a → ∃ e, e ∈ st_nodes st ∧ datum e = a.

(** The element of a visible node is at the position of its node, opaque,
    or on its way there; the element of a hidden node is fading out and
    will be removed. *)
Definition scene_sync (st : State) : Prop :=
  ∀ e, e ∈ st_nodes st →
    (visible (st_heap st) (datum e) →
     transition e = Some (mkTransition (position (st_heap st) (datum e)) 1 false) ∨
     (transition e = None ∧ transform e = position (st_heap st) (datum e) ∧
      opacity e = 1%Z)) ∧
    (¬ visible (st_heap st) (datum e) →
     ∃ p, transition e = Some (mkTransition p 0 true)).

(** The paths that are left when the transitions have ended are the links
    of the tree, in their order, each drawn for its own link. *)
Definition links_sync (st : State) : Prop :=
  ∃ data_links,
    (st_root st ≫= λ root, links root (st_heap st)) = Some data_links ∧
    omap end_link_transition (st_links st)
    = map (λ l, mkLinkElem l (link_path (st_heap st) l) None) data_links.

(** The glyphicon and the file name of an element tell the state of its
    node; the colour does too, except on a folder whose record has an
    empty [children] array, which may have the colour of a file. *)
Definition scene_glyphs (st : State) : Prop :=
  ∀ e, e ∈ st_nodes st →
    glyph_click e = has_slot (st_heap st) (datum e) ∧
    glyph_text e = folder_icon (st_heap st) (datum e) ∧
    filename_text e = get (λ n, data_name (Node.data n)) (st_heap st) (datum e) ∧
    (glyph_fill e = glyphicon_color (st_heap st) (datum e) ∨
     (glyph_fill e = onyx ∧
      get (λ n, data_children (Node.data n)) (st_heap st) (datum e) = Some [])).

(** * Proofs *)

(** ** Induction on trees and records *)

Lemma Tree_ind (P : Tree → Prop) :
  (∀ a kids, Forall P kids → P (TNode a kids)) → ∀ t, P t.
Proof.
  intros step. fix IH 1. intros [a kids]. apply step.
  induction kids as [|k kids IHk]; constructor; [apply IH | exact IHk].
Qed.

Lemma Data_ind (P : Data → Prop) :
  (∀ f, P (mkData f None)) →
  (∀ f l, Forall P l → P (mkData f (Some l))) →
  ∀ d, P d.
Proof.
  intros leaf step. fix IH 1. intros [f [l|]]; [|apply leaf]. apply step.
  induction l as [|k l IHl]; constructor; [apply IH | exact IHl].
Qed.

(** ** Heaps that agree on a projection *)

Section Agree.
Context {B : Type} (f : Node.t → B).

Lemma agree_refl σ : agree f σ σ.
Proof. by intros a. Qed.

Lemma agree_sym σ σ' : agree f σ σ' → agree f σ' σ.
Proof. by intros H a. Qed.

Lemma agree_trans σ1 σ2 σ3 : agree f σ1 σ2 → agree f σ2 σ3 → agree f σ1 σ3.
Proof. intros H1 H2 a. by rewrite H1. Qed.

Lemma agree_alter g a σ : (∀ n, f (g n) = f n) → agree f σ (alter g a σ).
Proof.
  intros Hg b. destruct (decide (a = b)) as [->|Hne].
  - rewrite list_lookup_alter_eq. destruct (σ !! b) as [n|]; [|done]. cbn. by rewrite Hg.
  - by rewrite list_lookup_alter_ne.
Qed.

Lemma agree_length σ σ' : agree f σ σ' → length σ = length σ'.
Proof.
  intros H.
  assert (∀ a, a < length σ ↔ a < length σ') as Hlt.
  { intros a. rewrite <-!lookup_lt_is_Some. specialize (H a).
    destruct (σ !! a), (σ' !! a); simpl in H; try done;
      split; intros [? ?]; done || eauto. }
  destruct (Nat.lt_trichotomy (length σ) (length σ')) as [Hl|[Hl|Hl]]; [|done|].
  - apply Hlt in Hl. lia.
  - apply Hlt in Hl. lia.
Qed.

Lemma agree_lookup σ σ' a n :
  agree f σ σ' → σ !! a = Some n → ∃ n', σ' !! a = Some n' ∧ f n' = f n.
Proof.
  intros H Ha. specialize (H a). rewrite Ha in H. simpl in H.
  destruct (σ' !! a) as [n'|]; [|done]. exists n'. split; [done|]. by simplify_eq/=.
Qed.

Lemma agree_weaken {C} (g : Node.t → C) σ σ' :
  (∀ n m, f n = f m → g n = g m) → agree f σ σ' → agree g σ σ'.
Proof.
  intros Hfg H a. specialize (H a).
  destruct (σ !! a), (σ' !! a); simpl in *; try done. f_equal. apply Hfg. by simplify_eq.
Qed.
End Agree.

Lemma shape_skeleton n m : shape n = shape m → skeleton n = skeleton m.
Proof.
  destruct n, m. unfold shape, skeleton, slot_items. simpl.
  by intros [= -> -> -> -> ->].
Qed.

Lemma shape_hasOwn n m :
  shape n = shape m → Node.hasOwn_children n = Node.hasOwn_children m.
Proof.
  destruct n, m. unfold shape, Node.hasOwn_children. simpl.
  by intros [= -> -> -> -> ->].
Qed.

Lemma agree_shape_skeleton σ σ' : agree shape σ σ' → agree skeleton σ σ'.
Proof. apply agree_weaken, shape_skeleton. Qed.

Lemma agree_shape_hasOwn σ σ' a :
  agree shape σ σ' → hasOwn_children σ' a = hasOwn_children σ a.
Proof.
  intros H. unfold hasOwn_children.
  destruct (σ !! a) as [n|] eqn:Ha.
  - destruct (agree_lookup _ _ _ _ _ H Ha) as (m & -> & Hm). by apply shape_hasOwn.
  - specialize (H a). rewrite Ha in H. by destruct (σ' !! a).
Qed.

Lemma agree_shape_truthy σ σ' a :
  agree shape σ σ' → truthy_children σ' a = truthy_children σ a.
Proof.
  intros H. unfold truthy_children, get.
  destruct (σ !! a) as [n|] eqn:Ha.
  - destruct (agree_lookup _ _ _ _ _ H Ha) as (m & -> & Hm).
    destruct n, m. unfold shape in Hm. simpl in *. by simplify_eq.
  - specialize (H a). rewrite Ha in H. by destruct (σ' !! a).
Qed.

(** ** Trees on the heap *)

Lemma elem_of_flat_map {A B} (f : A → list B) (l : list A) (b : B) :
  b ∈ flat_map f l ↔ ∃ x, x ∈ l ∧ b ∈ f x.
Proof.
  induction l as [|x l IH]; simpl.
  - split; [by intros ?%elem_of_nil | by intros (? & ?%elem_of_nil & _)].
  - rewrite elem_of_app, IH. split.
    + intros [H|(y & Hy & H)]; [exists x | exists y]; split; auto; by constructor.
    + intros (y & Hy & H). apply elem_of_cons in Hy as [->|Hy]; eauto.
Qed.

Lemma flat_map_ext_in {A B} (f g : A → list B) (l : list A) :
  Forall (λ x, f x = g x) l → flat_map f l = flat_map g l.
Proof. induction 1; simpl; congruence. Qed.

Lemma elem_of_addrs b a kids :
  b ∈ addrs (TNode a kids) ↔ b = a ∨ ∃ k, k ∈ kids ∧ b ∈ addrs k.
Proof. simpl. by rewrite elem_of_cons, elem_of_flat_map. Qed.

Lemma taddr_in_addrs t : taddr t ∈ addrs t.
Proof. destruct t. simpl. by left. Qed.

Lemma map_ext_elem {A B} (f g : A → B) (l : list A) :
  (∀ x, x ∈ l → f x = g x) → map f l = map g l.
Proof.
  induction l as [|x l IH]; intros H; simpl; [done|].
  rewrite H by constructor. f_equal. apply IH. intros y Hy. apply H. by constructor.
Qed.

Lemma Repr_inv σ par dep a kids :
  Repr σ par dep (TNode a kids) →
  ∃ n, σ !! a = Some n ∧ Node.parent n = par ∧ Node.depth n = dep ∧
       slot_items n = map taddr kids ∧
       map (λ k, Node.data <$> σ !! taddr k) kids
         = map Some (default [] (data_children (Node.data n))) ∧
       Forall (Repr σ (Some a) (S dep)) kids.
Proof. inversion 1; subst. eauto 10. Qed.

Lemma skeleton_fmap_data (o1 o2 : option Node.t) :
  skeleton <$> o1 = skeleton <$> o2 → Node.data <$> o1 = Node.data <$> o2.
Proof.
  destruct o1 as [n|], o2 as [m|]; try done. cbn. unfold skeleton.
  intros [= H _ _ _]. by rewrite H.
Qed.

Lemma Repr_agree_on σ σ' t : ∀ par dep,
  (∀ b, b ∈ addrs t → skeleton <$> σ !! b = skeleton <$> σ' !! b) →
  Repr σ par dep t → Repr σ' par dep t.
Proof.
  induction t as [a kids IH] using Tree_ind. intros par dep Hσ Hr.
  apply Repr_inv in Hr as (n & Ha & Hp & Hd & Hs & Hdata & Hkids).
  pose proof (Hσ a (taddr_in_addrs (TNode a kids))) as Hsk.
  rewrite Ha in Hsk. destruct (σ' !! a) as [n'|] eqn:Ha'; [|done].
  cbn in Hsk. unfold skeleton in Hsk.
  injection Hsk as Hdat Hdep Hpar Hsl.
  apply Repr_node with n'; try congruence.
  - rewrite <-Hdat, <-Hdata. apply map_ext_elem. intros k Hk.
    symmetry. apply skeleton_fmap_data, Hσ, elem_of_addrs. right.
    exists k. split; [done | apply taddr_in_addrs].
  - rewrite Forall_forall in IH, Hkids. apply Forall_forall. intros k Hk.
    apply IH; [done| |by apply Hkids]. intros b Hb. apply Hσ, elem_of_addrs. right. exists k. split; assumption.
Qed.

Lemma Repr_agree σ σ' t par dep :
  agree skeleton σ σ' → Repr σ par dep t → Repr σ' par dep t.
Proof. intros H. apply Repr_agree_on. intros b _. apply H. Qed.

Lemma well_formed_agree σ σ' t :
  agree shape σ σ' → well_formed σ t → well_formed σ' t.
Proof.
  intros H (par & dep & Hr). exists par, dep.
  eapply Repr_agree; [by apply agree_shape_skeleton | done].
Qed.

Lemma well_formed_kids σ a kids :
  well_formed σ (TNode a kids) → Forall (well_formed σ) kids.
Proof.
  intros (par & dep & Hr). apply Repr_inv in Hr as (n & _ & _ & _ & _ & _ & Hk).
  eapply Forall_impl; [apply Hk|]. intros k ?. by exists (Some a), (S dep).
Qed.

Lemma well_formed_expanded_kids σ t :
  well_formed σ t → Forall (well_formed σ) (expanded_kids σ t).
Proof.
  destruct t as [a kids]. intros H. unfold expanded_kids. simpl.
  destruct (hasOwn_children σ a); [by eapply well_formed_kids | constructor].
Qed.

Lemma well_formed_truthy σ t :
  well_formed σ t →
  truthy_children σ (taddr t) = map taddr (expanded_kids σ t).
Proof.
  destruct t as [a kids]. intros (par & dep & Hr).
  apply Repr_inv in Hr as (n & Ha & _ & _ & Hs & _ & _).
  unfold truthy_children, expanded_kids, hasOwn_children, get,
    Node.hasOwn_children. simpl. rewrite Ha. simpl.
  unfold slot_items in Hs. by destruct (Node.children n).
Qed.

Lemma preorder_unfold σ t :
  preorder σ t = taddr t :: flat_map (preorder σ) (expanded_kids σ t).
Proof.
  destruct t as [a kids]. unfold expanded_kids. simpl.
  by destruct (hasOwn_children σ a).
Qed.

Lemma preorder_agree σ σ' t :
  agree shape σ σ' → preorder σ' t = preorder σ t.
Proof.
  intros H. induction t as [a kids IH] using Tree_ind. simpl.
  rewrite (agree_shape_hasOwn _ _ _ H). f_equal.
  destruct (hasOwn_children σ a); [|done]. by apply flat_map_ext_in.
Qed.

Lemma expanded_kids_agree σ σ' t :
  agree shape σ σ' → expanded_kids σ' t = expanded_kids σ t.
Proof. intros H. unfold expanded_kids. by rewrite (agree_shape_hasOwn _ _ _ H). Qed.

Lemma flat_map_preorder_agree σ σ' ts :
  agree shape σ σ' → flat_map (preorder σ') ts = flat_map (preorder σ) ts.
Proof.
  intros H. apply flat_map_ext_in, Forall_forall. intros t _. by apply preorder_agree.
Qed.

Lemma flat_map_expanded_kids_agree σ σ' ts :
  agree shape σ σ' → flat_map (expanded_kids σ') ts = flat_map (expanded_kids σ) ts.
Proof.
  intros H. apply flat_map_ext_in, Forall_forall. intros t _.
  by apply expanded_kids_agree.
Qed.

Lemma preorder_level σ ts :
  flat_map (preorder σ) ts ≡ₚ
  map taddr ts ++ flat_map (preorder σ) (flat_map (expanded_kids σ) ts).
Proof.
  induction ts as [|t ts IH]; simpl; [done|].
  rewrite preorder_unfold, flat_map_app, IH. simpl. constructor.
  rewrite !app_assoc. f_equiv. apply Permutation_app_comm.
Qed.

Lemma breadth_first_preorder fuel : ∀ σ ts,
  length (flat_map (preorder σ) ts) ≤ fuel →
  breadth_first fuel σ ts ≡ₚ flat_map (preorder σ) ts.
Proof.
  induction fuel as [|fuel IH]; intros σ ts Hlen.
  - destruct ts as [|t ts]; [done|]. simpl in Hlen. rewrite preorder_unfold in Hlen.
    simpl in Hlen. lia.
  - destruct ts as [|t ts]; [done|]. rewrite (preorder_level σ (t :: ts)).
    change (breadth_first (S fuel) σ (t :: ts)) with
      (map taddr (t :: ts) ++ breadth_first fuel σ (flat_map (expanded_kids σ) (t :: ts))).
    f_equiv. apply IH. rewrite (preorder_level σ (t :: ts)) in Hlen.
    rewrite length_app, length_map in Hlen. cbn [length] in Hlen. lia.
Qed.

(** ** The two traversals of d3-hierarchy *)

Section TraversalSpec.
Context {A : Type} (heap_of : A → Store) (callback : addr → A → A).
Hypothesis callback_shape :
  ∀ n s, agree shape (heap_of s) (heap_of (callback n s)).

Lemma foldl_callback_shape l : ∀ s,
  agree shape (heap_of s) (heap_of (foldl (λ s n, callback n s) s l)).
Proof using callback_shape.
  induction l as [|n l IH]; intros s; simpl; [apply agree_refl|].
  eapply agree_trans; [apply callback_shape | apply IH].
Qed.

Lemma eachBefore_loop_spec fuel : ∀ ts s,
  Forall (well_formed (heap_of s)) ts →
  length (flat_map (preorder (heap_of s)) ts) ≤ fuel →
  eachBefore_loop heap_of fuel (map taddr ts) callback s =
    Some (foldl (λ s n, callback n s) s (flat_map (preorder (heap_of s)) ts),
          flat_map (preorder (heap_of s)) ts).
Proof using callback_shape.
  induction fuel as [|fuel IH]; intros ts s Hwf Hlen.
  - destruct ts as [|t ts]; [done|]. simpl in Hlen. rewrite preorder_unfold in Hlen.
    simpl in Hlen. lia.
  - destruct ts as [|t ts]; [done|].
    apply Forall_cons in Hwf as [Ht Hts].
    pose proof (callback_shape (taddr t) s) as Hs.
    simpl. rewrite (agree_shape_truthy _ _ _ Hs), (well_formed_truthy _ _ Ht).
    rewrite <-map_app.
    rewrite IH.
    + rewrite (flat_map_preorder_agree _ _ _ Hs), flat_map_app.
      by rewrite (preorder_unfold _ t).
    + apply Forall_app. split.
      * eapply Forall_impl; [by apply well_formed_expanded_kids|].
        intros k. by apply well_formed_agree.
      * eapply Forall_impl; [apply Hts|]. intros k. by apply well_formed_agree.
    + rewrite (flat_map_preorder_agree _ _ _ Hs), flat_map_app.
      simpl in Hlen. rewrite preorder_unfold in Hlen. simpl in Hlen. lia.
Qed.

Lemma each_level_spec ts : ∀ s next,
  Forall (well_formed (heap_of s)) ts →
  each_level heap_of (map taddr ts) callback s next =
    (foldl (λ s n, callback n s) s (map taddr ts),
     next ++ map taddr (flat_map (expanded_kids (heap_of s)) ts)).
Proof using callback_shape.
  induction ts as [|t ts IH]; intros s next Hwf; simpl.
  - by rewrite app_nil_r.
  - apply Forall_cons in Hwf as [Ht Hts].
    pose proof (callback_shape (taddr t) s) as Hs.
    rewrite (agree_shape_truthy _ _ _ Hs), (well_formed_truthy _ _ Ht).
    rewrite IH.
    + rewrite (flat_map_expanded_kids_agree _ _ _ Hs), map_app. by rewrite <-app_assoc.
    + eapply Forall_impl; [apply Hts|]. intros k. by apply well_formed_agree.
Qed.

Lemma each_loop_spec fuel : ∀ ts s,
  Forall (well_formed (heap_of s)) ts →
  length (flat_map (preorder (heap_of s)) ts) ≤ fuel →
  each_loop heap_of fuel (map taddr ts) callback s =
    Some (foldl (λ s n, callback n s) s (breadth_first fuel (heap_of s) ts),
          breadth_first fuel (heap_of s) ts).
Proof using callback_shape.
  induction fuel as [|fuel IH]; intros ts s Hwf Hlen.
  - destruct ts as [|t ts]; [done|]. simpl in Hlen. rewrite preorder_unfold in Hlen.
    simpl in Hlen. lia.
  - destruct ts as [|t ts]; [done|].
    change (map taddr (t :: ts)) with (taddr t :: map taddr ts) at 1.
    cbn [each_loop].
    change (taddr t :: map taddr ts) with (map taddr (t :: ts)).
    rewrite each_level_spec by done. rewrite app_nil_l.
    pose proof (foldl_callback_shape (map taddr (t :: ts)) s) as Hs.
    rewrite IH.
    + change (breadth_first (S fuel) (heap_of s) (t :: ts)) with
        (map taddr (t :: ts) ++
         breadth_first fuel (heap_of s) (flat_map (expanded_kids (heap_of s)) (t :: ts))).
      rewrite foldl_app.
      assert (∀ f ts', breadth_first f
                (heap_of (foldl (λ s n, callback n s) s (map taddr (t :: ts)))) ts'
              = breadth_first f (heap_of s) ts') as Hbf.
      { clear -Hs. induction f as [|f IHf]; intros [|t' ts']; simpl; try done.
        f_equal. f_equal. rewrite IHf. f_equal.
        rewrite (expanded_kids_agree _ _ _ Hs). f_equal.
        by apply flat_map_expanded_kids_agree. }
      by rewrite Hbf.
    + apply Forall_forall. intros k Hk. apply elem_of_flat_map in Hk as (t' & Ht' & Hk).
      eapply well_formed_agree; [done|].
      rewrite Forall_forall in Hwf.
      pose proof (well_formed_expanded_kids _ _ (Hwf _ Ht')) as Hks.
      rewrite Forall_forall in Hks. by apply Hks.
    + rewrite (flat_map_preorder_agree _ _ _ Hs).
      rewrite (preorder_level _ (t :: ts)), length_app, length_map in Hlen.
      cbn [length] in Hlen. lia.
Qed.
End TraversalSpec.

(** ** Lists without repetition *)

Lemma NoDup_bounded_length (l : list nat) n :
  NoDup l → (∀ x, x ∈ l → x < n) → length l ≤ n.
Proof.
  intros Hnd Hlt. transitivity (length (seq 0 n)); [|by rewrite length_seq].
  apply submseteq_length.
  apply NoDup_submseteq; [done|]. intros x Hx. apply elem_of_seq.
  specialize (Hlt x Hx). lia.
Qed.

Lemma NoDup_flat_map_elem {A B} (f : A → list B) l x :
  NoDup (flat_map f l) → x ∈ l → NoDup (f x).
Proof.
  induction l as [|y l IH]; simpl; intros Hnd Hx; [by apply elem_of_nil in Hx|].
  apply NoDup_app in Hnd as (Hy & _ & Hl).
  apply elem_of_cons in Hx as [->|Hx]; auto.
Qed.

Lemma NoDup_flat_map_disjoint {A B} (f : A → list B) l x y b :
  NoDup (flat_map f l) → x ∈ l → y ∈ l → b ∈ f x → b ∈ f y → x = y.
Proof.
  induction l as [|z l IH]; simpl; intros Hnd Hx Hy Hbx Hby;
    [by apply elem_of_nil in Hx|].
  apply NoDup_app in Hnd as (_ & Hdis & Hl).
  apply elem_of_cons in Hx as [->|Hx]; apply elem_of_cons in Hy as [->|Hy]; auto.
  - exfalso. apply (Hdis b Hbx). apply elem_of_flat_map. eauto.
  - exfalso. apply (Hdis b Hby). apply elem_of_flat_map. eauto.
Qed.

Lemma sublist_flat_map {A B} (f g : A → list B) l :
  Forall (λ x, f x `sublist_of` g x) l → flat_map f l `sublist_of` flat_map g l.
Proof. induction 1; simpl; [done | by apply sublist_app]. Qed.

Lemma lookup_split2 {A} (l : list A) i j x y :
  l !! i = Some x → l !! j = Some y → i < j →
  ∃ l1 l2 l3, l = l1 ++ x :: l2 ++ y :: l3.
Proof.
  intros Hi Hj Hlt.
  rewrite <-(take_drop_middle l i x Hi).
  assert (drop (S i) l !! (j - S i) = Some y) as Hj'.
  { rewrite lookup_drop. rewrite <-Hj. f_equal. lia. }
  rewrite <-(take_drop_middle _ _ _ Hj'). eauto.
Qed.

Lemma before_lookup {A} (l : list A) x y i j :
  NoDup l → before l x y → l !! i = Some x → l !! j = Some y → i < j.
Proof.
  intros Hnd (l1 & l2 & l3 & ->) Hi Hj.
  assert ((l1 ++ x :: l2 ++ y :: l3) !! length l1 = Some x) as Hi'
    by apply list_lookup_middle, eq_refl.
  assert ((l1 ++ x :: l2 ++ y :: l3) !! (length l1 + S (length l2)) = Some y) as Hj'.
  { rewrite lookup_app_r by lia.
    replace (length l1 + S (length l2) - length l1) with (S (length l2)) by lia.
    simpl. by apply list_lookup_middle. }
  rewrite (NoDup_lookup _ _ _ _ Hnd Hi Hi'), (NoDup_lookup _ _ _ _ Hnd Hj Hj'). lia.
Qed.

Lemma before_embed {A} (l k1 k2 : list A) x y :
  before l x y → before (k1 ++ l ++ k2) x y.
Proof.
  intros (l1 & l2 & l3 & ->). exists (k1 ++ l1), l2, (l3 ++ k2).
  repeat (rewrite <-?app_assoc; simpl; try done).
Qed.

(** ** Where a node sits in the tree *)

Lemma elem_of_preorder σ b a kids :
  b ∈ preorder σ (TNode a kids) ↔
  b = a ∨ (hasOwn_children σ a = true ∧ ∃ k, k ∈ kids ∧ b ∈ preorder σ k).
Proof.
  simpl. rewrite elem_of_cons. destruct (hasOwn_children σ a).
  - rewrite elem_of_flat_map. intuition.
  - rewrite elem_of_nil. split; [by intros [?|[]]; left | by intros [?|[? _]]; [left|]].
Qed.

Lemma taddr_in_preorder σ t : taddr t ∈ preorder σ t.
Proof. destruct t. simpl. by left. Qed.

Lemma preorder_sublist σ t : preorder σ t `sublist_of` addrs t.
Proof.
  induction t as [a kids IH] using Tree_ind. simpl. constructor.
  destruct (hasOwn_children σ a); [by apply sublist_flat_map | apply sublist_nil_l].
Qed.

Lemma preorder_addrs σ t a : a ∈ preorder σ t → a ∈ addrs t.
Proof. intros H. eapply elem_of_sublist; [done | apply preorder_sublist]. Qed.

Lemma preorder_NoDup σ t : NoDup (addrs t) → NoDup (preorder σ t).
Proof. intros H. exact (sublist_NoDup _ _ H (preorder_sublist σ t)). Qed.

Lemma Repr_root σ par dep t :
  Repr σ par dep t →
  ∃ n, σ !! taddr t = Some n ∧ Node.parent n = par ∧ Node.depth n = dep.
Proof. destruct t. intros (n & ? & ? & ? & _)%Repr_inv. eauto. Qed.

Lemma Repr_lookup σ t : ∀ par dep b,
  Repr σ par dep t → b ∈ addrs t → is_Some (σ !! b).
Proof.
  induction t as [a kids IH] using Tree_ind. intros par dep b Hr Hb.
  apply Repr_inv in Hr as (n & Ha & _ & _ & _ & _ & Hk).
  apply elem_of_addrs in Hb as [->|(k & Hk' & Hb)]; [by eexists|].
  rewrite Forall_forall in IH, Hk. eapply IH; eauto.
Qed.

(** A node below the root of [t] points to its parent, which is in [t]
    and one level up. *)
Lemma Repr_parent σ t : ∀ par dep b,
  Repr σ par dep t → b ∈ addrs t → b ≠ taddr t →
  ∃ n p np, σ !! b = Some n ∧ Node.parent n = Some p ∧ p ∈ addrs t ∧
            σ !! p = Some np ∧ Node.depth n = S (Node.depth np).
Proof.
  induction t as [a kids IH] using Tree_ind. intros par dep b Hr Hb Hne.
  pose proof Hr as (n & Ha & _ & Hd & _ & _ & Hk)%Repr_inv.
  apply elem_of_addrs in Hb as [->|(k & Hk' & Hb)]; [done|].
  rewrite Forall_forall in IH, Hk.
  destruct (decide (b = taddr k)) as [->|Hbk].
  - destruct (Repr_root _ _ _ _ (Hk _ Hk')) as (m & Hm & Hp & Hdm).
    exists m, a, n. repeat split; try done.
    + apply elem_of_addrs. by left.
    + by rewrite Hd.
  - destruct (IH _ Hk' _ _ _ (Hk _ Hk') Hb Hbk) as (m & p & np & ? & ? & ? & ? & ?).
    exists m, p, np. repeat split; try done.
    apply elem_of_addrs. right. eauto.
Qed.

(** Below the root, a node is in the pre-order exactly when its parent is
    and is expanded. *)
Lemma preorder_step σ t : ∀ par dep a,
  Repr σ par dep t → NoDup (addrs t) → a ∈ addrs t → a ≠ taddr t →
  a ∈ preorder σ t ↔
  ∃ n p, σ !! a = Some n ∧ Node.parent n = Some p ∧
         p ∈ preorder σ t ∧ hasOwn_children σ p = true.
Proof.
  induction t as [r kids IH] using Tree_ind. intros par dep a Hr Hnd Ha Hne.
  pose proof Hr as (nr & Hnr & _ & _ & _ & _ & Hk)%Repr_inv.
  simpl in Hnd. apply NoDup_cons in Hnd as [Hr_out Hnd].
  rewrite Forall_forall in IH, Hk. simpl in Hne.
  split.
  - intros [->|(Hown & k & Hk' & Hak)]%elem_of_preorder; [done|].
    destruct (decide (a = taddr k)) as [->|Hak'].
    + destruct (Repr_root _ _ _ _ (Hk _ Hk')) as (m & Hm & Hp & _).
      exists m, r. repeat split; try done. apply elem_of_preorder. by left.
    + destruct (IH _ Hk' _ _ a (Hk _ Hk')) as [(m & p & ? & ? & ? & ?) _]; try done.
      * by eapply NoDup_flat_map_elem.
      * by eapply preorder_addrs.
      * exists m, p. repeat split; try done. apply elem_of_preorder. right. eauto.
  - intros (n & p & Hn & Hp & Hpin & Hpown).
    apply elem_of_addrs in Ha as [->|(k & Hk' & Hak)]; [done|].
    destruct (decide (a = taddr k)) as [->|Hak'].
    + destruct (Repr_root _ _ _ _ (Hk _ Hk')) as (m & Hm & Hpm & _).
      assert (p = r) as -> by congruence.
      apply elem_of_preorder. right. split; [done|]. exists k. split; [done|].
      apply taddr_in_preorder.
    + destruct (Repr_parent _ _ _ _ _ (Hk _ Hk') Hak Hak')
        as (m & p' & np & Hm & Hpm & Hp'in & _).
      assert (p' = p) as -> by congruence.
      apply elem_of_preorder in Hpin as [->|(Hown & k' & Hk'' & Hpk')].
      { exfalso. apply Hr_out, elem_of_flat_map. eauto. }
      assert (k' = k) as ->.
      { eapply (NoDup_flat_map_disjoint addrs kids k' k p); try done.
        by eapply preorder_addrs. }
      apply elem_of_preorder. right. split; [done|]. exists k. split; [done|].
      eapply (IH _ Hk' _ _ a (Hk _ Hk')); try done.
      * by eapply NoDup_flat_map_elem.
      * eauto 10.
Qed.

Section Visible.
Context (σ : Store) (T : Tree).
Hypothesis HT : Repr σ None 0 T.
Hypothesis Hnd : NoDup (addrs T).
Hypothesis Hall : ∀ a, a < length σ → a ∈ addrs T.

Lemma root_no_parent a n p :
  σ !! a = Some n → Node.parent n = Some p → a ≠ taddr T.
Proof using HT.
  intros Hn Hp ->. destruct (Repr_root _ _ _ _ HT) as (m & Hm & Hpm & _). congruence.
Qed.

Lemma in_tree a n : σ !! a = Some n → a ∈ addrs T.
Proof using Hall. intros H. by apply Hall, lookup_lt_is_Some. Qed.

Lemma parent_preorder a n p :
  σ !! a = Some n → Node.parent n = Some p → a ∈ preorder σ T →
  p ∈ preorder σ T ∧ hasOwn_children σ p = true.
Proof using HT Hnd.
  intros Hn Hp Ha.
  apply (preorder_step _ _ _ _ _ HT Hnd) in Ha as (m & q & ? & ? & ? & ?).
  - by assert (q = p) as <- by congruence.
  - by eapply preorder_addrs.
  - by eapply root_no_parent.
Qed.

Lemma ancestor_preorder b a :
  ancestor σ b a → a ∈ preorder σ T →
  b ∈ preorder σ T ∧ hasOwn_children σ b = true.
Proof using HT Hnd.
  induction 1 as [a n p Hn Hp|a n p b Hn Hp Hanc IH]; intros Ha.
  - by eapply parent_preorder.
  - apply IH. by eapply parent_preorder.
Qed.

Lemma visible_depth d : ∀ a n,
  σ !! a = Some n → Node.depth n = d → visible σ a → a ∈ preorder σ T.
Proof using HT Hnd Hall.
  induction d as [|d IH]; intros a n Hn Hd [_ Hvis];
    (destruct (decide (a = taddr T)) as [->|Hne]; [apply taddr_in_preorder|]);
    destruct (Repr_parent _ _ _ _ _ HT (in_tree _ _ Hn) Hne)
      as (m & p & np & Hm & Hp & Hpin & Hnp & Hdep);
    assert (m = n) as -> by congruence.
  - lia.
  - apply (preorder_step _ _ _ _ _ HT Hnd); [by eapply in_tree | done |].
    exists n, p. repeat split; try done.
    + apply (IH p np); [done | lia |]. split; [by eexists|].
      intros b Hb. apply Hvis. by eapply ancestor_further.
    + apply Hvis. by eapply ancestor_parent.
Qed.

Lemma preorder_visible a : a ∈ preorder σ T ↔ visible σ a.
Proof using HT Hnd Hall.
  split.
  - intros Ha. split.
    + eapply Repr_lookup; [done | by eapply preorder_addrs].
    + intros b Hb. by eapply ancestor_preorder.
  - intros Hv. destruct (Hv) as [[n Hn] _]. by eapply visible_depth.
Qed.
End Visible.

(** ** The order of the pre-order *)

Lemma before_parent σ t : ∀ par dep a,
  Repr σ par dep t → a ∈ preorder σ t → a ≠ taddr t →
  ∃ n p, σ !! a = Some n ∧ Node.parent n = Some p ∧ before (preorder σ t) p a.
Proof.
  induction t as [r kids IH] using Tree_ind. intros par dep a Hr Ha Hne.
  pose proof Hr as (nr & Hnr & _ & _ & _ & _ & Hk)%Repr_inv.
  rewrite Forall_forall in IH, Hk.
  apply elem_of_preorder in Ha as [->|(Hown & k & Hk' & Hak)]; [done|].
  destruct (list_elem_of_split _ _ Hk') as (ks1 & ks2 & ->).
  simpl. rewrite Hown, flat_map_app. simpl.
  destruct (decide (a = taddr k)) as [->|Hak'].
  - destruct (Repr_root _ _ _ _ (Hk _ Hk')) as (m & Hm & Hp & _).
    exists m, r. repeat split; try done.
    rewrite (preorder_unfold σ k).
    exists [], (flat_map (preorder σ) ks1),
      (flat_map (preorder σ) (expanded_kids σ k) ++ flat_map (preorder σ) ks2).
    done.
  - destruct (IH _ Hk' _ _ a (Hk _ Hk') Hak Hak') as (m & p & Hm & Hp & Hb).
    exists m, p. repeat split; try done.
    apply (before_embed _ (r :: flat_map (preorder σ) ks1)
             (flat_map (preorder σ) ks2)) in Hb. done.
Qed.

Lemma before_siblings σ t : ∀ par dep p n l i j ki kj,
  Repr σ par dep t → p ∈ preorder σ t →
  σ !! p = Some n → Node.children n = Some (CArray l) →
  l !! i = Some ki → l !! j = Some kj → i < j →
  before (preorder σ t) ki kj.
Proof.
  induction t as [r kids IH] using Tree_ind.
  intros par dep p n l i j ki kj Hr Hp Hn Hc Hi Hj Hlt.
  pose proof Hr as (nr & Hnr & _ & _ & Hs & _ & Hk)%Repr_inv.
  rewrite Forall_forall in IH, Hk.
  apply elem_of_preorder in Hp as [->|(Hown & k & Hk' & Hpk)].
  - assert (nr = n) as -> by congruence.
    unfold slot_items in Hs. rewrite Hc in Hs. simpl in Hs. subst l.
    rewrite list_lookup_fmap in Hi, Hj.
    destruct (kids !! i) as [ti|] eqn:Hti; [|done].
    destruct (kids !! j) as [tj|] eqn:Htj; [|done].
    simpl in Hi, Hj. simplify_eq.
    destruct (lookup_split2 _ _ _ _ _ Hti Htj Hlt) as (ks1 & ks2 & ks3 & ->).
    simpl. unfold hasOwn_children, Node.hasOwn_children. rewrite Hn, Hc.
    rewrite flat_map_app. simpl. rewrite flat_map_app. simpl.
    rewrite (preorder_unfold σ ti), (preorder_unfold σ tj).
    exists (r :: flat_map (preorder σ) ks1),
      (flat_map (preorder σ) (expanded_kids σ ti) ++ flat_map (preorder σ) ks2),
      (flat_map (preorder σ) (expanded_kids σ tj) ++ flat_map (preorder σ) ks3).
    simpl. by rewrite <-!app_assoc.
  - destruct (list_elem_of_split _ _ Hk') as (ks1 & ks2 & ->).
    simpl. rewrite Hown, flat_map_app. simpl.
    pose proof (IH _ Hk' _ _ _ _ _ _ _ _ _ (Hk _ Hk') Hpk Hn Hc Hi Hj Hlt) as Hb.
    apply (before_embed _ (r :: flat_map (preorder σ) ks1)
             (flat_map (preorder σ) ks2)) in Hb. done.
Qed.

(** The children array of a node lists its children in the order of the
    records in [data.children]. *)
Lemma children_input_order σ t : ∀ par dep p n,
  Repr σ par dep t → p ∈ addrs t → σ !! p = Some n →
  map (λ k, Node.data <$> σ !! k) (slot_items n)
  = map Some (default [] (data_children (Node.data n))).
Proof.
  induction t as [r kids IH] using Tree_ind. intros par dep p n Hr Hp Hn.
  pose proof Hr as (nr & Hnr & _ & _ & Hs & Hdata & Hk)%Repr_inv.
  rewrite Forall_forall in IH, Hk.
  apply elem_of_addrs in Hp as [->|(k & Hk' & Hpk)].
  - assert (nr = n) as -> by congruence. rewrite Hs, <-Hdata.
    by rewrite map_map.
  - exact (IH _ Hk' _ _ p n (Hk _ Hk') Hpk Hn).
Qed.

(** ** The layout pass *)

Lemma layout_node_shape r n : shape (layout_node r n) = shape n.
Proof. by destruct n. Qed.

Lemma layout_callback_shape n (s : Store * Z) :
  agree shape s.1 (layout_callback n s).1.
Proof. apply agree_alter, layout_node_shape. Qed.

Lemma layout_fold l : ∀ σ r,
  NoDup l →
  let s' := foldl (λ s n, layout_callback n s) (σ, r) l in
  (∀ a, a ∉ l → s'.1 !! a = σ !! a) ∧
  (∀ i a, l !! i = Some a →
          s'.1 !! a = layout_node (r + 1 + Z.of_nat i) <$> σ !! a).
Proof.
  induction l as [|a0 l IH]; intros σ r Hnd.
  - split; [done|]. intros i a Hi. by rewrite lookup_nil in Hi.
  - apply NoDup_cons in Hnd as [Hout Hnd].
    destruct (IH (alter (layout_node (r + 1)) a0 σ) (r + 1)%Z Hnd) as [IH1 IH2].
    change (foldl (λ s n, layout_callback n s) (σ, r) (a0 :: l)) with
      (foldl (λ s n, layout_callback n s)
         (alter (layout_node (r + 1)) a0 σ, (r + 1)%Z) l).
    cbn zeta. split.
    + intros a Ha. apply not_elem_of_cons in Ha as [Hne Ha].
      rewrite IH1 by done. by rewrite list_lookup_alter_ne.
    + intros [|i] a Hi; simpl in Hi.
      * simplify_eq. rewrite IH1 by done. rewrite list_lookup_alter_eq.
        by replace (r + 1 + Z.of_nat 0)%Z with (r + 1)%Z by lia.
      * rewrite (IH2 _ _ Hi). rewrite list_lookup_alter_ne.
        -- by replace (r + 1 + 1 + Z.of_nat i)%Z with (r + 1 + Z.of_nat (S i))%Z by lia.
        -- intros ->. apply Hout. by eapply list_elem_of_lookup_2.
Qed.

Section Layout.
Context (σ : Store) (T : Tree).
Hypothesis HT : Repr σ None 0 T.
Hypothesis Hnd : NoDup (addrs T).

Lemma preorder_fuel : length (flat_map (preorder σ) [T]) ≤ length σ.
Proof using HT Hnd.
  simpl. rewrite app_nil_r.
  etransitivity; [apply sublist_length, preorder_sublist|].
  apply NoDup_bounded_length; [done|]. intros b Hb.
  apply lookup_lt_is_Some. by eapply Repr_lookup.
Qed.

Lemma layout_spec :
  layout (taddr T) σ =
    Some ((foldl (λ s n, layout_callback n s) (σ, (-1)%Z) (preorder σ T)).1,
          preorder σ T).
Proof using HT Hnd.
  unfold layout, eachBefore. simpl.
  pose proof (eachBefore_loop_spec (A := Store * Z) fst layout_callback
                (λ n s, layout_callback_shape n s) (length σ) [T] (σ, (-1)%Z)) as H.
  simpl in H. rewrite app_nil_r in H. rewrite H; [done| |].
  - constructor; [by exists None, 0 | constructor].
  - pose proof preorder_fuel as Hf. simpl in Hf. by rewrite app_nil_r in Hf.
Qed.
End Layout.

(** ** What [d3.hierarchy] builds *)

Lemma hasOwn_children_lookup σ σ' a :
  σ' !! a = σ !! a → hasOwn_children σ' a = hasOwn_children σ a.
Proof. unfold hasOwn_children. by intros ->. Qed.

Lemma preorder_agree_on σ σ' t :
  (∀ b, b ∈ addrs t → σ' !! b = σ !! b) → preorder σ' t = preorder σ t.
Proof.
  induction t as [a kids IH] using Tree_ind. intros H. simpl.
  rewrite (hasOwn_children_lookup σ σ' a) by apply H, (taddr_in_addrs (TNode a kids)).
  f_equal. destruct (hasOwn_children σ a); [|done].
  apply flat_map_ext_in. rewrite Forall_forall in IH. apply Forall_forall.
  intros k Hk. apply IH; [done|]. intros b Hb. apply H, elem_of_addrs. right.
  exists k. split; assumption.
Qed.

Lemma Repr_lookup_on σ σ' t par dep :
  (∀ b, b ∈ addrs t → σ' !! b = σ !! b) → Repr σ par dep t → Repr σ' par dep t.
Proof. intros H. apply Repr_agree_on. intros b Hb. by rewrite H. Qed.

Lemma hierarchy_node_eq f k dep par σ :
  hierarchy_node (mkData f k) dep par σ =
  match k with
  | Some (c :: cs) =>
      let '(ks, σ2) :=
        hierarchy_children (length σ) dep (c :: cs)
          (σ ++ [Node.new (mkData f k) dep par]) in
      (length σ, alter (Node.set_children (Some (CArray ks))) (length σ) σ2)
  | _ => (length σ, σ ++ [Node.new (mkData f k) dep par])
  end.
Proof. by destruct k as [[|c cs]|]. Qed.

Lemma built_leaf σ d dep par :
  default [] (data_children d) = [] →
  built σ (σ ++ [Node.new d dep par]) par dep (TNode (length σ) []) d.
Proof.
  intros Hd.
  assert ((σ ++ [Node.new d dep par]) !! length σ = Some (Node.new d dep par)) as Hl
    by apply list_lookup_middle, eq_refl.
  unfold built. split_and!.
  - done.
  - apply Repr_node with (Node.new d dep par); try done.
    simpl. by rewrite Hd.
  - simpl. apply NoDup_singleton.
  - intros b. simpl. rewrite list_elem_of_singleton, length_app. simpl. lia.
  - intros b Hb. by apply lookup_app_l.
  - by rewrite Hl.
  - simpl. by destruct (hasOwn_children _ _).
  - intros b n Hb Hn.
    assert (b = length σ) as ->.
    { apply lookup_lt_Some in Hn. rewrite length_app in Hn. simpl in Hn. lia. }
    rewrite Hl in Hn. by simplify_eq.
Qed.

Lemma built_children_spec l :
  Forall (λ d, ∀ dep par σ, ∃ t,
            (hierarchy_node d dep par σ).1 = length σ ∧
            built σ (hierarchy_node d dep par σ).2 par dep t d) l →
  ∀ a dep σ, ∃ ts,
    map taddr ts = (hierarchy_children a dep l σ).1 ∧
    built_children σ (hierarchy_children a dep l σ).2 a dep ts l.
Proof.
  induction 1 as [|k l Hk _ IH]; intros a dep σ.
  - exists []. simpl. split; [done|]. unfold built_children. split_and!; try done.
    + constructor.
    + intros b. simpl. rewrite elem_of_nil. lia.
    + intros b n Hb Hn. apply lookup_lt_Some in Hn. lia.
  - destruct (Hk (S dep) (Some a) σ) as (tk & Hb & Htk).
    simpl. destruct (hierarchy_node k (S dep) (Some a) σ) as [b σ'] eqn:Hnode.
    simpl in Hb, Htk. subst b.
    destruct (IH a dep σ') as (ts & Hts & Hbc).
    destruct (hierarchy_children a dep l σ') as [bs σ''] eqn:Hch.
    simpl in Hts, Hbc. subst bs.
    destruct Htk as (Hroot & Hrepr & Hnd & Hrange & Hpre & Hdata & Hord & Hid).
    destruct Hbc as (Hlen' & Hrepr' & Hnd' & Hrange' & Hpre' & Hdata' & Hord' & Hid').
    assert (length σ < length σ') as Hlen.
    { pose proof (proj1 (Hrange (taddr tk)) (taddr_in_addrs tk)). lia. }
    assert (∀ b, b ∈ addrs tk → σ'' !! b = σ' !! b) as Hsame.
    { intros b Hin. apply Hpre'. by apply Hrange. }
    exists (tk :: ts). simpl. split; [by rewrite Hroot|].
    unfold built_children. split_and!.
    + lia.
    + constructor; [|done]. by eapply Repr_lookup_on.
    + apply NoDup_app. split_and!; try done.
      intros b Hb1 Hb2. apply Hrange in Hb1. apply Hrange' in Hb2. lia.
    + intros b. simpl. rewrite elem_of_app, Hrange, Hrange'. lia.
    + intros b Hlt. rewrite Hpre' by lia. by apply Hpre.
    + simpl. f_equal; try done. rewrite Hsame by apply taddr_in_addrs. by rewrite Hroot.
    + simpl. f_equal; try done. rewrite <-Hord. by apply preorder_agree_on.
    + intros b n Hge Hn. destruct (decide (b < length σ')) as [Hlt|Hge'].
      * rewrite Hpre' in Hn by done. by eapply Hid.
      * eapply Hid'; [|done]. lia.
Qed.

Lemma hierarchy_node_spec d : ∀ dep par σ, ∃ t,
  (hierarchy_node d dep par σ).1 = length σ ∧
  built σ (hierarchy_node d dep par σ).2 par dep t d.
Proof.
  induction d as [f|f l IH] using Data_ind; intros dep par σ.
  - exists (TNode (length σ) []). rewrite hierarchy_node_eq. simpl.
    split; [done|]. by apply built_leaf.
  - destruct l as [|c cs].
    { exists (TNode (length σ) []). rewrite hierarchy_node_eq. simpl.
      split; [done|]. by apply built_leaf. }
    rewrite hierarchy_node_eq.
    set (d := mkData f (Some (c :: cs))).
    set (σ1 := σ ++ [Node.new d dep par]).
    destruct (built_children_spec _ IH (length σ) dep σ1) as (ts & Hts & Hbc).
    destruct (hierarchy_children (length σ) dep (c :: cs) σ1) as [ks σ2] eqn:Hch.
    simpl in Hts, Hbc. subst ks.
    destruct Hbc as (Hlen & Hrepr & Hnd & Hrange & Hpre & Hdata & Hord & Hid).
    assert (length σ1 = S (length σ)) as Hl1.
    { unfold σ1. rewrite length_app. simpl. lia. }
    assert (σ2 !! length σ = Some (Node.new d dep par)) as Hroot.
    { rewrite Hpre by lia. by apply list_lookup_middle. }
    set (σ3 := alter (Node.set_children (Some (CArray (map taddr ts)))) (length σ) σ2).
    assert (σ3 !! length σ =
            Some (Node.set_children (Some (CArray (map taddr ts))) (Node.new d dep par)))
      as Hroot3.
    { unfold σ3. by rewrite list_lookup_alter_eq, Hroot. }
    assert (∀ b, b ∈ flat_map addrs ts → σ3 !! b = σ2 !! b) as Hsame.
    { intros b Hb. apply Hrange in Hb. unfold σ3. rewrite list_lookup_alter_ne; [done|lia]. }
    assert (∀ k, k ∈ ts → ∀ b, b ∈ addrs k → σ3 !! b = σ2 !! b) as Hsame'.
    { intros k Hk b Hb. apply Hsame, elem_of_flat_map. eauto. }
    assert (length σ3 = length σ2) as Hl3 by apply length_alter.
    assert (∀ b, b < length σ → σ3 !! b = σ !! b) as Hpre3.
    { intros b Hb. unfold σ3. rewrite list_lookup_alter_ne by lia.
      rewrite Hpre by lia. by apply lookup_app_l. }
    assert (∀ b n, length σ ≤ b → σ3 !! b = Some n →
              Node.id n = None ∧ Node._children n = None) as Hid3.
    { intros b n Hge Hn. destruct (decide (b = length σ)) as [->|Hne].
      - rewrite Hroot3 in Hn. by simplify_eq.
      - unfold σ3 in Hn. rewrite list_lookup_alter_ne in Hn by done.
        eapply Hid; [|done]. lia. }
    clearbody σ3.
    exists (TNode (length σ) ts). simpl. split; [done|].
    unfold built. split_and!; try done.
    + eapply Repr_node; [apply Hroot3|done|done|done| |].
      * etransitivity; [|exact Hdata]. apply map_ext_elem. intros k Hk.
        rewrite Hsame; [done|]. apply elem_of_flat_map. exists k.
        split; [done | apply taddr_in_addrs].
      * rewrite Forall_forall in Hrepr. apply Forall_forall. intros k Hk.
        eapply Repr_lookup_on; [by apply Hsame'|]. by apply Hrepr.
    + apply NoDup_cons. split; [|done]. intros Hin%Hrange. lia.
    + intros b. simpl. rewrite elem_of_cons, Hrange, Hl3. lia.
    + by rewrite Hroot3.
    + simpl. unfold hasOwn_children. rewrite Hroot3. simpl. f_equal. rewrite <-Hord.
      apply flat_map_ext_in, Forall_forall. intros k Hk.
      apply preorder_agree_on. by apply Hsame'.
Qed.

(** ** The steps of [update] on the heap *)

Lemma set_id_shape v n : shape (Node.set_id v n) = shape n.
Proof. by destruct n. Qed.

Lemma key_shape d st : agree shape (st_heap st) (st_heap (key d st).2).
Proof.
  unfold key. destruct (get Node.id (st_heap st) d) as [k|].
  - destruct (k =? 0)%Z; simpl; [apply agree_alter, set_id_shape | apply agree_refl].
  - simpl. apply agree_alter, set_id_shape.
Qed.

Lemma group_keys_shape group : ∀ st,
  agree shape (st_heap st) (st_heap (group_keys group st).2).
Proof.
  induction group as [|e group IH]; intros st; simpl; [apply agree_refl|].
  pose proof (key_shape (datum e) st) as Hk.
  destruct (key (datum e) st) as [k st1]. simpl in Hk.
  pose proof (IH st1) as Hg. destruct (group_keys group st1) as [ks st2].
  simpl in *. by eapply agree_trans.
Qed.

Lemma bind_data_shape data : ∀ m st,
  agree shape (st_heap st) (st_heap (bind_data data m st).2).
Proof.
  induction data as [|d data IH]; intros m st; simpl; [apply agree_refl|].
  pose proof (key_shape d st) as Hk.
  destruct (key d st) as [k st1]. simpl in Hk.
  destruct (assoc_key k m) as [i|].
  - pose proof (IH (consume_key k m) st1) as Hg.
    destruct (bind_data data (consume_key k m) st1) as [r st2].
    simpl in *. by eapply agree_trans.
  - pose proof (IH m st1) as Hg. destruct (bind_data data m st1) as [r st2].
    simpl in *. by eapply agree_trans.
Qed.

Lemma alter_id_lookup {A} (f : A → A) (l : list A) i :
  (∀ x, l !! i = Some x → f x = x) → alter f i l = l.
Proof.
  intros H. apply list_eq. intros j. destruct (decide (i = j)) as [->|Hne].
  - rewrite list_lookup_alter_eq. destruct (l !! j) as [x|] eqn:Hx; [|done].
    simpl. by rewrite H.
  - by rewrite list_lookup_alter_ne.
Qed.

Lemma entering_filter_eq d σ :
  entering_filter d σ =
    (has_slot (alter normalize_node d σ) d, alter normalize_node d σ).
Proof.
  unfold entering_filter.
  assert (match get (λ n, Some (Node.data n)) σ d with
          | Some (mkData _ (Some [])) =>
              if negb (hasOwn_children σ d) && negb (hasOwn__children σ d)
              then alter (Node.set_children (Some CNull)) d σ
              else σ
          | _ => σ
          end = alter normalize_node d σ) as ->; [|done].
  unfold get, hasOwn_children, hasOwn__children.
  destruct (σ !! d) as [n|] eqn:Hn; simpl.
  - destruct (Node.data n) as [f [[|c cs]|]] eqn:Hd.
    + destruct (negb (Node.hasOwn_children n) && negb (Node.hasOwn__children n)) eqn:Hb.
      * apply list_alter_ext; [|done]. intros x Hx. rewrite Hn in Hx.
        injection Hx as <-. unfold normalize_node. by rewrite Hd, Hb.
      * symmetry. apply alter_id_lookup. intros x Hx. rewrite Hn in Hx.
        injection Hx as <-. unfold normalize_node. by rewrite Hd, Hb.
    + symmetry. apply alter_id_lookup. intros x Hx. rewrite Hn in Hx.
      injection Hx as <-. unfold normalize_node. by rewrite Hd.
    + symmetry. apply alter_id_lookup. intros x Hx. rewrite Hn in Hx.
      injection Hx as <-. unfold normalize_node. by rewrite Hd.
  - symmetry. apply alter_id_lookup. intros x Hx. by rewrite Hn in Hx.
Qed.

Lemma normalize_node_skeleton n : skeleton (normalize_node n) = skeleton n.
Proof.
  unfold normalize_node. destruct n as [[f [[|c cs]|]] dep par ch uch]; simpl; try done.
  by destruct ch, uch.
Qed.

Lemma filter_entering_skeleton ds : ∀ σ,
  agree skeleton σ (filter_entering ds σ).2.
Proof.
  induction ds as [|d ds IH]; intros σ; [apply agree_refl|].
  cbn [filter_entering]. rewrite entering_filter_eq.
  pose proof (IH (alter normalize_node d σ)) as H.
  destruct (filter_entering ds (alter normalize_node d σ)) as [bs σ2]. simpl in *.
  eapply agree_trans; [|done]. apply agree_alter, normalize_node_skeleton.
Qed.

Lemma stash_node_shape n : shape (stash_node n) = shape n.
Proof. by destruct n. Qed.

Lemma stash_callback_shape d σ : agree shape σ (stash_callback d σ).
Proof. apply agree_alter, stash_node_shape. Qed.

(** ** The three breadth-first traversals of [update] *)

Section Traversals.
Context (σ : Store) (T : Tree).
Hypothesis HT : Repr σ None 0 T.
Hypothesis Hnd : NoDup (addrs T).

Lemma descendants_spec :
  descendants (taddr T) σ = Some (breadth_first (length σ) σ [T]).
Proof using HT Hnd.
  unfold descendants, each.
  pose proof (each_loop_spec (A := Store * list addr) fst
                (λ node s, (s.1, s.2 ++ [node]))
                (λ n s, agree_refl shape s.1) (length σ) [T] (σ, [])) as H.
  simpl in H. simpl. rewrite H.
  - f_equal.
    assert (∀ l acc, (foldl (λ (s : Store * list nat) n, (s.1, s.2 ++ [n]))
                        (σ, acc) l).2 = acc ++ l) as Hf.
    { induction l as [|x l IH]; intros acc; simpl; [by rewrite app_nil_r|].
      rewrite IH. by rewrite <-app_assoc. }
    apply Hf.
  - constructor; [by exists None, 0 | constructor].
  - by apply preorder_fuel.
Qed.

Lemma links_total : is_Some (links (taddr T) σ).
Proof using HT Hnd.
  unfold links, each.
  assert (∀ n (s : Store * list Link),
            agree shape s.1
              (if bool_decide (n ≠ taddr T)
               then (s.1, s.2 ++ [mkLink (get Node.parent s.1 n) n])
               else s).1) as Hsh.
  { intros n s. destruct (bool_decide _); apply agree_refl. }
  pose proof (each_loop_spec (A := Store * list Link) fst _ Hsh
                (length σ) [T] (σ, [])) as H.
  simpl in H. simpl. rewrite H.
  - by eexists.
  - constructor; [by exists None, 0 | constructor].
  - by apply preorder_fuel.
Qed.

Lemma stash_spec :
  each (λ σ : Store, σ) (taddr T) stash_callback σ =
    Some (foldl (λ s n, stash_callback n s) σ (breadth_first (length σ) σ [T]),
          breadth_first (length σ) σ [T]).
Proof using HT Hnd.
  unfold each.
  apply (each_loop_spec (A := Store) (λ σ, σ) stash_callback
           (λ n s, stash_callback_shape n s) (length σ) [T] σ).
  - constructor; [by exists None, 0 | constructor].
  - by apply preorder_fuel.
Qed.
End Traversals.

(** ** The key function and the node join *)

Lemma get_alter_ne {A} (f : Node.t → option A) g a b (σ : Store) :
  a ≠ b → get f (alter g a σ) b = get f σ b.
Proof. intros H. unfold get. by rewrite list_lookup_alter_ne. Qed.

Lemma get_id_alter_eq k a (σ : Store) :
  is_Some (σ !! a) → get Node.id (alter (Node.set_id (Some k)) a σ) a = Some k.
Proof. intros [n Hn]. unfold get. by rewrite list_lookup_alter_eq, Hn. Qed.

Lemma get_Some_lookup {A} (f : Node.t → option A) (σ : Store) a v :
  get f σ a = Some v → ∃ n, σ !! a = Some n ∧ f n = Some v.
Proof. unfold get. destruct (σ !! a) as [n|]; [|done]. simpl. eauto. Qed.

(** [key] on a node that has an identity only reads it. *)
Lemma key_has_id d st k :
  get Node.id (st_heap st) d = Some k → k ≠ 0%Z → key d st = (k, st).
Proof.
  intros Hk Hne. unfold key. rewrite Hk.
  by destruct (Z.eqb_spec k 0).
Qed.

(** [key] on a node without one takes the next value of the counter. *)
Lemma key_no_id d st :
  get Node.id (st_heap st) d = None →
  key d st =
    ((st_id st + 1)%Z,
     mkState (alter (Node.set_id (Some (st_id st + 1)%Z)) d (st_heap st))
       (st_id st + 1) (st_root st) (st_nodes st) (st_links st) (st_height st)).
Proof. intros Hk. unfold key. by rewrite Hk. Qed.

Lemma ids_inv_fresh d st :
  ids_inv st → get Node.id (st_heap st) d = None →
  ids_inv (mkState (alter (Node.set_id (Some (st_id st + 1)%Z)) d (st_heap st))
             (st_id st + 1) (st_root st) (st_nodes st) (st_links st) (st_height st)).
Proof.
  intros (Hpos & Hle & Hinj) Hnone. unfold ids_inv. simpl. split_and!.
  - lia.
  - intros a k Ha. destruct (decide (d = a)) as [->|Hne].
    + apply get_Some_lookup in Ha as (n & Hn & Hid).
      rewrite list_lookup_alter_eq in Hn.
      destruct (st_heap st !! a) as [m|]; [|done]. simpl in Hn. simplify_eq.
      simpl in Hid. simplify_eq. lia.
    + rewrite get_alter_ne in Ha by done. apply Hle in Ha. lia.
  - intros a b k Ha Hb.
    assert (∀ c, c ≠ d → get Node.id
              (alter (Node.set_id (Some (st_id st + 1)%Z)) d (st_heap st)) c = Some k →
              (k ≤ st_id st)%Z) as Hold.
    { intros c Hc H. rewrite get_alter_ne in H by done. apply Hle in H. lia. }
    assert (∀ c, get Node.id
              (alter (Node.set_id (Some (st_id st + 1)%Z)) d (st_heap st)) d = Some c →
              c = (st_id st + 1)%Z) as Hnew.
    { intros c H. apply get_Some_lookup in H as (n & Hn & Hid).
      rewrite list_lookup_alter_eq in Hn.
      destruct (st_heap st !! d) as [m|]; [|done]. simpl in Hn. simplify_eq.
      simpl in Hid. by simplify_eq. }
    destruct (decide (a = d)) as [->|Hna], (decide (b = d)) as [->|Hnb]; try done.
    + apply Hnew in Ha. apply Hold in Hb; [lia|done].
    + apply Hnew in Hb. apply Hold in Ha; [lia|done].
    + rewrite get_alter_ne in Ha, Hb by done. by eapply Hinj.
Qed.

(** Under [ids_inv], [key] returns the identity of the node, old or new. *)
Lemma key_spec d st :
  ids_inv st →
  ids_inv (key d st).2 ∧
  st_root (key d st).2 = st_root st ∧
  st_nodes (key d st).2 = st_nodes st ∧
  st_links (key d st).2 = st_links st ∧
  (st_id st ≤ st_id (key d st).2)%Z ∧
  ((get Node.id (st_heap st) d = Some (key d st).1 ∧ (key d st).2 = st) ∨
   (get Node.id (st_heap st) d = None ∧ (key d st).1 = (st_id st + 1)%Z ∧
    st_id (key d st).2 = (st_id st + 1)%Z ∧
    st_heap (key d st).2 =
      alter (Node.set_id (Some (st_id st + 1)%Z)) d (st_heap st))).
Proof.
  intros Hinv. destruct (get Node.id (st_heap st) d) as [k|] eqn:Hk.
  - assert (k ≠ 0%Z) as Hne.
    { destruct Hinv as (_ & Hle & _). apply Hle in Hk. lia. }
    rewrite (key_has_id _ _ _ Hk Hne). simpl. split_and!; try done. by left.
  - rewrite (key_no_id _ _ Hk). simpl. split_and!; try done.
    + by apply ids_inv_fresh.
    + lia.
    + by right.
Qed.

Lemma heap_rel_refl R σ : (∀ n, R n n) → heap_rel R σ σ.
Proof. intros H a. destruct (σ !! a); by constructor. Qed.

Lemma heap_rel_trans R σ1 σ2 σ3 :
  (∀ n1 n2 n3, R n1 n2 → R n2 n3 → R n1 n3) →
  heap_rel R σ1 σ2 → heap_rel R σ2 σ3 → heap_rel R σ1 σ3.
Proof.
  intros HR H1 H2 a. specialize (H1 a). specialize (H2 a).
  destruct H1 as [n1 n2 H1|]; inversion H2; subst; constructor. by eapply HR.
Qed.

Lemma heap_rel_alter (R : Node.t → Node.t → Prop) g a σ :
  (∀ n, R n n) → (∀ n, σ !! a = Some n → R n (g n)) → heap_rel R σ (alter g a σ).
Proof.
  intros Hrefl Hg b. destruct (decide (a = b)) as [->|Hne].
  - rewrite list_lookup_alter_eq. destruct (σ !! b) as [n|] eqn:Hn; constructor. auto.
  - rewrite list_lookup_alter_ne by done. destruct (σ !! b); constructor. auto.
Qed.

Lemma heap_rel_agree {B} R (f : Node.t → B) σ σ' :
  (∀ n n', R n n' → f n = f n') → heap_rel R σ σ' → agree f σ σ'.
Proof.
  intros HR H a. specialize (H a). destruct H as [n n' H|]; [|done]. cbn.
  by rewrite (HR _ _ H).
Qed.

Lemma heap_rel_lookup R σ σ' a n :
  heap_rel R σ σ' → σ !! a = Some n → ∃ n', σ' !! a = Some n' ∧ R n n'.
Proof.
  intros H Hn. specialize (H a). rewrite Hn in H. inversion H; subst. eauto.
Qed.

Lemma id_assigned_refl n : id_assigned n n.
Proof. by left. Qed.

Lemma id_assigned_trans n1 n2 n3 :
  id_assigned n1 n2 → id_assigned n2 n3 → id_assigned n1 n3.
Proof.
  intros [->|(H1 & k1 & ->)] [->|(H2 & k2 & ->)]; try (by left); by right; eauto.
Qed.

Lemma id_assigned_shape n n' : id_assigned n n' → shape n = shape n'.
Proof. intros [->|(_ & k & ->)]; [done | by destruct n]. Qed.

Lemma id_assigned_keeps n n' k :
  id_assigned n n' → Node.id n = Some k → Node.id n' = Some k.
Proof. intros [->|(H & _)]; congruence. Qed.

Lemma assoc_consume_ne k k' m :
  k' ≠ k → assoc_key k' (consume_key k m) = assoc_key k' m.
Proof.
  intros Hne. unfold consume_key. induction m as [|[k0 i] m IH]; [done|].
  rewrite filter_cons. simpl. case_decide as Hk.
  - simpl. by rewrite IH.
  - simpl in Hk. assert (k0 = k) as -> by (destruct (decide (k0 = k)); [done|contradiction]).
    rewrite IH. by destruct (Z.eqb_spec k' k).
Qed.

Lemma assoc_consume_None k k' m :
  assoc_key k' m = None → assoc_key k' (consume_key k m) = None.
Proof.
  unfold consume_key. induction m as [|[k0 i] m IH]; [done|].
  simpl. destruct (Z.eqb_spec k' k0) as [->|Hne]; [done|]. intros H.
  rewrite filter_cons. case_decide; simpl; [|by apply IH].
  destruct (Z.eqb_spec k' k0); [done | by apply IH].
Qed.

Section Join.
Context (σ : Store) (group : list NodeElem).
Hypothesis Hinj : ∀ a b k,
  get Node.id σ a = Some k → get Node.id σ b = Some k → a = b.
Hypothesis Hshown : ∀ e, e ∈ group → is_Some (get Node.id σ (datum e)).

Lemma node_by_key_find_aux g : ∀ i d k,
  (∀ e, e ∈ g → is_Some (get Node.id σ (datum e))) →
  get Node.id σ d = Some k →
  assoc_key k (node_by_key i
                 (map (λ e, default 0%Z (get Node.id σ (datum e))) g))
  = find_elem d i g.
Proof using Hinj.
  induction g as [|e g IH]; intros i d k Hg Hd; [done|]. simpl.
  destruct (Hg e) as [ke Hke]; [by left|]. rewrite Hke. simpl.
  destruct (Z.eqb_spec k ke) as [->|Hne].
  - rewrite decide_True; [done|]. by eapply Hinj.
  - rewrite decide_False.
    + apply IH; [|done]. intros e' He'. apply Hg. by right.
    + intros Heq. rewrite Heq in Hke. congruence.
Qed.

Lemma node_by_key_find d k :
  get Node.id σ d = Some k →
  assoc_key k (node_by_key 0
                 (map (λ e, default 0%Z (get Node.id σ (datum e))) group))
  = find_elem d 0 group.
Proof using Hinj Hshown. by apply node_by_key_find_aux. Qed.

Lemma find_elem_no_id g : ∀ i d,
  (∀ e, e ∈ g → is_Some (get Node.id σ (datum e))) →
  get Node.id σ d = None → find_elem d i g = None.
Proof.
  induction g as [|e g IH]; intros i d Hg Hd; [done|]. simpl.
  rewrite decide_False.
  - apply IH; [|done]. intros e' He'. apply Hg. by right.
  - intros Heq. destruct (Hg e) as [ke Hke]; [by left|]. congruence.
Qed.
End Join.

Lemma node_by_key_bound keys bound k : ∀ i,
  Forall (λ k', (k' ≤ bound)%Z) keys → (bound < k)%Z →
  assoc_key k (node_by_key i keys) = None.
Proof.
  induction keys as [|k0 keys IH]; intros i Hall Hk; [done|]. simpl.
  apply Forall_cons in Hall as [H0 Hall].
  destruct (Z.eqb_spec k k0); [lia | by apply IH].
Qed.

Lemma group_keys_pure group : ∀ st,
  ids_inv st →
  (∀ e, e ∈ group → is_Some (get Node.id (st_heap st) (datum e))) →
  group_keys group st
  = (map (λ e, default 0%Z (get Node.id (st_heap st) (datum e))) group, st).
Proof.
  induction group as [|e group IH]; intros st Hinv Hg; [done|].
  cbn [group_keys]. destruct (Hg e) as [k Hk]; [by left|].
  rewrite (key_has_id _ _ _ Hk).
  - rewrite IH; [|done|]. { simpl. by rewrite Hk. }
    intros e' He'. apply Hg. by right.
  - destruct Hinv as (_ & Hle & _). apply Hle in Hk. lia.
Qed.

(** The keyed join: a datum joins the element that shows the same node,
    and a node gets an identity when it is first seen. *)
Lemma bind_data_join group data : ∀ m st,
  ids_inv st →
  (∀ e, e ∈ group → is_Some (get Node.id (st_heap st) (datum e))) →
  NoDup data →
  (∀ d k, d ∈ data → get Node.id (st_heap st) d = Some k →
          assoc_key k m = find_elem d 0 group) →
  (∀ k, (st_id st < k)%Z → assoc_key k m = None) →
  ∃ st',
    bind_data data m st = (map (λ d, (d, find_elem d 0 group)) data, st') ∧
    ids_inv st' ∧
    st_root st' = st_root st ∧ st_nodes st' = st_nodes st ∧
    st_links st' = st_links st ∧ st_height st' = st_height st ∧
    heap_rel id_assigned (st_heap st) (st_heap st') ∧
    (∀ d, d ∈ data → is_Some (st_heap st !! d) →
          is_Some (get Node.id (st_heap st') d)) ∧
    (∀ a, a ∉ data → st_heap st' !! a = st_heap st !! a).
Proof.
  induction data as [|d data IH]; intros m st Hinv Hshown Hnd Hm Hfresh.
  - exists st. split_and!; try done.
    + apply heap_rel_refl, id_assigned_refl.
    + by intros d ?%elem_of_nil.
  - apply NoDup_cons in Hnd as [Hd Hnd]. cbn [bind_data].
    destruct (get Node.id (st_heap st) d) as [k|] eqn:Hk.
    + assert (k ≠ 0%Z) as Hk0.
      { destruct Hinv as (_ & Hle & _). apply Hle in Hk. lia. }
      rewrite (key_has_id _ _ _ Hk Hk0).
      rewrite (Hm d k) by (done || by left).
      assert (∀ m', (∀ k', k' ≠ k → assoc_key k' m' = assoc_key k' m) →
                    (∀ k', assoc_key k' m = None → assoc_key k' m' = None) →
              ∃ st', bind_data data m' st
                     = (map (λ d, (d, find_elem d 0 group)) data, st') ∧
                ids_inv st' ∧
                st_root st' = st_root st ∧ st_nodes st' = st_nodes st ∧
                st_links st' = st_links st ∧ st_height st' = st_height st ∧
                heap_rel id_assigned (st_heap st) (st_heap st') ∧
                (∀ d, d ∈ data → is_Some (st_heap st !! d) →
                      is_Some (get Node.id (st_heap st') d)) ∧
                (∀ a, a ∉ data → st_heap st' !! a = st_heap st !! a)) as Hrec.
      { intros m' Hm1 Hm2. apply IH; try done.
        - intros d' k' Hd' Hk'. rewrite Hm1.
          + apply Hm; [by right | done].
          + intros ->. destruct Hinv as (_ & _ & Hinj).
            apply Hd. by rewrite (Hinj d d' k Hk Hk').
        - intros k' Hk'. by apply Hm2, Hfresh. }
      destruct (find_elem d 0 group) as [j|] eqn:Hj.
      * destruct (Hrec (consume_key k m)) as (st' & Hb & ? & ? & ? & ? & ? & Hrel & Hid & Hout).
        { intros k' ?. by apply assoc_consume_ne. }
        { intros k' ?. by apply assoc_consume_None. }
        exists st'. rewrite Hb. split_and!; try done.
        -- simpl. by rewrite Hj.
        -- intros d' [->|Hd']%elem_of_cons Hin; [|by apply Hid].
           apply get_Some_lookup in Hk as (n & Hn & Hidn).
           destruct (heap_rel_lookup _ _ _ _ _ Hrel Hn) as (n' & Hn' & Hr).
           exists k. unfold get. rewrite Hn'. simpl. by eapply id_assigned_keeps.
        -- intros a Ha. apply not_elem_of_cons in Ha as [_ Ha]. by apply Hout.
      * destruct (Hrec m) as (st' & Hb & ? & ? & ? & ? & ? & Hrel & Hid & Hout); try done.
        exists st'. rewrite Hb. split_and!; try done.
        -- simpl. by rewrite Hj.
        -- intros d' [->|Hd']%elem_of_cons Hin; [|by apply Hid].
           apply get_Some_lookup in Hk as (n & Hn & Hidn).
           destruct (heap_rel_lookup _ _ _ _ _ Hrel Hn) as (n' & Hn' & Hr).
           exists k. unfold get. rewrite Hn'. simpl. by eapply id_assigned_keeps.
        -- intros a Ha. apply not_elem_of_cons in Ha as [_ Ha]. by apply Hout.
    + rewrite (key_no_id _ _ Hk).
      rewrite (Hfresh (st_id st + 1)%Z) by lia.
      pose proof (find_elem_no_id (st_heap st) group 0 d Hshown Hk) as Hj.
      set (st1 := mkState _ _ _ _ _ _).
      destruct (IH m st1) as (st' & Hb & ? & ? & ? & ? & ? & Hrel & Hid & Hout); try done.
      * by apply ids_inv_fresh.
      * intros e He. simpl. rewrite get_alter_ne; [by apply Hshown|].
        intros ->. destruct (Hshown e He) as [? ?]. congruence.
      * intros d' k' Hd' Hk'. simpl in Hk'. rewrite get_alter_ne in Hk'.
        -- apply Hm; [by right | done].
        -- intros ->. done.
      * intros k' Hk'. simpl in Hk'. apply Hfresh. lia.
      * exists st'. rewrite Hb. split_and!; try done.
        -- simpl. by rewrite Hj.
        -- eapply heap_rel_trans; [apply id_assigned_trans| |apply Hrel].
           simpl. apply heap_rel_alter; [apply id_assigned_refl|].
           intros n Hn. right. split; [|by eexists].
           unfold get in Hk. rewrite Hn in Hk. done.
        -- intros d' [->|Hd']%elem_of_cons Hin.
           ++ destruct Hin as [n Hn].
              assert (st_heap st1 !! d
                      = Some (Node.set_id (Some (st_id st + 1)%Z) n)) as Hn1.
              { simpl. by rewrite list_lookup_alter_eq, Hn. }
              destruct (heap_rel_lookup _ _ _ _ _ Hrel Hn1) as (n' & Hn' & Hr).
              exists (st_id st + 1)%Z. unfold get. rewrite Hn'. simpl.
              by eapply id_assigned_keeps.
           ++ apply Hid; [done|]. simpl. destruct Hin as [n Hn].
              apply lookup_lt_is_Some. rewrite length_alter.
              apply lookup_lt_is_Some. by eexists.
        -- intros a Ha. apply not_elem_of_cons in Ha as [Hne Ha].
           rewrite Hout by done. simpl. by rewrite list_lookup_alter_ne.
Qed.

(** ** Reading through heaps that agree *)

Lemma agree_get {A} (f : Node.t → option A) σ σ' a :
  agree f σ σ' → get f σ' a = get f σ a.
Proof.
  intros H. specialize (H a). unfold get.
  destruct (σ !! a), (σ' !! a); simpl in *; congruence.
Qed.

Lemma agree_is_Some {B} (f : Node.t → B) σ σ' a :
  agree f σ σ' → is_Some (σ !! a) → is_Some (σ' !! a).
Proof.
  intros H [n Hn]. destruct (agree_lookup _ _ _ _ _ H Hn) as (n' & ? & _). by eexists.
Qed.

Lemma ids_inv_heap st σ' :
  agree Node.id (st_heap st) σ' → ids_inv st → ids_inv (with_heap σ' st).
Proof.
  intros H (Hpos & Hle & Hinj). unfold ids_inv. simpl. split_and!; [done|..].
  - intros a k. rewrite (agree_get _ _ _ _ H). apply Hle.
  - intros a b k. rewrite !(agree_get _ _ _ _ H). apply Hinj.
Qed.

Lemma foldl_alter_lookup (h : Node.t → Node.t) l : ∀ (σ : Store) a,
  NoDup l →
  foldl (λ s d, alter h d s) σ l !! a
  = (if decide (a ∈ l) then h else λ n, n) <$> σ !! a.
Proof.
  induction l as [|d l IH]; intros σ a Hnd.
  - destruct (decide (a ∈ [])) as [Hin|_]; [by apply elem_of_nil in Hin|].
    simpl. by destruct (σ !! a).
  - apply NoDup_cons in Hnd as [Hd Hnd]. cbn [foldl]. rewrite IH by done.
    destruct (decide (a = d)) as [->|Hne].
    + rewrite list_lookup_alter_eq.
      destruct (decide (d ∈ l)) as [|_]; [done|].
      destruct (decide (d ∈ d :: l)) as [_|Hout]; [|exfalso; apply Hout; by left].
      by destruct (σ !! d).
    + rewrite list_lookup_alter_ne by done.
      destruct (decide (a ∈ l)) as [Hin|Hout], (decide (a ∈ d :: l)) as [Hin'|Hout'];
        try done.
      * exfalso. apply Hout'. by right.
      * by apply elem_of_cons in Hin' as [?|?].
Qed.

Lemma foldl_alter_length (h : Node.t → Node.t) l : ∀ (σ : Store),
  length (foldl (λ s d, alter h d s) σ l) = length σ.
Proof.
  induction l as [|d l IH]; intros σ; simpl; [done|]. by rewrite IH, length_alter.
Qed.

(** ** The filter of entering nodes *)

Lemma filter_entering_spec ds : ∀ σ,
  length (filter_entering ds σ).1 = length ds ∧
  (filter_entering ds σ).2 = foldl (λ s d, alter normalize_node d s) σ ds.
Proof.
  induction ds as [|d ds IH]; intros σ; [done|].
  cbn [filter_entering]. rewrite entering_filter_eq.
  destruct (IH (alter normalize_node d σ)) as [Hl Hs].
  destruct (filter_entering ds (alter normalize_node d σ)) as [bs σ2].
  simpl in *. by rewrite Hl, Hs.
Qed.

Lemma normalize_node_from n : normalized_from n (normalize_node n).
Proof.
  unfold normalize_node, normalized_from.
  destruct (data_children (Node.data n)) as [[|c cs]|] eqn:Hd; try by left.
  unfold Node.hasOwn_children, Node.hasOwn__children.
  destruct (Node.children n) eqn:Hc, (Node._children n) eqn:Hu; simpl; try by left.
  by right.
Qed.

Lemma normalized_from_refl n : normalized_from n n.
Proof. by left. Qed.

Lemma normalized_from_trans n1 n2 n3 :
  normalized_from n1 n2 → normalized_from n2 n3 → normalized_from n1 n3.
Proof.
  intros [->|(H1 & H2 & H3 & ->)] [->|(H4 & H5 & H6 & ->)];
    try (by left); by right.
Qed.

Lemma normalized_from_skeleton n n' : normalized_from n n' → skeleton n = skeleton n'.
Proof.
  intros [->|(H1 & H2 & H3 & ->)]; [done|]. destruct n. simpl in *. by subst.
Qed.

Lemma normalized_from_hasOwn n n' :
  normalized_from n n' →
  Node.hasOwn_children n' = Node.hasOwn_children n ∨ slot_items n = [].
Proof.
  intros [->|(H1 & H2 & H3 & ->)]; [by left|]. right.
  unfold slot_items. by rewrite H1, H2.
Qed.

Lemma foldl_normalize_rel l : ∀ σ,
  heap_rel normalized_from σ (foldl (λ s d, alter normalize_node d s) σ l).
Proof.
  induction l as [|d l IH]; intros σ; simpl.
  - apply heap_rel_refl, normalized_from_refl.
  - eapply heap_rel_trans; [apply normalized_from_trans| |apply IH].
    apply heap_rel_alter; [apply normalized_from_refl|].
    intros n _. apply normalize_node_from.
Qed.

(** A node that the filter gave an empty [children] has no children in
    the tree, so the traversals visit the same nodes as before. *)
Lemma preorder_normalized σ σ' t : ∀ par dep,
  heap_rel normalized_from σ σ' → Repr σ par dep t →
  preorder σ' t = preorder σ t.
Proof.
  induction t as [a kids IH] using Tree_ind. intros par dep Hrel Hr.
  apply Repr_inv in Hr as (n & Ha & _ & _ & Hs & _ & Hk).
  destruct (heap_rel_lookup _ _ _ _ _ Hrel Ha) as (n' & Ha' & Hn).
  simpl. unfold hasOwn_children. rewrite Ha, Ha'. f_equal.
  assert (flat_map (preorder σ') kids = flat_map (preorder σ) kids) as Hkids.
  { apply flat_map_ext_in. rewrite Forall_forall in IH, Hk. apply Forall_forall.
    intros k Hin. exact (IH k Hin _ _ Hrel (Hk k Hin)). }
  destruct (normalized_from_hasOwn _ _ Hn) as [->|Hnil].
  - by rewrite Hkids.
  - rewrite Hnil in Hs. symmetry in Hs. apply map_eq_nil in Hs. subst kids.
    simpl. by do 2 destruct (Node.hasOwn_children _).
Qed.

(** ** Which element shows a node *)

Lemma find_elem_None d g : ∀ i,
  find_elem d i g = None ↔ ∀ e, e ∈ g → datum e ≠ d.
Proof.
  induction g as [|e g IH]; intros i; simpl.
  - split; [by intros _ e ?%elem_of_nil | done].
  - destruct (decide (datum e = d)) as [Heq|Hne].
    + split; [done|]. intros H. exfalso. apply (H e); [by left | done].
    + rewrite IH. split.
      * intros H e' [->|He']%elem_of_cons; auto.
      * intros H e' He'. apply H. by right.
Qed.

Lemma find_elem_Some d g : ∀ i j,
  find_elem d i g = Some j → ∃ e, g !! (j - i) = Some e ∧ datum e = d ∧ i ≤ j.
Proof.
  induction g as [|e g IH]; intros i j; simpl; [done|].
  destruct (decide (datum e = d)) as [Heq|Hne].
  - intros [= <-]. exists e. by rewrite Nat.sub_diag.
  - intros H. destruct (IH _ _ H) as (e' & He' & Hd & Hle).
    exists e'. split_and!; [|done|lia].
    replace (j - i) with (S (j - S i)) by lia. done.
Qed.

Lemma find_elem_index d g : ∀ i j e,
  NoDup (datum <$> g) → g !! j = Some e → datum e = d →
  find_elem d i g = Some (i + j).
Proof.
  induction g as [|e0 g IH]; intros i j e Hnd Hj Hd; [done|]. simpl.
  rewrite fmap_cons in Hnd. apply NoDup_cons in Hnd as [Hout Hnd].
  destruct j as [|j]; simpl in Hj.
  - simplify_eq. rewrite decide_True by done. f_equal. lia.
  - rewrite decide_False.
    + rewrite (IH (S i) j e) by done. f_equal. lia.
    + intros Heq. apply Hout. rewrite Heq, <-Hd.
      apply list_elem_of_fmap_2. by eapply list_elem_of_lookup_2.
Qed.

Lemma entering_data_map (g : addr → option nat) data :
  entering_data (map (λ d, (d, g d)) data)
  = filter (λ d, g d = None) data.
Proof.
  induction data as [|d data IH]; [done|]. simpl. rewrite filter_cons.
  destruct (decide (g d = None)) as [Hg|Hg].
  - rewrite Hg. by rewrite IH.
  - destruct (g d); [done | by exfalso].
Qed.

Lemma joined_datum_map group data j e :
  NoDup (datum <$> group) → group !! j = Some e →
  joined_datum j (map (λ d, (d, find_elem d 0 group)) data)
  = if decide (datum e ∈ data) then Some (datum e) else None.
Proof.
  intros Hnd Hj. induction data as [|d data IH]; simpl.
  - destruct (decide (datum e ∈ [])) as [Hin|_]; [by apply elem_of_nil in Hin | done].
  - destruct (find_elem d 0 group) as [j'|] eqn:Hf.
    + destruct (Nat.eqb_spec j j') as [<-|Hne].
      * apply find_elem_Some in Hf as (e' & He' & Hd & _).
        rewrite Nat.sub_0_r in He'. assert (e' = e) as -> by congruence.
        rewrite decide_True; [by rewrite Hd | rewrite Hd; by left].
      * rewrite IH. destruct (decide (datum e ∈ data)) as [Hin|Hout].
        -- rewrite decide_True; [done | by right].
        -- rewrite decide_False; [done|]. intros [Heq|?]%elem_of_cons; [|done].
           rewrite (find_elem_index d group 0 j e) in Hf by done.
           simpl in Hf. congruence.
    + rewrite IH. destruct (decide (datum e ∈ data)) as [Hin|Hout].
      * rewrite decide_True; [done | by right].
      * rewrite decide_False; [done|]. intros [Heq|?]%elem_of_cons; [|done].
        rewrite (find_elem_index d group 0 j e) in Hf by done. done.
Qed.

(** ** One pass of [update] *)

Lemma ids_inv_ext st st' :
  st_id st' = st_id st → agree Node.id (st_heap st) (st_heap st') →
  ids_inv st → ids_inv st'.
Proof.
  intros Hid H (Hpos & Hle & Hinj). unfold ids_inv. rewrite Hid. split_and!; [done|..].
  - intros a k. rewrite (agree_get _ _ _ _ H). apply Hle.
  - intros a b k. rewrite !(agree_get _ _ _ _ H). apply Hinj.
Qed.

Lemma layout_agree {B} (f : Node.t → B) l σ r :
  (∀ r n, f (layout_node r n) = f n) → NoDup l →
  agree f σ (foldl (λ s n, layout_callback n s) (σ, r) l).1.
Proof.
  intros Hf Hnd a. destruct (layout_fold l σ r Hnd) as [Hout Hin].
  destruct (decide (a ∈ l)) as [Ha|Ha].
  - apply list_elem_of_lookup in Ha as [i Hi]. rewrite (Hin _ _ Hi).
    destruct (σ !! a); [|done]. cbn. by rewrite Hf.
  - by rewrite Hout.
Qed.

Lemma imap_map_lookup {A B} (f : nat → A → B) (g : A → B) (l : list A) :
  (∀ i x, l !! i = Some x → f i x = g x) → imap f l = map g l.
Proof.
  intros H. apply list_eq. intros i. rewrite list_lookup_imap, list_lookup_fmap.
  destruct (l !! i) as [x|] eqn:Hx; [|done]. simpl. by rewrite (H _ _ Hx).
Qed.

Lemma tree_inv_heap st σ' T :
  agree skeleton (st_heap st) σ' → tree_inv st T → tree_inv (with_heap σ' st) T.
Proof.
  intros H (Hroot & HT & Hnd & Hall). unfold tree_inv. simpl. split_and!; try done.
  - by eapply Repr_agree.
  - intros a Ha. apply Hall. by rewrite (agree_length _ _ _ H).
Qed.

Section Update.
Context (min_height : Z) (tooltip_key : JsValue).

Lemma update_spec S st T :
  tree_inv st T → ids_inv st → scene_inv st →
  ∃ σ1 σ3 σ4 clicks data_links st',
    let σ0 := st_heap st in
    let pre := preorder σ0 T in
    let entering :=
      filter (λ a, find_elem a 0 (st_nodes st) = None)
        (breadth_first (length σ0) σ0 [T]) in
    update min_height tooltip_key S st = Some st' ∧
    layout (taddr T) σ0 = Some (σ1, pre) ∧
    heap_rel id_assigned σ1 σ3 ∧
    (∀ a, a ∉ pre → σ3 !! a = σ1 !! a) ∧
    (∀ a, a ∈ pre → is_Some (get Node.id σ3 a)) ∧
    (∀ a, σ4 !! a
          = (if decide (a ∈ entering) then normalize_node else λ n, n) <$> σ3 !! a) ∧
    (∀ a, st_heap st' !! a
          = (if decide (a ∈ pre) then stash_node else λ n, n) <$> σ4 !! a) ∧
    st_root st' = st_root st ∧
    ids_inv st' ∧
    (length clicks = length entering ∧
     filter_entering entering σ3 = (clicks, σ4)) ∧
    st_nodes st'
    = map (λ e, moved_node σ4 S (bool_decide (datum e ∈ pre)) e) (st_nodes st)
      ++ zip_with (entering_node tooltip_key S σ3 σ4) entering clicks ∧
    links (taddr T) σ4 = Some data_links ∧
    st_links st' = join_links S σ4 (st_links st) data_links.
Proof.
  intros (Hroot & HT & Hnd & Hall) Hids (Hscene & Hshown).
  set (σ0 := st_heap st) in *.
  set (pre := preorder σ0 T).
  set (bf := breadth_first (length σ0) σ0 [T]).
  assert (bf ≡ₚ pre) as Hbf.
  { unfold bf. rewrite breadth_first_preorder by apply (preorder_fuel σ0 T HT Hnd).
    simpl. by rewrite app_nil_r. }
  assert (NoDup pre) as Hpre by by apply preorder_NoDup.
  assert (NoDup bf) as Hbfnd by by rewrite Hbf.
  (* the layout *)
  set (σ1 := (foldl (λ s n, layout_callback n s) (σ0, (-1)%Z) pre).1).
  assert (layout (taddr T) σ0 = Some (σ1, pre)) as Hlayout
    by apply (layout_spec σ0 T HT Hnd).
  assert (agree shape σ0 σ1) as Hsh01.
  { apply (foldl_callback_shape (A := Store * Z) fst layout_callback
             (λ n s, layout_callback_shape n s) pre (σ0, (-1)%Z)). }
  assert (agree Node.id σ0 σ1) as Hid01.
  { apply layout_agree; [|done]. intros r n. by destruct n. }
  (* the keys of the elements *)
  assert (ids_inv (with_heap σ1 st)) as Hids1 by by apply ids_inv_heap.
  assert (∀ e, e ∈ st_nodes st → is_Some (get Node.id σ1 (datum e))) as Hshown1.
  { intros e He. rewrite (agree_get _ _ _ _ Hid01). by apply Hshown. }
  pose proof (group_keys_pure (st_nodes st) (with_heap σ1 st) Hids1 Hshown1) as Hkeys.
  change (st_heap (with_heap σ1 st)) with σ1 in Hkeys.
  (* the join *)
  destruct (bind_data_join (st_nodes st) bf
              (node_by_key 0
                 (map (λ e, default 0%Z (get Node.id σ1 (datum e))) (st_nodes st)))
              (with_heap σ1 st) Hids1 Hshown1 Hbfnd)
    as (st3 & Hbind & Hids3 & Hroot3 & Hnodes3 & Hlinks3 & Hheight3 & Hrel13 & Hid3 & Hout3).
  { intros d k _ Hk. apply node_by_key_find; try done.
    destruct Hids1 as (_ & _ & Hinj). apply Hinj. }
  { intros k Hk. eapply node_by_key_bound; [|exact Hk].
    apply Forall_forall. intros k' (e & -> & He)%list_elem_of_fmap.
    destruct (Hshown1 e He) as [ke Hke]. simpl. rewrite Hke. simpl.
    destruct Hids1 as (_ & Hle & _). apply Hle in Hke. simpl in Hke. lia. }
  simpl in Hrel13, Hid3, Hout3.
  set (σ3 := st_heap st3) in *.
  assert (agree shape σ1 σ3) as Hsh13.
  { eapply heap_rel_agree; [|done]. apply id_assigned_shape. }
  (* the filter of entering nodes *)
  set (entering := filter (λ a, find_elem a 0 (st_nodes st) = None) bf).
  destruct (filter_entering_spec entering σ3) as [Hclicks Hσ4].
  destruct (filter_entering entering σ3) as [clicks σ4] eqn:Hfilter.
  simpl in Hclicks, Hσ4.
  assert (NoDup entering) as Hentnd by by apply NoDup_filter.
  assert (heap_rel normalized_from σ3 σ4) as Hrel34.
  { rewrite Hσ4. apply foldl_normalize_rel. }
  assert (agree skeleton σ3 σ4) as Hsk34.
  { eapply heap_rel_agree; [|done]. apply normalized_from_skeleton. }
  assert (agree skeleton σ0 σ4) as Hsk04.
  { eapply agree_trans; [|done]. apply agree_shape_skeleton.
    by eapply agree_trans. }
  assert (Repr σ3 None 0 T) as HT3.
  { eapply Repr_agree; [|done]. apply agree_shape_skeleton. by eapply agree_trans. }
  assert (Repr σ4 None 0 T) as HT4 by by eapply Repr_agree.
  assert (preorder σ4 T = pre) as Hpre4.
  { rewrite (preorder_normalized σ3 σ4 T None 0) by done.
    rewrite (preorder_agree σ1 σ3) by done. by rewrite (preorder_agree σ0 σ1). }
  (* the links and the stash *)
  destruct (links_total σ4 T HT4 Hnd) as [data_links Hdl].
  set (bf4 := breadth_first (length σ4) σ4 [T]).
  set (σ5 := foldl (λ s n, stash_callback n s) σ4 bf4).
  assert (each (λ σ : Store, σ) (taddr T) stash_callback σ4 = Some (σ5, bf4))
    as Hstash by apply (stash_spec σ4 T HT4 Hnd).
  assert (bf4 ≡ₚ pre) as Hbf4.
  { unfold bf4. rewrite breadth_first_preorder by apply (preorder_fuel σ4 T HT4 Hnd).
    simpl. by rewrite app_nil_r, Hpre4. }
  exists σ1, σ3, σ4, clicks, data_links.
  eexists. split_and!.
  - unfold update. rewrite Hroot.
    fold σ0. rewrite (descendants_spec σ0 T HT Hnd). fold bf.
    rewrite Hlayout. cbv beta iota. rewrite Hkeys. cbv beta iota.
    rewrite Hbind. cbv beta iota zeta. rewrite entering_data_map. fold entering.
    fold σ3. rewrite Hfilter. cbv beta iota. rewrite Hdl. cbv beta iota.
    rewrite Hstash. reflexivity.
  - done.
  - done.
  - intros a Ha. apply Hout3. by rewrite Hbf.
  - intros a Ha. apply Hid3; [by rewrite Hbf|]. simpl.
    eapply agree_is_Some; [exact Hsh01|].
    eapply Repr_lookup; [exact HT|]. by eapply preorder_addrs.
  - intros a. rewrite Hσ4. by apply foldl_alter_lookup.
  - intros a. simpl. unfold σ5.
    change (foldl (λ s n, stash_callback n s) σ4 bf4) with
      (foldl (λ s d, alter stash_node d s) σ4 bf4).
    rewrite foldl_alter_lookup by by rewrite Hbf4.
    fold pre. destruct (decide (a ∈ bf4)) as [H1|H1], (decide (a ∈ pre)) as [H2|H2];
      try done.
    + exfalso. apply H2. by rewrite <-Hbf4.
    + exfalso. apply H1. by rewrite Hbf4.
  - done.
  - apply (ids_inv_ext st3); [done| |done]. simpl. fold σ3.
    eapply agree_trans.
    + eapply heap_rel_agree; [|exact Hrel34].
      intros n n' [->|(_ & _ & _ & ->)]; [done | by destruct n].
    + intros a. unfold σ5.
      change (foldl (λ s n, stash_callback n s) σ4 bf4) with
        (foldl (λ s d, alter stash_node d s) σ4 bf4).
      rewrite foldl_alter_lookup by by rewrite Hbf4.
      destruct (σ4 !! a) as [n|]; [|done]. cbn.
      destruct (decide (a ∈ bf4)); [by destruct n | done].
  - done.
  - done.
  - simpl. f_equal.
    apply imap_map_lookup. intros i e He. unfold persisting_node, moved_node.
    rewrite (joined_datum_map (st_nodes st) bf i e Hscene He). fold pre.
    destruct (decide (datum e ∈ bf)) as [Hin|Hout].
    + rewrite bool_decide_eq_true_2; [done | by rewrite <-Hbf].
    + rewrite bool_decide_eq_false_2; [done | by rewrite <-Hbf].
  - done.
  - done.
Qed.
End Update.

(** ** What the layout pass writes *)

Lemma layout_result σ T σ1 trace :
  Repr σ None 0 T → NoDup (addrs T) →
  layout (taddr T) σ = Some (σ1, trace) →
  trace = preorder σ T ∧ NoDup trace ∧ length σ1 = length σ ∧
  (∀ a, a ∉ trace → σ1 !! a = σ !! a) ∧
  (∀ i a, trace !! i = Some a → σ1 !! a = layout_node (Z.of_nat i) <$> σ !! a).
Proof.
  intros HT Hnd Hl. rewrite (layout_spec σ T HT Hnd) in Hl.
  injection Hl as <- <-.
  pose proof (preorder_NoDup σ T Hnd) as Hpre.
  destruct (layout_fold (preorder σ T) σ (-1)%Z Hpre) as [Hout Hin].
  split_and!; try done.
  symmetry. eapply (agree_length shape).
  apply (foldl_callback_shape (A := Store * Z) fst layout_callback
           (λ n s, layout_callback_shape n s) (preorder σ T) (σ, (-1)%Z)).
Qed.

Lemma pointwise_agree {B} (f : Node.t → B) (h : Node.t → Node.t) (P : nat → Prop)
    `{∀ a, Decision (P a)} (σ σ' : Store) :
  (∀ a, σ' !! a = (if decide (P a) then h else λ n, n) <$> σ !! a) →
  (∀ n, f (h n) = f n) → agree f σ σ'.
Proof.
  intros Hp Hf a. rewrite Hp. destruct (σ !! a) as [n|]; [|done]. cbn.
  destruct (decide (P a)); [by rewrite Hf | done].
Qed.

Lemma normalize_node_shape_keep n :
  (data_children (Node.data n) = Some [] →
   Node.hasOwn_children n || Node.hasOwn__children n = true) →
  normalize_node n = n.
Proof.
  unfold normalize_node. destruct (data_children (Node.data n)) as [[|c cs]|]; try done.
  intros H. specialize (H eq_refl).
  by destruct (Node.hasOwn_children n), (Node.hasOwn__children n).
Qed.

Lemma normalize_node_normalized n :
  data_children (Node.data (normalize_node n)) = Some [] →
  Node.hasOwn_children (normalize_node n) || Node.hasOwn__children (normalize_node n)
  = true.
Proof.
  unfold normalize_node.
  destruct (data_children (Node.data n)) as [[|c cs]|] eqn:Hd; try congruence.
  destruct (Node.hasOwn_children n) eqn:Hc, (Node.hasOwn__children n) eqn:Hu; simpl;
    intros _; rewrite ?Hc, ?Hu; try done.
Qed.

Lemma has_slot_lookup σ a n :
  σ !! a = Some n →
  has_slot σ a = Node.hasOwn_children n || Node.hasOwn__children n.
Proof. intros H. unfold has_slot, hasOwn_children, hasOwn__children. by rewrite H. Qed.

Section Preserve.
Context (min_height : Z) (tooltip_key : JsValue).

(** A pass keeps the tree, the identities and the scene in order, and
    leaves every node it does not visit as it was. *)
Lemma update_inv S st T :
  tree_inv st T → ids_inv st → scene_inv st →
  ∃ st',
    update min_height tooltip_key S st = Some st' ∧
    tree_inv st' T ∧ ids_inv st' ∧ scene_inv st' ∧
    agree skeleton (st_heap st) (st_heap st') ∧
    agree Node.data (st_heap st) (st_heap st') ∧
    (∀ a, a ∉ preorder (st_heap st) T → st_heap st' !! a = st_heap st !! a) ∧
    (∀ a n', a ∈ preorder (st_heap st) T → st_heap st' !! a = Some n' →
       is_Some (Node.id n') ∧ Node.x0 n' = Node.x n' ∧ Node.y0 n' = Node.y n') ∧
    (∀ a n k, st_heap st !! a = Some n → Node.id n = Some k →
       get Node.id (st_heap st') a = Some k) ∧
    (∀ a n n', st_heap st !! a = Some n → st_heap st' !! a = Some n' →
       (data_children (Node.data n) = Some [] →
        Node.hasOwn_children n || Node.hasOwn__children n = true) →
       slots n' = slots n) ∧
    (∀ a n', (∀ e, e ∈ st_nodes st → datum e ≠ a) →
       a ∈ preorder (st_heap st) T → st_heap st' !! a = Some n' →
       data_children (Node.data n') = Some [] →
       Node.hasOwn_children n' || Node.hasOwn__children n' = true) ∧
    (∀ a n n', st_heap st !! a = Some n → st_heap st' !! a = Some n' →
       Node._children n' = Node._children n ∧
       (Node.children n' = Node.children n ∨
        (Node.children n = None ∧ Node._children n = None))).
Proof.
  intros Htree Hids Hscene.
  destruct (update_spec min_height tooltip_key S st T Htree Hids Hscene)
    as (σ1 & σ3 & σ4 & clicks & data_links & st' & Hup & Hlay & Hrel13 & Hout3 &
        Hid3 & Hσ4 & Hσ5 & Hroot' & Hids' & [Hclicks _] & Hnodes' & Hdl & Hlinks').
  destruct Htree as (Hroot & HT & Hnd & Hall).
  destruct Hscene as (Hscene & Hshown).
  set (σ0 := st_heap st) in *. set (pre := preorder σ0 T) in *.
  set (bf := breadth_first (length σ0) σ0 [T]) in *.
  set (entering := filter (λ a, find_elem a 0 (st_nodes st) = None) bf) in *.
  assert (bf ≡ₚ pre) as Hbf.
  { unfold bf. rewrite breadth_first_preorder by apply (preorder_fuel σ0 T HT Hnd).
    simpl. by rewrite app_nil_r. }
  destruct (layout_result σ0 T σ1 pre HT Hnd Hlay) as (_ & Hpre & Hlen1 & Hlout & Hlin).
  assert (∀ {B} (f : Node.t → B), (∀ r n, f (layout_node r n) = f n) → agree f σ0 σ1)
    as Hag01.
  { intros B f Hf a. destruct (decide (a ∈ pre)) as [Ha|Ha].
    - apply list_elem_of_lookup in Ha as [i Hi]. rewrite (Hlin _ _ Hi).
      destruct (σ0 !! a); [|done]. cbn. by rewrite Hf.
    - by rewrite Hlout. }
  assert (∀ {B} (f : Node.t → B), (∀ k n, f (Node.set_id k n) = f n) → agree f σ1 σ3)
    as Hag13.
  { intros B f Hf. eapply heap_rel_agree; [|exact Hrel13].
    intros n n' [->|(_ & k & ->)]; [done | by rewrite Hf]. }
  assert (∀ {B} (f : Node.t → B),
            (∀ v n, f (Node.set_children v n) = f n) → agree f σ3 σ4) as Hag34.
  { intros B f Hf a. rewrite Hσ4. destruct (σ3 !! a) as [n|]; [|done]. cbn.
    destruct (decide (a ∈ entering)); [|done]. f_equal. unfold normalize_node.
    destruct (data_children (Node.data n)) as [[|??]|]; try done.
    destruct (_ && _); [by rewrite Hf | done]. }
  assert (∀ {B} (f : Node.t → B), (∀ n, f (stash_node n) = f n) →
            agree f σ4 (st_heap st')) as Hag45.
  { intros B f Hf. by eapply (pointwise_agree f stash_node (λ a, a ∈ pre)). }
  assert (agree skeleton σ0 (st_heap st')) as Hsk.
  { eapply agree_trans; [apply Hag01; by intros ? []|].
    eapply agree_trans; [apply Hag13; by intros ? []|].
    eapply agree_trans; [|apply Hag45; by intros []].
    intros a. rewrite Hσ4. destruct (σ3 !! a) as [n|]; [|done]. cbn.
    destruct (decide (a ∈ entering)); [|done]. f_equal.
    symmetry. apply normalize_node_skeleton. }
  assert (agree Node.id σ3 (st_heap st')) as Hid35.
  { eapply agree_trans; [apply Hag34; by intros ? []|].
    apply Hag45. by intros []. }
  assert (∀ a, a ∈ entering ↔ a ∈ pre ∧ ∀ e, e ∈ st_nodes st → datum e ≠ a) as Hent.
  { intros a. unfold entering. rewrite list_elem_of_filter, find_elem_None, Hbf.
    tauto. }
  exists st'. split_and!.
  - done.
  - unfold tree_inv. split_and!; try done.
    + by rewrite Hroot'.
    + by eapply Repr_agree.
    + intros a Ha. apply Hall. by rewrite (agree_length _ _ _ Hsk).
  - done.
  - unfold scene_inv. rewrite Hnodes'. split.
    + rewrite fmap_app. apply NoDup_app. split_and!.
      * rewrite <-list_fmap_compose. by rewrite (list_fmap_ext _ datum (st_nodes st))
          by done.
      * intros d Hd1 Hd2. rewrite <-list_fmap_compose in Hd1.
        rewrite (list_fmap_ext _ datum (st_nodes st)) in Hd1 by done.
        apply list_elem_of_fmap in Hd1 as (e & -> & He).
        apply list_elem_of_fmap in Hd2 as (e' & Heq & He').
        apply list_elem_of_lookup in He' as [i Hi].
        apply lookup_zip_with_Some in Hi as (a & c & -> & Ha & Hc).
        simpl in Heq. apply list_elem_of_lookup_2 in Ha.
        apply Hent in Ha as [_ Ha]. by apply (Ha e).
      * assert (datum <$> zip_with (entering_node tooltip_key S σ3 σ4) entering clicks
                = entering) as ->; [|by apply NoDup_filter; rewrite Hbf].
        apply list_eq. intros i. rewrite list_lookup_fmap, lookup_zip_with.
        destruct (entering !! i) as [a|] eqn:Ha; [|done]. simpl.
        destruct (clicks !! i) as [c|] eqn:Hc; [done|].
        apply lookup_ge_None in Hc. apply lookup_lt_Some in Ha. lia.
    + intros e [He|He]%elem_of_app.
      * apply list_elem_of_fmap in He as (e0 & -> & He0). simpl.
        destruct (Hshown e0 He0) as [k Hk].
        rewrite (agree_get _ _ _ _ Hid35).
        apply get_Some_lookup in Hk as (n & Hn & Hidn).
        destruct (agree_lookup Node.id _ _ _ _
                    (Hag01 _ Node.id ltac:(by intros ? [])) Hn)
          as (n1 & Hn1 & Hid1).
        destruct (heap_rel_lookup _ _ _ _ _ Hrel13 Hn1) as (n3 & Hn3 & Hr).
        exists k. unfold get. rewrite Hn3. simpl.
        eapply id_assigned_keeps; [done|]. congruence.
      * apply list_elem_of_lookup in He as [i Hi].
        apply lookup_zip_with_Some in Hi as (a & c & -> & Ha & Hc). simpl.
        rewrite (agree_get _ _ _ _ Hid35). apply Hid3.
        apply list_elem_of_lookup_2 in Ha. by apply Hent in Ha as [? _].
  - done.
  - eapply (agree_weaken skeleton); [|done]. unfold skeleton. by intros n m [= -> _ _ _].
  - intros a Ha. rewrite Hσ5, Hσ4. rewrite decide_False by done.
    rewrite decide_False by (rewrite Hent; tauto).
    rewrite Hout3 by done. rewrite Hlout by done. by destruct (σ0 !! a).
  - intros a n' Ha Hn'. rewrite Hσ5 in Hn'. rewrite decide_True in Hn' by done.
    destruct (σ4 !! a) as [n4|] eqn:Hn4; [|done]. cbn in Hn'. simplify_eq.
    split; [|by destruct n4].
    destruct (Hid3 a Ha) as [k Hk].
    pose proof (agree_get Node.id _ _ a
                  (Hag34 _ Node.id ltac:(by intros ? []))) as Hg.
    rewrite Hk in Hg. unfold get in Hg. rewrite Hn4 in Hg. simpl in Hg.
    exists k. by destruct n4.
  - intros a n k Hn Hk. rewrite (agree_get _ _ _ _ Hid35).
    destruct (agree_lookup Node.id _ _ _ _
                (Hag01 _ Node.id ltac:(by intros ? [])) Hn)
      as (n1 & Hn1 & Hid1).
    destruct (heap_rel_lookup _ _ _ _ _ Hrel13 Hn1) as (n3 & Hn3 & Hr).
    unfold get. rewrite Hn3. simpl.
    eapply id_assigned_keeps; [done|]. congruence.
  - intros a n n' Hn Hn' Hnorm.
    destruct (agree_lookup shape σ0 σ3 a n) as (n3 & Hn3 & Hsh3); [|done|].
    { eapply agree_trans; [apply Hag01|apply Hag13]; by intros ? []. }
    rewrite Hσ5 in Hn'. rewrite Hσ4, Hn3 in Hn'. cbn in Hn'.
    assert (normalize_node n3 = n3) as Hnn.
    { apply normalize_node_shape_keep. destruct n3, n. unfold shape in Hsh3.
      simpl in *. by simplify_eq. }
    assert (slots n3 = slots n) as Hs3.
    { destruct n3, n. unfold shape in Hsh3. unfold slots. simpl in *. by simplify_eq. }
    injection Hn' as <-. transitivity (slots n3); [|done].
    do 2 case_decide; rewrite ?Hnn; by destruct n3.
  - intros a n' Hnew Ha Hn' Hdata.
    assert (a ∈ entering) as Hin by by apply Hent.
    rewrite Hσ5, Hσ4 in Hn'. rewrite !decide_True in Hn' by done.
    destruct (σ3 !! a) as [n3|]; [|done]. cbn in Hn'. simplify_eq.
    pose proof (normalize_node_normalized n3) as Hnz.
    destruct (normalize_node n3). simpl in *. by apply Hnz.
  - intros a n n' Hn Hn'.
    destruct (agree_lookup shape σ0 σ3 a n) as (n3 & Hn3 & Hsh3); [|done|].
    { eapply agree_trans; [apply Hag01|apply Hag13]; by intros ? []. }
    rewrite Hσ5 in Hn'. rewrite Hσ4, Hn3 in Hn'. cbn in Hn'.
    injection Hn' as <-.
    assert (Node.children n3 = Node.children n ∧ Node._children n3 = Node._children n)
      as [Hc Hu].
    { destruct n3, n. unfold shape in Hsh3. simpl in *. by simplify_eq. }
    set (n4 := (if decide (a ∈ entering) then normalize_node else λ n, n) n3).
    assert (normalized_from n3 n4) as Hn4.
    { unfold n4. case_decide; [apply normalize_node_from | by left]. }
    assert (∀ m, Node.children
                   ((if decide (a ∈ pre) then stash_node else λ n, n) m)
                 = Node.children m ∧
                 Node._children
                   ((if decide (a ∈ pre) then stash_node else λ n, n) m)
                 = Node._children m) as Hst.
    { intros m. case_decide; by destruct m. }
    destruct (Hst n4) as [-> ->].
    destruct Hn4 as [->|(Hc3 & Hu3 & _ & ->)].
    + split; [done | by left].
    + split; [by destruct n3|]. right. by rewrite <-Hc, <-Hu.
Qed.
End Preserve.

(** ** What [toggle] does *)

Lemma toggle_lookup_ne d a (σ : Store) : a ≠ d → toggle d σ !! a = σ !! a.
Proof.
  intros Hne. unfold toggle.
  destruct (hasOwn_children σ d); by rewrite list_lookup_alter_ne.
Qed.

Lemma toggle_lookup_eq d (σ : Store) n :
  σ !! d = Some n → ∃ n', toggle d σ !! d = Some n' ∧ toggled_node n n'.
Proof.
  intros Hn. unfold toggle, hasOwn_children, Node.hasOwn_children. rewrite Hn.
  destruct (Node.children n) as [v|] eqn:Hc; rewrite list_lookup_alter_eq, Hn; simpl.
  - eexists. split; [done|]. left. exists v. by rewrite Hc.
  - eexists. split; [done|]. by right.
Qed.

Lemma toggle_lookup_None d a (σ : Store) : σ !! a = None → toggle d σ !! a = None.
Proof.
  intros Hn. destruct (decide (a = d)) as [->|Hne].
  - unfold toggle. destruct (hasOwn_children σ d); by rewrite list_lookup_alter_eq, Hn.
  - by rewrite toggle_lookup_ne.
Qed.

Lemma toggle_agree {B} (f : Node.t → B) d σ :
  (∀ n n', toggled_node n n' → f n = f n') → agree f σ (toggle d σ).
Proof.
  intros Hf a. destruct (decide (a = d)) as [->|Hne].
  - destruct (σ !! d) as [n|] eqn:Hn.
    + destruct (toggle_lookup_eq d σ n Hn) as (n' & -> & Ht). cbn. by rewrite (Hf _ _ Ht).
    + by rewrite toggle_lookup_None.
  - by rewrite toggle_lookup_ne.
Qed.

Lemma toggled_node_skeleton n n' : toggled_node n n' → skeleton n = skeleton n'.
Proof.
  intros [(v & Hc & ->)|(Hc & ->)]; destruct n; simpl in *; subst;
    unfold skeleton, slot_items; simpl; [done|]. by destruct _children.
Qed.

Lemma toggled_node_rest n n' :
  toggled_node n n' →
  Node.id n' = Node.id n ∧ Node.data n' = Node.data n ∧
  Node.x n' = Node.x n ∧ Node.y n' = Node.y n ∧ Node.row n' = Node.row n ∧
  Node.x0 n' = Node.x0 n ∧ Node.y0 n' = Node.y0 n ∧
  Node.parent n' = Node.parent n ∧ Node.depth n' = Node.depth n ∧
  Node.hasOwn_children n' || Node.hasOwn__children n' = true.
Proof. intros [(v & Hc & ->)|(Hc & ->)]; by destruct n. Qed.

(** ** The invariant of a session *)

Lemma rendered_lookup st : 
  rendered st ↔
  ∀ a n, st_heap st !! a = Some n →
    is_Some (Node.id n) ∧
    (data_children (Node.data n) = Some [] →
     Node.hasOwn_children n || Node.hasOwn__children n = true) ∧
    Node.x0 n = Node.x n ∧ Node.y0 n = Node.y n.
Proof.
  unfold rendered. split.
  - intros (H1 & H2 & H3) a n Hn. split_and!; eauto.
    + intros Hd. rewrite <-(has_slot_lookup _ _ _ Hn). eauto.
    + by apply (H3 a n).
    + by apply (H3 a n).
  - intros H. split_and!; intros a n Hn; destruct (H a n Hn) as (? & Hs & ? & ?); try done.
    intros Hd. rewrite (has_slot_lookup _ _ _ Hn). auto.
Qed.

Section Session.
Context (min_height : Z) (tooltip_key : JsValue).

Lemma loaded_spec data :
  ∃ T, (loaded data init).1 = taddr T ∧
       tree_inv (loaded data init).2 T ∧
       ids_inv (loaded data init).2 ∧
       scene_inv (loaded data init).2 ∧
       st_nodes (loaded data init).2 = [] ∧
       (∀ a, a ∈ addrs T → a ∈ preorder (st_heap (loaded data init).2) T) ∧
       one_slot_inv (loaded data init).2.
Proof.
  unfold loaded, hierarchy. simpl.
  destruct (hierarchy_node_spec data 0 None []) as (T & Hroot & Hb).
  destruct (hierarchy_node data 0 None []) as [root σ]. simpl in *. subst root.
  destruct Hb as (Ht & HT & Hnd & Hrange & _ & _ & Hpre & Hid).
  simpl in Hrange, Hid.
  set (σ' := alter (λ n, Node.set_y0 (Some 0%Z) (Node.set_x0 (Some 0%Z) n)) 0 σ).
  assert (∀ {B} (f : Node.t → B),
            (∀ v w n, f (Node.set_y0 v (Node.set_x0 w n)) = f n) → agree f σ σ') as Hag.
  { intros B f Hf. apply agree_alter. intros n. apply Hf. }
  assert (agree shape σ σ') as Hsh by (apply Hag; by intros ?? []).
  exists T. split_and!; try done.
  - unfold tree_inv. simpl. split_and!; try done.
    + by rewrite Ht.
    + eapply Repr_agree; [|done]. by apply agree_shape_skeleton.
    + intros a Ha. apply Hrange. unfold σ' in Ha. rewrite length_alter in Ha.
      simpl. lia.
  - unfold ids_inv. simpl. split_and!; [done|..].
    + intros a k Hk. exfalso.
      rewrite (agree_get Node.id σ σ' a) in Hk by (apply Hag; by intros ?? []).
      apply get_Some_lookup in Hk as (n & Hn & Hidn).
      destruct (Hid a n) as [Hnone _]; [lia|done|]. congruence.
    + intros a b k Hk. exfalso.
      rewrite (agree_get Node.id σ σ' a) in Hk by (apply Hag; by intros ?? []).
      apply get_Some_lookup in Hk as (n & Hn & Hidn).
      destruct (Hid a n) as [Hnone _]; [lia|done|]. congruence.
  - unfold scene_inv. simpl. split; [constructor|]. by intros e ?%elem_of_nil.
  - intros a Ha. simpl. rewrite (preorder_agree σ σ') by done. by rewrite Hpre.
  - intros a n' Hn'. simpl in Hn'. right.
    destruct (agree_lookup Node._children σ' σ a n') as (n & Hn & Hu); [|done|].
    { apply agree_sym, Hag. by intros ?? []. }
    rewrite <-Hu. destruct (Hid a n) as [_ Hnone]; [lia|done|done].
Qed.

(** The state in which [click] calls [update] is as good as the one
    before the click. *)
Lemma toggled_inv this d st T :
  session_inv st T → session_inv (toggled this d st) T.
Proof.
  intros ((Hroot & HT & Hnd & Hall) & Hids & (Hscene & Hshown) & Hren & Hone).
  assert (agree skeleton (st_heap st) (toggle d (st_heap st))) as Hsk
    by apply toggle_agree, toggled_node_skeleton.
  assert (agree Node.id (st_heap st) (toggle d (st_heap st))) as Hid.
  { apply toggle_agree. intros n n' Ht. by destruct (toggled_node_rest _ _ Ht) as (-> & _). }
  assert (datum <$> st_nodes (toggled this d st) = datum <$> st_nodes st) as Hdat.
  { simpl. apply list_eq. intros i. rewrite !list_lookup_fmap.
    destruct (decide (this = i)) as [->|Hne].
    - rewrite list_lookup_alter_eq. by destruct (st_nodes st !! i).
    - by rewrite list_lookup_alter_ne. }
  unfold session_inv. split_and!.
  - unfold tree_inv. simpl. split_and!; try done.
    + by eapply Repr_agree.
    + intros a Ha. apply Hall. by rewrite (agree_length _ _ _ Hsk).
  - by apply (ids_inv_ext st).
  - unfold scene_inv. rewrite Hdat. split; [done|].
    intros e He. simpl. rewrite (agree_get _ _ _ _ Hid).
    assert (datum e ∈ datum <$> st_nodes st) as Hin.
    { rewrite <-Hdat. by apply list_elem_of_fmap_2. }
    apply list_elem_of_fmap in Hin as (e0 & -> & He0). by apply Hshown.
  - apply rendered_lookup. intros a n' Hn'. simpl in Hn'.
    rewrite rendered_lookup in Hren.
    destruct (decide (a = d)) as [->|Hne].
    + destruct (st_heap st !! d) as [n|] eqn:Hn.
      * destruct (toggle_lookup_eq d _ n Hn) as (n'' & Hn'' & Ht).
        assert (n'' = n') as -> by congruence.
        destruct (Hren d n Hn) as (? & ? & ? & ?).
        destruct (toggled_node_rest _ _ Ht)
          as (-> & -> & -> & -> & _ & -> & -> & _ & _ & ->).
        done.
      * by rewrite (toggle_lookup_None d d _ Hn) in Hn'.
    + rewrite toggle_lookup_ne in Hn' by done. by apply (Hren a n').
  - intros a n' Hn'. simpl in Hn'.
    destruct (decide (a = d)) as [->|Hne].
    + destruct (st_heap st !! d) as [n|] eqn:Hn.
      * destruct (toggle_lookup_eq d _ n Hn) as (n'' & Hn'' & Ht).
        assert (n'' = n') as -> by congruence.
        destruct Ht as [(v & _ & ->)|(_ & ->)]; [by left | by right].
      * by rewrite (toggle_lookup_None d d _ Hn) in Hn'.
    + rewrite toggle_lookup_ne in Hn' by done. by apply (Hone a n').
Qed.

Lemma transitions_end_inv st T :
  session_inv st T → session_inv (transitions_end st) T.
Proof.
  intros (Htree & Hids & (Hscene & Hshown) & Hren & Hone).
  assert (∀ e, e ∈ st_nodes (transitions_end st) →
               ∃ e0, e0 ∈ st_nodes st ∧ datum e = datum e0) as Hsub.
  { intros e He. simpl in He. apply list_elem_of_omap in He as (e0 & He0 & Hend).
    exists e0. split; [done|]. unfold end_node_transition in Hend.
    destruct (transition e0) as [t|]; [|by simplify_eq].
    destruct (then_remove t); by simplify_eq. }
  unfold session_inv. split_and!; try done.
  split.
  - simpl. clear -Hscene. induction (st_nodes st) as [|e l IH]; [constructor|].
    rewrite fmap_cons in Hscene. apply NoDup_cons in Hscene as [Hout Hnd].
    simpl. destruct (end_node_transition e) as [e'|] eqn:He; [|by apply IH].
    rewrite fmap_cons. apply NoDup_cons. split; [|by apply IH].
    assert (datum e' = datum e) as ->.
    { unfold end_node_transition in He. destruct (transition e) as [t|]; [|by simplify_eq].
      destruct (then_remove t); by simplify_eq. }
    intros Hin. apply Hout. apply list_elem_of_fmap in Hin as (e1 & -> & He1).
    apply list_elem_of_omap in He1 as (e0 & He0 & Hend).
    assert (datum e1 = datum e0) as ->.
    { unfold end_node_transition in Hend.
      destruct (transition e0) as [t|]; [|by simplify_eq].
      destruct (then_remove t); by simplify_eq. }
    by apply list_elem_of_fmap_2.
  - intros e He. destruct (Hsub e He) as (e0 & He0 & ->). by apply Hshown.
Qed.

(** A pass from a state in which every node the scene does not show is
    already in order leaves every node in order. *)
Lemma update_rendered S st T st' :
  tree_inv st T → ids_inv st → scene_inv st →
  (∀ a n, st_heap st !! a = Some n →
     a ∉ preorder (st_heap st) T ∨ (∃ e, e ∈ st_nodes st ∧ datum e = a) →
     is_Some (Node.id n) ∧
     (data_children (Node.data n) = Some [] →
      Node.hasOwn_children n || Node.hasOwn__children n = true) ∧
     Node.x0 n = Node.x n ∧ Node.y0 n = Node.y n) →
  update min_height tooltip_key S st = Some st' →
  tree_inv st' T ∧ ids_inv st' ∧ scene_inv st' ∧ rendered st'.
Proof.
  intros Htree Hids Hscene Hok Hup.
  destruct (update_inv min_height tooltip_key S st T Htree Hids Hscene)
    as (st'' & Hup' & Htree' & Hids' & Hscene' & Hsk & Hdata & Hout & Hin & Hidk &
        Hslots & Hnew).
  assert (st'' = st') as -> by congruence.
  split_and!; try done.
  apply rendered_lookup. intros a n' Hn'.
  destruct (agree_lookup Node.data _ _ a n' (agree_sym _ _ _ Hdata) Hn')
    as (n & Hn & Hd).
  destruct (decide (a ∈ preorder (st_heap st) T)) as [Ha|Ha].
  - destruct (Hin a n' Ha Hn') as (? & ? & ?). split_and!; try done.
    intros Hdat.
    destruct (find_elem a 0 (st_nodes st)) as [j|] eqn:Hfind.
    + apply find_elem_Some in Hfind as (e & He & Hde & _).
      apply list_elem_of_lookup_2 in He.
      destruct (Hok a n Hn) as (_ & Hnorm & _); [right; by exists e|].
      assert (slots n' = slots n) as Hs by by eapply Hslots.
      rewrite <-Hd in Hdat. specialize (Hnorm Hdat).
      destruct n, n'. unfold slots in Hs. simpl in *. by simplify_eq.
    + eapply Hnew; try done. by apply (find_elem_None a (st_nodes st) 0).
  - rewrite Hout in Hn' by done. apply (Hok a n'); [done | by left].
Qed.

Lemma update_one_slot S st T st' :
  tree_inv st T → ids_inv st → scene_inv st → one_slot_inv st →
  update min_height tooltip_key S st = Some st' →
  one_slot_inv st'.
Proof.
  intros Htree Hids Hscene Hone Hup.
  destruct (update_inv min_height tooltip_key S st T Htree Hids Hscene)
    as (st'' & Hup' & _ & _ & _ & _ & Hdata & _ & _ & _ & _ & _ & Hsl).
  assert (st'' = st') as -> by congruence.
  intros a n' Hn'.
  destruct (agree_lookup Node.data _ _ a n' (agree_sym _ _ _ Hdata) Hn')
    as (n & Hn & _).
  destruct (Hsl a n n' Hn Hn') as (Hu & [Hc|[Hc Hu']]).
  - rewrite Hu, Hc. by apply (Hone a n).
  - right. by rewrite Hu.
Qed.
End Session.

Section Run.
Context (min_height : Z) (tooltip_key : JsValue).

(** ** The scene after a pass *)

Lemma update_scene S st T :
  tree_inv st T → ids_inv st → scene_inv st →
  ∃ σ3 σ4 clicks st',
    let pre := preorder (st_heap st) T in
    let entering :=
      filter (λ a, find_elem a 0 (st_nodes st) = None)
        (breadth_first (length (st_heap st)) (st_heap st) [T]) in
    update min_height tooltip_key S st = Some st' ∧
    length clicks = length entering ∧
    st_nodes st'
    = map (λ e, moved_node σ4 S (bool_decide (datum e ∈ pre)) e) (st_nodes st)
      ++ zip_with (entering_node tooltip_key S σ3 σ4) entering clicks ∧
    (∀ a, a ∈ entering ↔ a ∈ pre ∧ ∀ e, e ∈ st_nodes st → datum e ≠ a) ∧
    previous_position σ3 S = previous_position (st_heap st) S ∧
    (∀ a, position σ4 a = position (st_heap st') a) ∧
    (∀ σ1 tr, layout (taddr T) (st_heap st) = Some (σ1, tr) →
              agree placement σ1 (st_heap st')).
Proof.
  intros Htree Hids Hscene.
  destruct (update_spec min_height tooltip_key S st T Htree Hids Hscene)
    as (σ1 & σ3 & σ4 & clicks & data_links & st' & Hup & Hlay & Hrel13 & Hout3 &
        Hid3 & Hσ4 & Hσ5 & Hroot' & Hids' & [Hclicks _] & Hnodes' & Hdl & Hlinks').
  destruct Htree as (Hroot & HT & Hnd & Hall).
  set (σ0 := st_heap st) in *. set (pre := preorder σ0 T) in *.
  set (bf := breadth_first (length σ0) σ0 [T]) in *.
  set (entering := filter (λ a, find_elem a 0 (st_nodes st) = None) bf) in *.
  assert (bf ≡ₚ pre) as Hbf.
  { unfold bf. rewrite breadth_first_preorder by apply (preorder_fuel σ0 T HT Hnd).
    simpl. by rewrite app_nil_r. }
  destruct (layout_result σ0 T σ1 pre HT Hnd Hlay) as (_ & Hpre & Hlen1 & Hlout & Hlin).
  assert (∀ {B} (f : Node.t → B), (∀ r n, f (layout_node r n) = f n) → agree f σ0 σ1)
    as Hag01.
  { intros B f Hf a. destruct (decide (a ∈ pre)) as [Ha|Ha].
    - apply list_elem_of_lookup in Ha as [i Hi]. rewrite (Hlin _ _ Hi).
      destruct (σ0 !! a); [|done]. cbn. by rewrite Hf.
    - by rewrite Hlout. }
  assert (∀ {B} (f : Node.t → B), (∀ k n, f (Node.set_id k n) = f n) → agree f σ1 σ3)
    as Hag13.
  { intros B f Hf. eapply heap_rel_agree; [|exact Hrel13].
    intros n n' [->|(_ & k & ->)]; [done | by rewrite Hf]. }
  assert (∀ {B} (f : Node.t → B),
            (∀ v n, f (Node.set_children v n) = f n) → agree f σ3 σ4) as Hag34.
  { intros B f Hf a. rewrite Hσ4. destruct (σ3 !! a) as [n|]; [|done]. cbn.
    destruct (decide (a ∈ entering)); [|done]. f_equal. unfold normalize_node.
    destruct (data_children (Node.data n)) as [[|??]|]; try done.
    destruct (_ && _); [by rewrite Hf | done]. }
  assert (∀ {B} (f : Node.t → B), (∀ n, f (stash_node n) = f n) →
            agree f σ4 (st_heap st')) as Hag45.
  { intros B f Hf. by eapply (pointwise_agree f stash_node (λ a, a ∈ pre)). }
  exists σ3, σ4, clicks, st'. split_and!; try done.
  - intros a. unfold entering. rewrite list_elem_of_filter, find_elem_None, Hbf. tauto.
  - unfold previous_position.
    assert (agree Node.x0 σ0 σ3) as Hx0.
    { eapply agree_trans; [apply Hag01|apply Hag13]; by intros ? []. }
    assert (agree Node.y0 σ0 σ3) as Hy0.
    { eapply agree_trans; [apply Hag01|apply Hag13]; by intros ? []. }
    by rewrite (agree_get _ _ _ _ Hx0), (agree_get _ _ _ _ Hy0).
  - intros a. unfold position.
    assert (agree Node.x σ4 (st_heap st')) as Hx by (apply Hag45; by intros []).
    assert (agree Node.y σ4 (st_heap st')) as Hy by (apply Hag45; by intros []).
    by rewrite (agree_get _ _ _ _ Hx), (agree_get _ _ _ _ Hy).
  - intros σ1' tr Hl. fold σ0 in Hl. rewrite Hlay in Hl. injection Hl as <- <-.
    eapply agree_trans; [apply Hag13; by intros ? []|].
    eapply agree_trans; [apply Hag34; by intros ? []|].
    apply Hag45. by intros [].
Qed.

Lemma update_hover S st T st' :
  tree_inv st T → ids_inv st → scene_inv st →
  scene_hover tooltip_key st →
  update min_height tooltip_key S st = Some st' →
  scene_hover tooltip_key st'.
Proof.
  intros Htree Hids Hscene Hh Hup.
  destruct (update_scene S st T Htree Hids Hscene)
    as (σ3 & σ4 & clicks & st'' & Hup' & _ & Hnodes & _).
  assert (st'' = st') as -> by congruence.
  intros e He. rewrite Hnodes in He. apply elem_of_app in He as [He|He].
  - apply list_elem_of_fmap in He as (e0 & -> & He0). simpl. by apply Hh.
  - apply list_elem_of_lookup in He as [i Hi].
    by apply lookup_zip_with_Some in Hi as (a & c & -> & _ & _).
Qed.

(** ** Every session runs, and keeps its invariant *)

Lemma load_inv data :
  ∃ st T, load_callback min_height tooltip_key (Success data) init
          = Some (Normal st) ∧
          session_inv st T ∧ scene_hover tooltip_key st.
Proof.
  destruct (loaded_spec data)
    as (T & Hroot & Htree & Hids & Hscene & Hnil & Hall & Hone).
  unfold load_callback.
  destruct (loaded data init) as [root st0] eqn:Hl. simpl in *. subst root.
  destruct (update_inv min_height tooltip_key (taddr T) st0 T Htree Hids Hscene)
    as (st & Hup & _).
  exists st, T. rewrite Hup. split; [done|].
  assert (∀ a n, st_heap st0 !! a = Some n → a ∈ preorder (st_heap st0) T) as Hvis.
  { intros a n Hn. apply Hall. destruct Htree as (_ & _ & _ & Hcov).
    apply Hcov, lookup_lt_is_Some. by eexists. }
  split.
  - unfold session_inv.
    destruct (update_rendered min_height tooltip_key (taddr T) st0 T st)
      as (? & ? & ? & ?); try done.
    { intros a n Hn [Hout|(e & He & _)].
      + exfalso. apply Hout. by eapply Hvis.
      + rewrite Hnil in He. by apply elem_of_nil in He. }
    split_and!; try done.
    by eapply (update_one_slot min_height tooltip_key (taddr T) st0 T st).
  - eapply (update_hover (taddr T) st0 T st); try done.
    intros e He. rewrite Hnil in He. by apply elem_of_nil in He.
Qed.

Lemma click_inv this d st T :
  session_inv st T → scene_hover tooltip_key st →
  ∃ st', click min_height tooltip_key this d st = Some st' ∧
         session_inv st' T ∧ scene_hover tooltip_key st'.
Proof.
  intros Hinv Hh.
  pose proof (toggled_inv this d st T Hinv) as (Htree & Hids & Hscene & Hren & Hone).
  unfold click.
  destruct (update_inv min_height tooltip_key d _ T Htree Hids Hscene) as (st' & Hup & _).
  exists st'. split; [done|]. split.
  - destruct (update_rendered min_height tooltip_key d (toggled this d st) T st')
      as (? & ? & ? & ?); try done.
    { intros a n Hn _. rewrite rendered_lookup in Hren. by apply (Hren a n). }
    unfold session_inv. split_and!; try done.
    by eapply (update_one_slot min_height tooltip_key d (toggled this d st) T st').
  - eapply (update_hover d (toggled this d st) T st'); try done.
    intros e He. simpl in He. apply list_elem_of_lookup in He as [i Hi].
    destruct (decide (this = i)) as [->|Hne].
    + rewrite list_lookup_alter_eq in Hi.
      destruct (st_nodes st !! i) as [e0|] eqn:He0; [|done]. simpl in Hi.
      injection Hi as <-. simpl. apply Hh. by eapply list_elem_of_lookup_2.
    + rewrite list_lookup_alter_ne in Hi by done. apply Hh.
      by eapply list_elem_of_lookup_2.
Qed.

Lemma dispatch_inv ev st T :
  session_inv st T → scene_hover tooltip_key st →
  ∃ st', dispatch min_height tooltip_key ev st = Some st' ∧
         session_inv st' T ∧ scene_hover tooltip_key st'.
Proof.
  intros Hinv Hh. destruct ev as [this|]; simpl.
  - destruct (st_nodes st !! this) as [e|]; [|by exists st].
    destruct (glyph_click e); [by apply click_inv | by exists st].
  - exists (transitions_end st). split; [done|]. split; [by apply transitions_end_inv|].
    intros e He. simpl in He. apply list_elem_of_omap in He as (e0 & He0 & Hend).
    unfold end_node_transition in Hend.
    destruct (transition e0) as [t|]; [|simplify_eq; by apply Hh].
    destruct (then_remove t); [done|]. simplify_eq. simpl. by apply Hh.
Qed.

Lemma run_inv evs : ∀ st T,
  session_inv st T → scene_hover tooltip_key st →
  ∃ st', run min_height tooltip_key evs st = Some st' ∧
         session_inv st' T ∧ scene_hover tooltip_key st'.
Proof.
  induction evs as [|ev evs IH]; intros st T Hinv Hh; simpl; [by exists st|].
  destruct (dispatch_inv ev st T Hinv Hh) as (st1 & -> & Hinv1 & Hh1).
  by apply IH.
Qed.

Lemma session_inv_total data evs :
  ∃ st T, session min_height tooltip_key data evs = Some st ∧
          session_inv st T ∧ scene_hover tooltip_key st.
Proof.
  destruct (load_inv data) as (st0 & T & Hl & Hinv & Hh).
  destruct (run_inv evs st0 T Hinv Hh) as (st & Hrun & ? & ?).
  exists st, T. unfold session. by rewrite Hl.
Qed.

Lemma session_inv_of data evs st :
  session min_height tooltip_key data evs = Some st →
  ∃ T, session_inv st T ∧ scene_hover tooltip_key st.
Proof.
  intros H. destruct (session_inv_total data evs) as (st' & T & H' & ? & ?).
  exists T. by assert (st = st') as -> by congruence.
Qed.

(** A pass starts in a state that is ready for it. *)
Lemma pass_start_ready S st :
  PassStart min_height tooltip_key S st →
  ∃ T, tree_inv st T ∧ ids_inv st ∧ scene_inv st.
Proof.
  intros [data|data evs st0 this e Hs He Hc].
  - destruct (loaded_spec data) as (T & _ & ? & ? & ? & _). by exists T.
  - destruct (session_inv_of data evs st0 Hs) as (T & Hinv & _).
    destruct (toggled_inv this (datum e) st0 T Hinv) as (? & ? & ? & _). by exists T.
Qed.
End Run.

(** ** The order of the rows *)

Section Rows.
Context (σ : Store) (T : Tree).
Hypothesis HT : Repr σ None 0 T.
Hypothesis Hnd : NoDup (addrs T).
Hypothesis Hall : ∀ a, a < length σ → a ∈ addrs T.

Lemma ancestor_index b a :
  ancestor σ b a → a ∈ preorder σ T →
  ∀ i j, preorder σ T !! i = Some b → preorder σ T !! j = Some a → i < j.
Proof using HT Hnd.
  pose proof (preorder_NoDup σ T Hnd) as Hpre.
  assert (∀ a n p, σ !! a = Some n → Node.parent n = Some p → a ∈ preorder σ T →
            ∀ i j, preorder σ T !! i = Some p → preorder σ T !! j = Some a → i < j)
    as Hbase.
  { intros a' n p Hn Hp Ha i j Hi Hj.
    destruct (before_parent σ T None 0 a' HT Ha) as (n' & p' & Hn' & Hp' & Hb).
    - by eapply root_no_parent.
    - assert (p' = p) as -> by congruence. by eapply before_lookup. }
  induction 1 as [a n p Hn Hp|a n p b Hn Hp Hanc IH]; intros Ha i j Hi Hj.
  - by eapply Hbase.
  - destruct (parent_preorder σ T HT Hnd a n p Hn Hp Ha) as [Hpin _].
    apply list_elem_of_lookup in Hpin as [m Hm].
    specialize (IH (list_elem_of_lookup_2 _ _ _ Hm) i m Hi Hm).
    specialize (Hbase a n p Hn Hp Ha m j Hm Hj). lia.
Qed.

(** A node in a child list points back to the node that holds the list. *)
Lemma child_parent t : ∀ par dep p n k,
  Repr σ par dep t → p ∈ addrs t → σ !! p = Some n → k ∈ slot_items n →
  ∃ m, σ !! k = Some m ∧ Node.parent m = Some p.
Proof.
  induction t as [r kids IH] using Tree_ind. intros par dep p n k Hr Hp Hn Hk.
  pose proof Hr as (nr & Hnr & _ & _ & Hs & _ & Hkids)%Repr_inv.
  rewrite Forall_forall in IH, Hkids.
  apply elem_of_addrs in Hp as [->|(t' & Ht' & Hpt)].
  - assert (nr = n) as -> by congruence. rewrite Hs in Hk.
    apply list_elem_of_fmap in Hk as (tk & -> & Htk).
    destruct (Repr_root _ _ _ _ (Hkids _ Htk)) as (m & Hm & Hpm & _). eauto.
  - exact (IH t' Ht' _ _ p n k (Hkids t' Ht') Hpt Hn Hk).
Qed.

Lemma sibling_index p n l i j ki kj :
  σ !! p = Some n → Node.children n = Some (CArray l) →
  l !! i = Some ki → l !! j = Some kj → i < j →
  ki ∈ preorder σ T →
  ∀ ri rj, preorder σ T !! ri = Some ki → preorder σ T !! rj = Some kj → ri < rj.
Proof using HT Hnd Hall.
  intros Hn Hc Hi Hj Hlt Hki ri rj Hri Hrj.
  pose proof (preorder_NoDup σ T Hnd) as Hpre.
  assert (slot_items n = l) as Hs by (unfold slot_items; by rewrite Hc).
  destruct (child_parent T None 0 p n ki HT) as (m & Hm & Hpm); try done.
  { by eapply in_tree. }
  { rewrite Hs. by eapply list_elem_of_lookup_2. }
  destruct (parent_preorder σ T HT Hnd ki m p Hm Hpm Hki) as [Hpin _].
  eapply before_lookup; [done| |done|done].
  by eapply (before_siblings σ T None 0 p n l i j).
Qed.
End Rows.

(** * The main theorems *)

Lemma pass_layout min_height tooltip_key S st :
  PassStart min_height tooltip_key S st →
  ∃ T σ',
    tree_inv st T ∧ ids_inv st ∧ scene_inv st ∧
    layout (taddr T) (st_heap st) = Some (σ', preorder (st_heap st) T) ∧
    NoDup (preorder (st_heap st) T) ∧
    (∀ a, a ∈ preorder (st_heap st) T ↔ visible (st_heap st) a) ∧
    (∀ a, a ∉ preorder (st_heap st) T → σ' !! a = st_heap st !! a) ∧
    (∀ i a, preorder (st_heap st) T !! i = Some a →
       ∃ n, st_heap st !! a = Some n ∧
            σ' !! a = Some (layout_node (Z.of_nat i) n)).
Proof.
  intros Hp. destruct (pass_start_ready _ _ _ _ Hp) as (T & Htree & Hids & Hscene).
  pose proof Htree as (Hroot & HT & Hnd & Hall).
  pose proof (layout_spec (st_heap st) T HT Hnd) as Hl.
  destruct (layout_result _ _ _ _ HT Hnd Hl) as (_ & Hpre & _ & Hout & Hin).
  eexists T, _. split_and!; try done.
  - intros a. by apply preorder_visible.
  - intros i a Hi. rewrite (Hin i a Hi).
    destruct (Repr_lookup (st_heap st) T None 0 a HT) as [n Hn].
    { eapply preorder_addrs. by eapply list_elem_of_lookup_2. }
    exists n. by rewrite Hn.
Qed.

(** C1. A layout pass, the traversal at the start of [update], visits
    exactly the nodes all of whose ancestors are expanded: it writes a row
    and a position to each of them and leaves every other node untouched,
    in every pass of every session; the pass then completes and keeps what
    the traversal wrote. *)
Theorem layout_assigns_exactly_visible min_height tooltip_key S st :
  PassStart min_height tooltip_key S st →
  ∃ root σ' visited st',
    st_root st = Some root ∧
    layout root (st_heap st) = Some (σ', visited) ∧
    (∀ a, a ∈ visited ↔ visible (st_heap st) a) ∧
    (∀ a, a ∈ visited →
       is_Some (get Node.row σ' a) ∧ is_Some (get Node.x σ' a) ∧
       is_Some (get Node.y σ' a)) ∧
    (∀ a, a ∉ visited → σ' !! a = st_heap st !! a) ∧
    update min_height tooltip_key S st = Some st' ∧
    agree placement σ' (st_heap st').
Proof.
  intros Hp.
  destruct (pass_layout _ _ _ _ Hp)
    as (T & σ' & Htree & Hids & Hscene & Hl & Hnd & Hvis & Hout & Hin).
  destruct (update_scene min_height tooltip_key S st T Htree Hids Hscene)
    as (σ3 & σ4 & clicks & st' & Hup & _ & _ & _ & _ & _ & Hplace).
  exists (taddr T), σ', (preorder (st_heap st) T), st'. split_and!; try done.
  - by destruct Htree.
  - intros a [i Hi]%list_elem_of_lookup. destruct (Hin i a Hi) as (n & Hn & Hn').
    unfold get. rewrite Hn'. by destruct n.
  - by eapply Hplace.
Qed.

(** A pass of the example: the one that [load] runs on Scenario A. *)
Lemma layout_assigns_exactly_visible_witness :
  PassStart 0 JsNull (loaded scenario_A init).1 (loaded scenario_A init).2 ∧
  ∃ root σ' visited st',
    st_root (loaded scenario_A init).2 = Some root ∧
    layout root (st_heap (loaded scenario_A init).2) = Some (σ', visited) ∧
    (∀ a, a ∈ visited ↔ visible (st_heap (loaded scenario_A init).2) a) ∧
    (∀ a, a ∈ visited →
       is_Some (get Node.row σ' a) ∧ is_Some (get Node.x σ' a) ∧
       is_Some (get Node.y σ' a)) ∧
    (∀ a, a ∉ visited → σ' !! a = st_heap (loaded scenario_A init).2 !! a) ∧
    update 0 JsNull (loaded scenario_A init).1 (loaded scenario_A init).2 = Some st' ∧
    agree placement σ' (st_heap st').
Proof.
  split; [apply pass_load|].
  apply (layout_assigns_exactly_visible 0 JsNull), pass_load.
Defined.

(** C2. After a layout pass the [N] visible nodes carry the rows
    [0 .. N-1] in pre-order: the node visited [i]-th has row [i], x
    [depth * indentation] and y [row * row_height]; an ancestor has a
    smaller row than its descendant; of two children of one node the one
    earlier in the child list has the smaller row, and the child list is in
    the order of the records of the input. *)
Theorem rows_are_preorder_indices min_height tooltip_key S st :
  PassStart min_height tooltip_key S st →
  ∃ root σ' visited,
    st_root st = Some root ∧
    layout root (st_heap st) = Some (σ', visited) ∧
    NoDup visited ∧
    (∀ a, a ∈ visited ↔ visible (st_heap st) a) ∧
    (∀ i a, visited !! i = Some a →
       ∃ n, st_heap st !! a = Some n ∧
            get Node.row σ' a = Some (Z.of_nat i) ∧
            get Node.x σ' a = Some (Z.of_nat (Node.depth n) * indentation)%Z ∧
            get Node.y σ' a = Some (Z.of_nat i * row_height)%Z) ∧
    (∀ a b ra rb,
       visible (st_heap st) b → ancestor (st_heap st) a b →
       get Node.row σ' a = Some ra → get Node.row σ' b = Some rb →
       (ra < rb)%Z) ∧
    (∀ p l i j ki kj ri rj,
       get Node.children (st_heap st) p = Some (CArray l) →
       l !! i = Some ki → l !! j = Some kj → i < j →
       visible (st_heap st) ki → visible (st_heap st) kj →
       get Node.row σ' ki = Some ri → get Node.row σ' kj = Some rj →
       (ri < rj)%Z) ∧
    (∀ p n, st_heap st !! p = Some n →
       map (λ k, Node.data <$> st_heap st !! k) (slot_items n)
       = map Some (default [] (data_children (Node.data n)))).
Proof.
  intros Hp.
  destruct (pass_layout _ _ _ _ Hp)
    as (T & σ' & Htree & Hids & Hscene & Hl & Hnd & Hvis & Hout & Hin).
  destruct Htree as (Hroot & HT & HndT & Hall).
  assert (∀ i a, preorder (st_heap st) T !! i = Some a →
                 get Node.row σ' a = Some (Z.of_nat i)) as Hrow.
  { intros i a Hi. destruct (Hin i a Hi) as (n & Hn & Hn').
    unfold get. rewrite Hn'. by destruct n. }
  assert (∀ a r, a ∈ preorder (st_heap st) T → get Node.row σ' a = Some r →
                 ∃ i, preorder (st_heap st) T !! i = Some a ∧ r = Z.of_nat i) as Hidx.
  { intros a r [i Hi]%list_elem_of_lookup Hr. exists i. split; [done|].
    rewrite (Hrow i a Hi) in Hr. congruence. }
  exists (taddr T), σ', (preorder (st_heap st) T). split_and!; try done.
  - intros i a Hi. destruct (Hin i a Hi) as (n & Hn & Hn').
    exists n. unfold get. rewrite Hn'. by destruct n.
  - intros a b ra rb Hb Hanc Hra Hrb. apply Hvis in Hb.
    destruct (ancestor_preorder _ T HT HndT a b Hanc Hb) as [Ha _].
    destruct (Hidx a ra Ha Hra) as (i & Hi & ->).
    destruct (Hidx b rb Hb Hrb) as (j & Hj & ->).
    pose proof (ancestor_index _ T HT HndT a b Hanc Hb i j Hi Hj). lia.
  - intros p l i j ki kj ri rj Hc Hi Hj Hlt Hki Hkj Hri Hrj.
    apply Hvis in Hki, Hkj.
    destruct (Hidx ki ri Hki Hri) as (i' & Hi' & ->).
    destruct (Hidx kj rj Hkj Hrj) as (j' & Hj' & ->).
    apply get_Some_lookup in Hc as (n & Hn & Hcn).
    pose proof (sibling_index _ T HT HndT Hall p n l i j ki kj Hn Hcn Hi Hj Hlt Hki
                  i' j' Hi' Hj'). lia.
  - intros p n Hn. eapply (children_input_order _ T None 0 p n HT); [|done].
    apply Hall, lookup_lt_is_Some. by eexists.
Qed.

Lemma rows_are_preorder_indices_witness :
  PassStart 0 JsNull (loaded scenario_A init).1 (loaded scenario_A init).2 ∧
  ∃ root σ' visited,
    st_root (loaded scenario_A init).2 = Some root ∧
    layout root (st_heap (loaded scenario_A init).2) = Some (σ', visited) ∧
    NoDup visited ∧
    (∀ a, a ∈ visited ↔ visible (st_heap (loaded scenario_A init).2) a) ∧
    (∀ i a, visited !! i = Some a →
       ∃ n, st_heap (loaded scenario_A init).2 !! a = Some n ∧
            get Node.row σ' a = Some (Z.of_nat i) ∧
            get Node.x σ' a = Some (Z.of_nat (Node.depth n) * indentation)%Z ∧
            get Node.y σ' a = Some (Z.of_nat i * row_height)%Z) ∧
    (∀ a b ra rb,
       visible (st_heap (loaded scenario_A init).2) b →
       ancestor (st_heap (loaded scenario_A init).2) a b →
       get Node.row σ' a = Some ra → get Node.row σ' b = Some rb →
       (ra < rb)%Z) ∧
    (∀ p l i j ki kj ri rj,
       get Node.children (st_heap (loaded scenario_A init).2) p = Some (CArray l) →
       l !! i = Some ki → l !! j = Some kj → i < j →
       visible (st_heap (loaded scenario_A init).2) ki →
       visible (st_heap (loaded scenario_A init).2) kj →
       get Node.row σ' ki = Some ri → get Node.row σ' kj = Some rj →
       (ri < rj)%Z) ∧
    (∀ p n, st_heap (loaded scenario_A init).2 !! p = Some n →
       map (λ k, Node.data <$> st_heap (loaded scenario_A init).2 !! k) (slot_items n)
       = map Some (default [] (data_children (Node.data n)))).
Proof.
  split; [apply pass_load|].
  apply (rows_are_preorder_indices 0 JsNull (loaded scenario_A init).1), pass_load.
Defined.

(** What a click does to the heap: the toggle, and nothing else that
    touches identity, record, parent, depth or the two child properties. *)
Lemma click_effect min_height tooltip_key this X st T :
  session_inv st T →
  ∃ st', click min_height tooltip_key this X st = Some st' ∧
         session_inv st' T ∧
         length (st_heap st') = length (st_heap st) ∧
         ∀ a m, st_heap st !! a = Some m →
           ∃ mt m', toggle X (st_heap st) !! a = Some mt ∧
                    st_heap st' !! a = Some m' ∧
                    Node.id m' = Node.id m ∧ is_Some (Node.id m) ∧
                    Node.data m' = Node.data m ∧
                    Node.parent m' = Node.parent m ∧
                    Node.depth m' = Node.depth m ∧
                    slots m' = slots mt.
Proof.
  intros Hinv.
  pose proof (toggled_inv this X st T Hinv) as (Htree & Hids & Hscene & Hren & Hone).
  destruct Hinv as (_ & _ & _ & Hren0 & _).
  unfold click.
  destruct (update_inv min_height tooltip_key X (toggled this X st) T Htree Hids Hscene)
    as (st' & Hup & Htree' & Hids' & Hscene' & Hsk & Hdata & Hout & Hin & Hidk &
        Hslots & Hnew & Hsl).
  exists st'. split; [done|]. split_and!.
  - destruct (update_rendered min_height tooltip_key X (toggled this X st) T st')
      as (? & ? & ? & ?); try done.
    { intros a n Hn _. rewrite rendered_lookup in Hren. by apply (Hren a n). }
    unfold session_inv. split_and!; try done.
    by eapply (update_one_slot min_height tooltip_key X (toggled this X st) T st').
  - rewrite <-(agree_length _ _ _ Hsk). simpl.
    symmetry. apply (agree_length skeleton), toggle_agree, toggled_node_skeleton.
  - intros a m Hm.
    assert (agree skeleton (st_heap st) (toggle X (st_heap st))) as Hsk0
      by apply toggle_agree, toggled_node_skeleton.
    assert (agree Node.id (st_heap st) (toggle X (st_heap st))) as Hid0.
    { apply toggle_agree. intros n n' Ht. by destruct (toggled_node_rest _ _ Ht) as (-> & _). }
    destruct (agree_lookup _ _ _ _ _ Hsk0 Hm) as (mt & Hmt & Hskt).
    destruct (agree_lookup _ _ _ _ _ Hid0 Hm) as (mt' & Hmt' & Hidt).
    assert (mt' = mt) as -> by congruence.
    simpl in Hsk. destruct (agree_lookup _ _ _ _ _ Hsk Hmt) as (m' & Hm' & Hsk').
    rewrite rendered_lookup in Hren0, Hren.
    destruct (Hren0 a m Hm) as ([k Hk] & _).
    destruct (Hren a mt Hmt) as (_ & Hnorm & _).
    exists mt, m'. split_and!; try done.
    + specialize (Hidk a mt k Hmt). simpl in Hidk. rewrite Hidt, Hk in Hidk.
      specialize (Hidk eq_refl). unfold get in Hidk. rewrite Hm' in Hidk.
      simpl in Hidk. congruence.
    + unfold skeleton in *. congruence.
    + unfold skeleton in *. congruence.
    + unfold skeleton in *. congruence.
    + by eapply (Hslots a mt m').
Qed.

(** C5. The toggle of a click on a node with children moves the child
    list of that node from one property to the other and changes the two
    child properties of no other node. *)
Theorem toggle_changes_only_clicked_node
    min_height tooltip_key data evs st this X n :
  session min_height tooltip_key data evs = Some st →
  st_heap st !! X = Some n →
  has_slot (st_heap st) X = true →
  ∃ st', click min_height tooltip_key this X st = Some st' ∧
    (∀ a m, a ≠ X → st_heap st !! a = Some m →
       ∃ m', st_heap st' !! a = Some m' ∧
             Node.children m' = Node.children m ∧
             Node._children m' = Node._children m) ∧
    ∃ n', st_heap st' !! X = Some n' ∧
      ((is_Some (Node.children n) ∧ Node._children n = None ∧
        Node.children n' = None ∧ Node._children n' = Node.children n) ∨
       (is_Some (Node._children n) ∧ Node.children n = None ∧
        Node._children n' = None ∧ Node.children n' = Node._children n)).
Proof.
  intros Hs Hn Hslot.
  destruct (session_inv_of _ _ _ _ _ Hs) as (T & Hinv & _).
  pose proof Hinv as (_ & _ & _ & _ & Hone).
  destruct (click_effect min_height tooltip_key this X st T Hinv)
    as (st' & Hclick & _ & _ & Heff).
  exists st'. split; [done|]. split.
  - intros a m Hne Hm. destruct (Heff a m Hm) as (mt & m' & Hmt & Hm' & _ & _ & _ & _ & _ & Hsl).
    rewrite toggle_lookup_ne in Hmt by done. assert (mt = m) as -> by congruence.
    exists m'. split; [done|]. unfold slots in Hsl. by simplify_eq.
  - destruct (Heff X n Hn) as (mt & n' & Hmt & Hn' & _ & _ & _ & _ & _ & Hsl).
    destruct (toggle_lookup_eq X _ n Hn) as (mt' & Hmt' & Ht).
    assert (mt' = mt) as -> by congruence.
    exists n'. split; [done|]. unfold slots in Hsl. injection Hsl as Hc Hu.
    rewrite (has_slot_lookup _ _ _ Hn) in Hslot.
    unfold Node.hasOwn_children, Node.hasOwn__children in Hslot.
    destruct (Hone X n Hn) as [Hcn|Hun].
    + right. destruct Ht as [(v & Hv & ->)|(_ & ->)]; [congruence|].
      simpl in Hc, Hu. rewrite Hcn in Hslot.
      destruct (Node._children n) as [u|] eqn:Hu'; [|done].
      split_and!; first [done | by eexists | congruence].
    + left. destruct Ht as [(v & Hv & ->)|(Hcn & ->)].
      * simpl in Hc, Hu. split_and!; first [done | by eexists | congruence].
      * rewrite Hcn, Hun in Hslot. done.
Qed.

(** C4. A click that collapses a node followed by a click on the same
    node restores every node of the tree: identity, record, parent, depth
    and both child properties are what they were before the first click. *)
Theorem toggle_round_trip min_height tooltip_key data evs st this X n v :
  session min_height tooltip_key data evs = Some st →
  st_heap st !! X = Some n →
  Node.children n = Some v →
  ∃ st1 st2 n1,
    click min_height tooltip_key this X st = Some st1 ∧
    st_heap st1 !! X = Some n1 ∧
    Node.children n1 = None ∧ Node._children n1 = Some v ∧
    click min_height tooltip_key this X st1 = Some st2 ∧
    length (st_heap st2) = length (st_heap st) ∧
    ∀ a m, st_heap st !! a = Some m →
      ∃ m2, st_heap st2 !! a = Some m2 ∧
            is_Some (Node.id m) ∧
            Node.id m2 = Node.id m ∧ Node.data m2 = Node.data m ∧
            Node.parent m2 = Node.parent m ∧ Node.depth m2 = Node.depth m ∧
            Node.children m2 = Node.children m ∧
            Node._children m2 = Node._children m.
Proof.
  intros Hs Hn Hv.
  destruct (session_inv_of _ _ _ _ _ Hs) as (T & Hinv & _).
  pose proof Hinv as (_ & _ & _ & _ & Hone).
  destruct (click_effect min_height tooltip_key this X st T Hinv)
    as (st1 & Hclick1 & Hinv1 & Hlen1 & Heff1).
  destruct (click_effect min_height tooltip_key this X st1 T Hinv1)
    as (st2 & Hclick2 & Hinv2 & Hlen2 & Heff2).
  assert (Node._children n = None) as Hu.
  { destruct (Hone X n Hn); congruence. }
  (* the node in the middle state *)
  destruct (Heff1 X n Hn) as (nt & n1 & Hnt & Hn1 & _ & _ & _ & _ & _ & Hsl1).
  destruct (toggle_lookup_eq X _ n Hn) as (nt' & Hnt' & Ht).
  assert (nt' = nt) as -> by congruence.
  assert (Node.children n1 = None ∧ Node._children n1 = Some v) as [Hc1 Hu1].
  { unfold slots in Hsl1. injection Hsl1 as Hc Hu'. rewrite Hc, Hu'.
    destruct Ht as [(v' & Hv' & ->)|(Hcn & ->)]; [|congruence].
    simpl. split; [done | congruence]. }
  exists st1, st2, n1. split_and!; try done; [congruence|].
  intros a m Hm.
  destruct (Heff1 a m Hm) as (mt & m1 & Hmt & Hm1 & Hid1 & Hsome & Hd1 & Hp1 & Hdep1 & Hs1).
  destruct (Heff2 a m1 Hm1) as (mt2 & m2 & Hmt2 & Hm2 & Hid2 & _ & Hd2 & Hp2 & Hdep2 & Hs2).
  exists m2. split_and!; try congruence.
  - destruct (decide (a = X)) as [->|Hne].
    + assert (m = n) as -> by congruence. assert (m1 = n1) as -> by congruence.
      destruct (toggle_lookup_eq X _ n1 Hn1) as (mt2' & Hmt2' & Ht2).
      assert (mt2' = mt2) as -> by congruence.
      unfold slots in Hs2. injection Hs2 as Hc2 Hu2. rewrite Hc2.
      destruct Ht2 as [(v' & Hv' & ->)|(_ & ->)]; [congruence|].
      simpl. rewrite Hu1. simpl. congruence.
    + rewrite toggle_lookup_ne in Hmt, Hmt2 by done.
      unfold slots in Hs1, Hs2. congruence.
  - destruct (decide (a = X)) as [->|Hne].
    + assert (m = n) as -> by congruence. assert (m1 = n1) as -> by congruence.
      destruct (toggle_lookup_eq X _ n1 Hn1) as (mt2' & Hmt2' & Ht2).
      assert (mt2' = mt2) as -> by congruence.
      unfold slots in Hs2. injection Hs2 as Hc2 Hu2. rewrite Hu2.
      destruct Ht2 as [(v' & Hv' & ->)|(_ & ->)]; [congruence|].
      simpl. congruence.
    + rewrite toggle_lookup_ne in Hmt, Hmt2 by done.
      unfold slots in Hs1, Hs2. congruence.
Qed.

Lemma toggle_changes_only_clicked_node_witness :
  session 0 JsNull scenario_A [] = Some scenario_A_state ∧
  st_heap scenario_A_state !! 2 = Some scenario_A_b ∧
  has_slot (st_heap scenario_A_state) 2 = true ∧
  ∃ st', click 0 JsNull 2 2 scenario_A_state = Some st' ∧
    (∀ a m, a ≠ 2 → st_heap scenario_A_state !! a = Some m →
       ∃ m', st_heap st' !! a = Some m' ∧
             Node.children m' = Node.children m ∧
             Node._children m' = Node._children m) ∧
    ∃ n', st_heap st' !! 2 = Some n' ∧
      ((is_Some (Node.children scenario_A_b) ∧ Node._children scenario_A_b = None ∧
        Node.children n' = None ∧ Node._children n' = Node.children scenario_A_b) ∨
       (is_Some (Node._children scenario_A_b) ∧ Node.children scenario_A_b = None ∧
        Node._children n' = None ∧ Node.children n' = Node._children scenario_A_b)).
Proof.
  split; [by vm_compute|]. split; [by vm_compute|]. split; [by vm_compute|].
  apply (toggle_changes_only_clicked_node 0 JsNull scenario_A [] scenario_A_state
           2 2 scenario_A_b); by vm_compute.
Defined.

Lemma toggle_round_trip_witness :
  session 0 JsNull scenario_A [] = Some scenario_A_state ∧
  st_heap scenario_A_state !! 2 = Some scenario_A_b ∧
  Node.children scenario_A_b = Some (CArray [3]) ∧
  ∃ st1 st2 n1,
    click 0 JsNull 2 2 scenario_A_state = Some st1 ∧
    st_heap st1 !! 2 = Some n1 ∧
    Node.children n1 = None ∧ Node._children n1 = Some (CArray [3]) ∧
    click 0 JsNull 2 2 st1 = Some st2 ∧
    length (st_heap st2) = length (st_heap scenario_A_state) ∧
    ∀ a m, st_heap scenario_A_state !! a = Some m →
      ∃ m2, st_heap st2 !! a = Some m2 ∧
            is_Some (Node.id m) ∧
            Node.id m2 = Node.id m ∧ Node.data m2 = Node.data m ∧
            Node.parent m2 = Node.parent m ∧ Node.depth m2 = Node.depth m ∧
            Node.children m2 = Node.children m ∧
            Node._children m2 = Node._children m.
Proof.
  split; [by vm_compute|]. split; [by vm_compute|]. split; [by vm_compute|].
  apply (toggle_round_trip 0 JsNull scenario_A [] scenario_A_state 2 2 scenario_A_b
           (CArray [3])); by vm_compute.
Defined.

Lemma NoDup_datum_eq (l : list NodeElem) e1 e2 :
  NoDup (datum <$> l) → e1 ∈ l → e2 ∈ l → datum e1 = datum e2 → e1 = e2.
Proof.
  intros Hnd [i Hi]%list_elem_of_lookup [j Hj]%list_elem_of_lookup Heq.
  assert ((datum <$> l) !! i = Some (datum e1)) as Hi' by by rewrite list_lookup_fmap, Hi.
  assert ((datum <$> l) !! j = Some (datum e1)) as Hj'
    by by rewrite list_lookup_fmap, Hj, Heq.
  rewrite (NoDup_lookup _ _ _ _ Hnd Hi' Hj') in Hi. congruence.
Qed.

(** Where the source of a pass was: at the origin when [load] starts the
    pass, and where the pass before left it when a click does. *)
Lemma pass_previous_position min_height tooltip_key S st :
  PassStart min_height tooltip_key S st →
  previous_position (st_heap st) S = (Some 0%Z, Some 0%Z) ∨
  previous_position (st_heap st) S = position (st_heap st) S.
Proof.
  intros [data|data evs st0 this e Hs He Hc].
  - left. unfold loaded, hierarchy. simpl.
    destruct (hierarchy_node_spec data 0 None []) as (T & Hroot & Hb).
    destruct (hierarchy_node data 0 None []) as [root σ]. simpl in *. subst root.
    destruct Hb as (Ht & HT & _). destruct (Repr_root _ _ _ _ HT) as (n & Hn & _).
    simpl in Ht. rewrite Ht in Hn.
    unfold previous_position, get. rewrite list_lookup_alter_eq, Hn. done.
  - right. destruct (session_inv_of _ _ _ _ _ Hs) as (T & Hinv & _).
    destruct (toggled_inv this (datum e) st0 T Hinv) as (_ & _ & _ & Hren & _).
    rewrite rendered_lookup in Hren. unfold previous_position, position, get.
    destruct (st_heap (toggled this (datum e) st0) !! datum e) as [n|] eqn:Hn; [|done].
    simpl. destruct (Hren _ _ Hn) as (_ & _ & -> & ->). done.
Qed.

(** C6. In every pass of [update] with pivot [S]: an element is appended
    for each visible node that has none; it starts at the previous position
    of [S], transparent, and moves to the position of its node, becoming
    opaque.  An element whose node is no longer visible keeps what it shows,
    moves to the new position of [S], fading, and is removed when the
    transition ends; the nodes themselves stay on the heap, with the same
    parent, depth, payload and child lists.  The previous position of [S]
    is the origin in the pass of [load] and the position the pass before
    gave to [S] in the pass of a click. *)
Theorem enter_from_source_exit_to_source min_height tooltip_key S st :
  PassStart min_height tooltip_key S st →
  ∃ st',
    update min_height tooltip_key S st = Some st' ∧
    (∀ a, visible (st_heap st) a → (∀ e, e ∈ st_nodes st → datum e ≠ a) →
       ∃ e', e' ∈ st_nodes st' ∧ datum e' = a ∧
             transform e' = previous_position (st_heap st) S ∧
             opacity e' = 0%Z ∧
             transition e' = Some (mkTransition (position (st_heap st') a) 1 false)) ∧
    (∀ e, e ∈ st_nodes st → ¬ visible (st_heap st) (datum e) →
       ∃ e', e' ∈ st_nodes st' ∧ datum e' = datum e ∧
             transform e' = transform e ∧ opacity e' = opacity e ∧
             transition e' = Some (mkTransition (position (st_heap st') S) 0 true) ∧
             (∀ e'', e'' ∈ st_nodes (transitions_end st') → datum e'' ≠ datum e)) ∧
    agree skeleton (st_heap st) (st_heap (transitions_end st')) ∧
    (previous_position (st_heap st) S = (Some 0%Z, Some 0%Z) ∨
     previous_position (st_heap st) S = position (st_heap st) S).
Proof.
  intros Hp.
  destruct (pass_layout _ _ _ _ Hp)
    as (T & σ' & Htree & Hids & Hscene & _ & _ & Hvis & _).
  destruct (update_scene min_height tooltip_key S st T Htree Hids Hscene)
    as (σ3 & σ4 & clicks & st' & Hup & Hlen & Hnodes & Hent & Hprev & Hpos & _).
  destruct (update_inv min_height tooltip_key S st T Htree Hids Hscene)
    as (st'' & Hup' & _ & _ & Hscene' & Hsk & _).
  assert (st'' = st') as -> by congruence.
  exists st'. split_and!; try done.
  - intros a Ha Hnew.
    assert (a ∈ filter (λ a, find_elem a 0 (st_nodes st) = None)
                  (breadth_first (length (st_heap st)) (st_heap st) [T])) as Hin.
    { apply Hent. split; [by apply Hvis|done]. }
    apply list_elem_of_lookup in Hin as [i Hi].
    destruct (clicks !! i) as [c|] eqn:Hc.
    2:{ apply lookup_ge_None in Hc. apply lookup_lt_Some in Hi. lia. }
    exists (entering_node tooltip_key S σ3 σ4 a c). split_and!; try done.
    + rewrite Hnodes. apply elem_of_app. right.
      apply list_elem_of_lookup. exists i. apply lookup_zip_with_Some. eauto.
    + simpl. by rewrite Hpos.
  - intros e He Hgone.
    set (e' := moved_node σ4 S (bool_decide (datum e ∈ preorder (st_heap st) T)) e).
    assert (e' ∈ st_nodes st') as He'.
    { rewrite Hnodes. apply elem_of_app. left.
      apply list_elem_of_fmap. by exists e. }
    assert (transition e' = Some (mkTransition (position (st_heap st') S) 0 true)) as Htr.
    { unfold e'. rewrite bool_decide_eq_false_2 by (by rewrite Hvis).
      simpl. by rewrite Hpos. }
    exists e'. split_and!; try done.
    intros e'' He'' Heq. simpl in He''.
    apply list_elem_of_omap in He'' as (e0 & He0 & Hend).
    assert (datum e0 = datum e'') as Hd.
    { unfold end_node_transition in Hend.
      destruct (transition e0) as [t|]; [|by simplify_eq].
      destruct (then_remove t); [done|]. by simplify_eq. }
    assert (e0 = e') as ->.
    { apply (NoDup_datum_eq (st_nodes st')); [by destruct Hscene'|done|done|].
      by rewrite Hd, Heq. }
    unfold end_node_transition in Hend. by rewrite Htr in Hend.
  - by eapply pass_previous_position.
Qed.

(** The pass that [load] runs on Scenario A. *)
Lemma enter_from_source_exit_to_source_witness :
  PassStart 0 JsNull (loaded scenario_A init).1 (loaded scenario_A init).2 ∧
  ∃ st',
    update 0 JsNull (loaded scenario_A init).1 (loaded scenario_A init).2 = Some st' ∧
    (∀ a, visible (st_heap (loaded scenario_A init).2) a →
       (∀ e, e ∈ st_nodes (loaded scenario_A init).2 → datum e ≠ a) →
       ∃ e', e' ∈ st_nodes st' ∧ datum e' = a ∧
             transform e'
             = previous_position (st_heap (loaded scenario_A init).2)
                 (loaded scenario_A init).1 ∧
             opacity e' = 0%Z ∧
             transition e' = Some (mkTransition (position (st_heap st') a) 1 false)) ∧
    (∀ e, e ∈ st_nodes (loaded scenario_A init).2 →
       ¬ visible (st_heap (loaded scenario_A init).2) (datum e) →
       ∃ e', e' ∈ st_nodes st' ∧ datum e' = datum e ∧
             transform e' = transform e ∧ opacity e' = opacity e ∧
             transition e'
             = Some (mkTransition (position (st_heap st') (loaded scenario_A init).1) 0 true) ∧
             (∀ e'', e'' ∈ st_nodes (transitions_end st') → datum e'' ≠ datum e)) ∧
    agree skeleton (st_heap (loaded scenario_A init).2) (st_heap (transitions_end st')) ∧
    (previous_position (st_heap (loaded scenario_A init).2) (loaded scenario_A init).1
     = (Some 0%Z, Some 0%Z) ∨
     previous_position (st_heap (loaded scenario_A init).2) (loaded scenario_A init).1
     = position (st_heap (loaded scenario_A init).2) (loaded scenario_A init).1).
Proof.
  split; [apply pass_load|].
  apply (enter_from_source_exit_to_source 0 JsNull), pass_load.
Defined.

(** ** Empty folders *)

Lemma normalize_node_data n : Node.data (normalize_node n) = Node.data n.
Proof.
  unfold normalize_node. destruct (data_children (Node.data n)) as [[|c cs]|]; try done.
  by destruct (negb (Node.hasOwn_children n) && negb (Node.hasOwn__children n)), n.
Qed.

(** The filter of entering glyphicons keeps every node whose record has
    an empty [children] array. *)
Lemma filter_entering_clicks ds : ∀ σ i a c n,
  ds !! i = Some a → (filter_entering ds σ).1 !! i = Some c →
  σ !! a = Some n → data_children (Node.data n) = Some [] → c = true.
Proof.
  induction ds as [|d ds IH]; intros σ i a c n Ha Hc Hn Hd; [done|].
  cbn [filter_entering] in Hc. rewrite entering_filter_eq in Hc.
  destruct (filter_entering ds (alter normalize_node d σ)) as [bs σ2] eqn:Hf.
  destruct i as [|i]; simpl in Ha, Hc.
  - injection Ha as ->. injection Hc as <-.
    rewrite (has_slot_lookup _ a (normalize_node n))
      by (by rewrite list_lookup_alter_eq, Hn).
    apply normalize_node_normalized. by rewrite normalize_node_data.
  - assert (∃ n1, alter normalize_node d σ !! a = Some n1 ∧ Node.data n1 = Node.data n)
      as (n1 & Hn1 & Hd1).
    { destruct (decide (d = a)) as [->|Hne].
      - exists (normalize_node n). rewrite list_lookup_alter_eq, Hn.
        split; [done|]. apply normalize_node_data.
      - exists n. by rewrite list_lookup_alter_ne. }
    apply (IH (alter normalize_node d σ) i a c n1); try done.
    + by rewrite Hf.
    + by rewrite Hd1.
Qed.

Lemma folder_icon_slot σ a :
  has_slot σ a = true → folder_icon σ a ≠ glyph_e022.
Proof.
  unfold has_slot, folder_icon.
  by destruct (hasOwn_children σ a), (hasOwn__children σ a).
Qed.

Section Folders.
Context (min_height : Z) (tooltip_key : JsValue).

Lemma update_folders S st T st' :
  tree_inv st T → ids_inv st → scene_inv st → scene_folders st →
  update min_height tooltip_key S st = Some st' →
  scene_folders st'.
Proof.
  intros Htree Hids Hscene Hf Hup.
  destruct (update_spec min_height tooltip_key S st T Htree Hids Hscene)
    as (σ1 & σ3 & σ4 & clicks & data_links & st'' & Hup' & _ & _ & _ &
        _ & Hσ4 & Hσ5 & _ & _ & [Hlen Hfe] & Hnodes & _).
  assert (st'' = st') as -> by congruence.
  destruct (update_inv min_height tooltip_key S st T Htree Hids Hscene)
    as (st'' & Hup'' & _ & _ & _ & _ & Hdata & _).
  assert (st'' = st') as -> by congruence.
  intros e n' He Hn' Hd. rewrite Hnodes in He. apply elem_of_app in He as [He|He].
  - apply list_elem_of_fmap in He as (e0 & -> & He0). simpl in *.
    destruct (agree_lookup Node.data (st_heap st') (st_heap st) (datum e0) n')
      as (n & Hn & Hdn); [by apply agree_sym|done|].
    apply (Hf e0 n); [done|done|]. by rewrite Hdn.
  - apply list_elem_of_lookup in He as [i Hi].
    apply lookup_zip_with_Some in Hi as (a & c & -> & Ha & Hc). simpl in *.
    assert (a ∈ filter (λ a, find_elem a 0 (st_nodes st) = None)
                  (breadth_first (length (st_heap st)) (st_heap st) [T])) as Hin
      by by eapply list_elem_of_lookup_2.
    rewrite Hσ5 in Hn'.
    destruct (σ4 !! a) as [n4|] eqn:Hn4; [|done].
    assert (Node.data n4 = Node.data n') as Hd4.
    { simpl in Hn'. injection Hn' as <-. case_decide; [by destruct n4|done]. }
    pose proof (Hσ4 a) as Hn3. rewrite Hn4 in Hn3.
    rewrite decide_True in Hn3 by done.
    destruct (σ3 !! a) as [n3|] eqn:Hn3'; [|done]. simpl in Hn3.
    injection Hn3 as ->. rewrite normalize_node_data in Hd4. split.
    + eapply (filter_entering_clicks _ σ3 i a c n3); [exact Ha| |done|].
      * by rewrite Hfe.
      * by rewrite Hd4.
    + apply folder_icon_slot. rewrite (has_slot_lookup _ _ _ Hn4).
      apply normalize_node_normalized. by rewrite normalize_node_data, Hd4.
Qed.

Lemma toggled_folders this d st T :
  session_inv st T → scene_folders st → scene_folders (toggled this d st).
Proof.
  intros Hinv Hf.
  destruct (toggled_inv this d st T Hinv) as (_ & _ & _ & Hren & _).
  rewrite rendered_lookup in Hren.
  assert (agree Node.data (st_heap st) (toggle d (st_heap st))) as Hdata.
  { apply toggle_agree. intros n n' Ht. by destruct (toggled_node_rest _ _ Ht) as (_ & -> & _). }
  assert (∀ e0 n', e0 ∈ st_nodes st →
            toggle d (st_heap st) !! datum e0 = Some n' →
            data_children (Node.data n') = Some [] →
            glyph_click e0 = true ∧ glyph_text e0 ≠ glyph_e022) as Hold.
  { intros e0 n' He0 Hn' Hd.
    destruct (agree_lookup Node.data _ _ (datum e0) n' (agree_sym _ _ _ Hdata) Hn')
      as (n & Hn & Hdn).
    apply (Hf e0 n); [done|done|]. by rewrite Hdn. }
  intros e n' He Hn' Hd. simpl in He, Hn'.
  apply list_elem_of_lookup in He as [i Hi].
  destruct (decide (this = i)) as [->|Hne].
  - rewrite list_lookup_alter_eq in Hi.
    destruct (st_nodes st !! i) as [e0|] eqn:He0; [|done]. simpl in Hi.
    injection Hi as <-. simpl in *. split.
    + eapply Hold; [by eapply list_elem_of_lookup_2|done|done].
    + apply folder_icon_slot. rewrite (has_slot_lookup _ _ _ Hn').
      destruct (Hren _ _ Hn') as (_ & Hs & _). by apply Hs.
  - rewrite list_lookup_alter_ne in Hi by done.
    eapply Hold; [by eapply list_elem_of_lookup_2|done|done].
Qed.

Lemma transitions_end_folders st :
  scene_folders st → scene_folders (transitions_end st).
Proof.
  intros Hf e n He Hn Hd. simpl in He, Hn.
  apply list_elem_of_omap in He as (e0 & He0 & Hend).
  unfold end_node_transition in Hend.
  destruct (transition e0) as [t|]; [|simplify_eq; by eapply Hf].
  destruct (then_remove t); [done|]. simplify_eq. simpl in *. by eapply Hf.
Qed.

Lemma run_folders evs : ∀ st T st',
  session_inv st T → scene_hover tooltip_key st → scene_folders st →
  run min_height tooltip_key evs st = Some st' →
  session_inv st' T ∧ scene_folders st'.
Proof.
  induction evs as [|ev evs IH]; intros st T st' Hinv Hh Hf Hrun; simpl in Hrun.
  { by simplify_eq. }
  destruct (dispatch_inv min_height tooltip_key ev st T Hinv Hh)
    as (st1 & Hd & Hinv1 & Hh1).
  rewrite Hd in Hrun. simpl in Hrun. apply (IH st1 T st'); try done.
  destruct ev as [this|]; simpl in Hd.
  - destruct (st_nodes st !! this) as [e|]; [|by simplify_eq].
    destruct (glyph_click e); [|by simplify_eq].
    pose proof (toggled_inv this (datum e) st T Hinv) as (? & ? & ? & _).
    eapply (update_folders (datum e) (toggled this (datum e) st) T); try done.
    by eapply toggled_folders.
  - simplify_eq. by apply transitions_end_folders.
Qed.

Lemma session_folders data evs st :
  session min_height tooltip_key data evs = Some st →
  ∃ T, session_inv st T ∧ scene_folders st.
Proof.
  intros Hs. unfold session in Hs.
  destruct (load_inv min_height tooltip_key data) as (st0 & T & Hl & Hinv & Hh).
  rewrite Hl in Hs. simpl in Hs. exists T.
  apply (run_folders evs st0 T st); try done.
  destruct (loaded_spec data) as (T0 & Hroot & Htree & Hids & Hscene & Hnil & _).
  unfold load_callback in Hl.
  destruct (loaded data init) as [root st00]. simpl in *.
  destruct (update min_height tooltip_key root st00) as [st0'|] eqn:Hup; [|done].
  simpl in Hl. injection Hl as ->.
  eapply (update_folders root st00 T0); try done.
  intros e n He. rewrite Hnil in He. by apply elem_of_nil in He.
Qed.
End Folders.

Lemma entering_filter_slot σ d :
  has_slot σ d = true → entering_filter d σ = (true, σ).
Proof.
  intros Hs. rewrite entering_filter_eq.
  destruct (σ !! d) as [n|] eqn:Hn.
  2:{ unfold has_slot, hasOwn_children, hasOwn__children in Hs. by rewrite Hn in Hs. }
  assert (alter normalize_node d σ = σ) as ->; [|by rewrite Hs].
  apply list_eq. intros a. destruct (decide (a = d)) as [->|Hne].
  - rewrite list_lookup_alter_eq, Hn. simpl. f_equal.
    apply normalize_node_shape_keep. intros _. by rewrite <-(has_slot_lookup σ d n).
  - by rewrite list_lookup_alter_ne.
Qed.

Lemma entering_filter_fresh σ d n :
  σ !! d = Some n → data_children (Node.data n) = Some [] → has_slot σ d = false →
  entering_filter d σ = (true, alter (Node.set_children (Some CNull)) d σ) ∧
  folder_icon (alter (Node.set_children (Some CNull)) d σ) d = glyph_e118.
Proof.
  intros Hn Hd Hs. rewrite (has_slot_lookup _ _ _ Hn) in Hs.
  assert (hasOwn_children (alter (Node.set_children (Some CNull)) d σ) d = true) as Hc.
  { unfold hasOwn_children. by rewrite list_lookup_alter_eq, Hn. }
  split; [|unfold folder_icon; by rewrite Hc].
  apply orb_false_elim in Hs as [Hs1 Hs2].
  assert (hasOwn_children σ d = false) as Hn1 by (unfold hasOwn_children; by rewrite Hn).
  assert (hasOwn__children σ d = false) as Hn2 by (unfold hasOwn__children; by rewrite Hn).
  unfold entering_filter, get. rewrite Hn. simpl.
  destruct (Node.data n) as [f k]. simpl in Hd. subst k.
  rewrite Hn1, Hn2. simpl. by rewrite Hc.
Qed.

(** C3, as the code has it.  A node whose record has an empty [children]
    array is a folder in every state of every session: it holds a child
    list property, the element that shows it has the click listener and a
    folder icon, never the file icon.  The filter of entering glyphicons
    gives a node that has neither property [children = null], which draws
    the open folder; it leaves a node that has one of them as it is. *)
Theorem empty_children_rendered_as_folder min_height tooltip_key data evs st :
  session min_height tooltip_key data evs = Some st →
  (∀ a n, st_heap st !! a = Some n → data_children (Node.data n) = Some [] →
     has_slot (st_heap st) a = true) ∧
  (∀ e n, e ∈ st_nodes st → st_heap st !! datum e = Some n →
     data_children (Node.data n) = Some [] →
     glyph_click e = true ∧ glyph_text e ≠ glyph_e022) ∧
  (∀ σ d n, σ !! d = Some n → data_children (Node.data n) = Some [] →
     has_slot σ d = false →
     entering_filter d σ = (true, alter (Node.set_children (Some CNull)) d σ) ∧
     folder_icon (alter (Node.set_children (Some CNull)) d σ) d = glyph_e118) ∧
  (∀ σ d, has_slot σ d = true → entering_filter d σ = (true, σ)).
Proof.
  intros Hs.
  destruct (session_folders _ _ _ _ _ Hs) as (T & (_ & _ & _ & Hren & _) & Hf).
  split_and!.
  - by destruct Hren as (_ & ? & _).
  - done.
  - apply entering_filter_fresh.
  - apply entering_filter_slot.
Qed.

(** The empty folder, loaded. *)
Lemma empty_children_rendered_as_folder_witness :
  session 0 JsNull empty_folder [] = Some empty_folder_state ∧
  (∀ a n, st_heap empty_folder_state !! a = Some n →
     data_children (Node.data n) = Some [] →
     has_slot (st_heap empty_folder_state) a = true) ∧
  (∀ e n, e ∈ st_nodes empty_folder_state →
     st_heap empty_folder_state !! datum e = Some n →
     data_children (Node.data n) = Some [] →
     glyph_click e = true ∧ glyph_text e ≠ glyph_e022) ∧
  (∀ σ d n, σ !! d = Some n → data_children (Node.data n) = Some [] →
     has_slot σ d = false →
     entering_filter d σ = (true, alter (Node.set_children (Some CNull)) d σ) ∧
     folder_icon (alter (Node.set_children (Some CNull)) d σ) d = glyph_e118) ∧
  (∀ σ d, has_slot σ d = true → entering_filter d σ = (true, σ)).
Proof.
  split; [by vm_compute|].
  apply (empty_children_rendered_as_folder 0 JsNull empty_folder []). by vm_compute.
Defined.

(** C3, as stated, fails on the record [{name: "d", children: []}]: its
    element is drawn with the open-folder icon and has the click
    listener. *)
Lemma empty_children_rendered_as_leaf_counterexample :
  ∃ e n,
    session 0 JsNull empty_folder [] = Some empty_folder_state ∧
    st_nodes empty_folder_state = [e] ∧
    st_heap empty_folder_state !! datum e = Some n ∧
    data_children (Node.data n) = Some [] ∧
    glyph_text e = glyph_e118 ∧ glyph_text e ≠ glyph_e022 ∧
    glyph_click e = true.
Proof.
  do 2 eexists. split; [by vm_compute|]. split; [vm_compute; reflexivity|].
  split; [vm_compute; reflexivity|]. by vm_compute.
Qed.

(** ** The link join *)

(** C7.  The link join has no key function: [svg.selectAll(".link")
    .data(root.links())] matches the paths and the links by their index.
    With two folders [a] and [b] of one file each, the four paths drawn are
    root-a, root-b, a-c and b-d.  After a click on [a] the links are
    root-a, root-b and b-d: the third path, which drew a-c, is given the
    link b-d and stays, and the fourth, which drew b-d, exits and is
    removed, although its link is still there. *)
Theorem link_join_is_by_index :
  session 0 JsNull two_folders [TransitionsEnd] = Some two_folders_shown ∧
  map link_datum (st_links two_folders_shown)
  = [mkLink (Some 0) 1; mkLink (Some 0) 3; mkLink (Some 1) 2; mkLink (Some 3) 4] ∧
  dispatch 0 JsNull (Click 1) two_folders_shown = Some two_folders_collapsed ∧
  links 0 (st_heap two_folders_collapsed)
  = Some [mkLink (Some 0) 1; mkLink (Some 0) 3; mkLink (Some 3) 4] ∧
  map (λ e, (link_datum e, snd <$> link_transition e)) (st_links two_folders_collapsed)
  = [(mkLink (Some 0) 1, Some false); (mkLink (Some 0) 3, Some false);
     (mkLink (Some 3) 4, Some false); (mkLink (Some 3) 4, Some true)].
Proof. by vm_compute. Qed.

(** ** The tooltip *)

Lemma tooltip_key_str_string tooltip_key :
  strict_ne_null (tooltip_key_str tooltip_key)
  = typeof_string tooltip_key || instanceof_String tooltip_key.
Proof. by destruct tooltip_key. Qed.

Lemma tooltip_key_str_key tooltip_key :
  typeof_string tooltip_key || instanceof_String tooltip_key = true →
  tooltip_key_str tooltip_key = tooltip_key ∧ is_Some (property_key tooltip_key).
Proof. destruct tooltip_key; try done; by split. Qed.

(** C9, as the code has it.  In every state of every session the file
    name of an element has the three hover listeners exactly when the
    tooltip key is a string, primitive or [String] object, the empty
    string included; the tooltip then shows the field of the node's record
    that the key names.  With [null], or with no key, no element has
    them. *)
Theorem tooltip_enabled_iff_string_key min_height tooltip_key data evs st :
  session min_height tooltip_key data evs = Some st →
  ∀ e, e ∈ st_nodes st →
    filename_hover e = typeof_string tooltip_key || instanceof_String tooltip_key ∧
    (filename_hover e = true →
     ∃ key n, property_key tooltip_key = Some key ∧
              st_heap st !! datum e = Some n ∧
              tooltip_text tooltip_key (st_heap st) (datum e)
              = data_get key (Node.data n)).
Proof.
  intros Hs e He.
  destruct (session_inv_of _ _ _ _ _ Hs) as (T & (_ & _ & (_ & Hshown) & _) & Hh).
  rewrite (Hh e He), tooltip_key_str_string. split; [done|]. intros Hstr.
  destruct (tooltip_key_str_key _ Hstr) as [Heq [key Hkey]].
  destruct (Hshown e He) as [k Hk]. apply get_Some_lookup in Hk as (n & Hn & _).
  exists key, n. split_and!; try done.
  unfold tooltip_text. by rewrite Heq, Hkey, Hn.
Qed.

(** Scenario A with the names for tooltips. *)
Lemma tooltip_enabled_iff_string_key_witness :
  session 0 (JsString "name") scenario_A [] = Some scenario_A_named ∧
  ∀ e, e ∈ st_nodes scenario_A_named →
    filename_hover e
    = typeof_string (JsString "name") || instanceof_String (JsString "name") ∧
    (filename_hover e = true →
     ∃ key n, property_key (JsString "name") = Some key ∧
              st_heap scenario_A_named !! datum e = Some n ∧
              tooltip_text (JsString "name") (st_heap scenario_A_named) (datum e)
              = data_get key (Node.data n)).
Proof.
  split; [by vm_compute|].
  apply (tooltip_enabled_iff_string_key 0 (JsString "name") scenario_A []).
  by vm_compute.
Defined.

(** C9, as stated, fails for the empty string: it is a string, so the
    listeners are attached. *)
Lemma empty_tooltip_key_counterexample :
  ∃ e,
    session 0 (JsString "") empty_folder [] = Some empty_key_state ∧
    st_nodes empty_key_state = [e] ∧
    strict_ne_null (JsString "") = true ∧
    property_key (JsString "") = Some ""%string ∧
    filename_hover e = true.
Proof.
  eexists. split; [by vm_compute|]. split; [vm_compute; reflexivity|]. by vm_compute.
Qed.

Lemma update_tooltip_key min_height tooltip_key tooltip_key' S st :
  tooltip_key_str tooltip_key = tooltip_key_str tooltip_key' →
  update min_height tooltip_key S st = update min_height tooltip_key' S st.
Proof. intros H. unfold update, entering_node. by rewrite H. Qed.

Lemma run_tooltip_key min_height tooltip_key tooltip_key' evs : ∀ st,
  tooltip_key_str tooltip_key = tooltip_key_str tooltip_key' →
  run min_height tooltip_key evs st = run min_height tooltip_key' evs st.
Proof.
  induction evs as [|ev evs IH]; intros st H; [done|]. simpl.
  assert (dispatch min_height tooltip_key ev st = dispatch min_height tooltip_key' ev st)
    as ->.
  { destruct ev as [this|]; [|done]. simpl.
    destruct (st_nodes st !! this) as [e|]; [|done].
    destruct (glyph_click e); [|done]. by apply update_tooltip_key. }
  destruct (dispatch min_height tooltip_key' ev st) as [st1|]; [|done]. simpl.
  by apply IH.
Qed.

Lemma session_tooltip_key min_height tooltip_key tooltip_key' data evs :
  tooltip_key_str tooltip_key = tooltip_key_str tooltip_key' →
  session min_height tooltip_key data evs = session min_height tooltip_key' data evs.
Proof.
  intros H. unfold session, load_callback.
  destruct (loaded data init) as [root st0].
  rewrite (update_tooltip_key _ _ _ _ _ H).
  destruct (update min_height tooltip_key' root st0) as [st1|]; [|done]. simpl.
  by apply run_tooltip_key.
Qed.

(** C10.  A tooltip key that is not [null] and not a string, primitive or
    object, is dropped: [tooltip_key_str] stays [null], every session runs
    as it does with [null] for the key, to the same state, and no element
    has hover listeners. *)
Theorem non_string_tooltip_key_is_ignored min_height tooltip_key :
  strict_ne_null tooltip_key = true →
  typeof_string tooltip_key = false →
  instanceof_String tooltip_key = false →
  tooltip_key_str tooltip_key = JsNull ∧
  ∀ data evs, ∃ st,
    session min_height tooltip_key data evs = Some st ∧
    session min_height JsNull data evs = Some st ∧
    ∀ e, e ∈ st_nodes st → filename_hover e = false.
Proof.
  intros Hnn Hty Hinst.
  assert (tooltip_key_str tooltip_key = JsNull) as Hnull.
  { unfold tooltip_key_str. by rewrite Hnn, Hty, Hinst. }
  split; [done|]. intros data evs.
  destruct (session_inv_total min_height tooltip_key data evs) as (st & T & Hs & _ & Hh).
  exists st. split_and!; [done| |].
  - rewrite <-Hs. symmetry. by apply session_tooltip_key.
  - intros e He. by rewrite (Hh e He), Hnull.
Qed.

(** The number 5 for a key. *)
Lemma non_string_tooltip_key_is_ignored_witness :
  strict_ne_null (JsNumber 5) = true ∧
  typeof_string (JsNumber 5) = false ∧
  instanceof_String (JsNumber 5) = false ∧
  tooltip_key_str (JsNumber 5) = JsNull ∧
  ∀ data evs, ∃ st,
    session 0 (JsNumber 5) data evs = Some st ∧
    session 0 JsNull data evs = Some st ∧
    ∀ e, e ∈ st_nodes st → filename_hover e = false.
Proof.
  split; [reflexivity|]. split; [reflexivity|]. split; [reflexivity|].
  apply (non_string_tooltip_key_is_ignored 0 (JsNumber 5)); reflexivity.
Defined.

(** * More about the widget *)

(** ** Proving an invariant of sessions *)

(** A heap holds one tree below a node. *)
Lemma Repr_unique σ t : ∀ par dep t' par' dep',
  Repr σ par dep t → Repr σ par' dep' t' → taddr t = taddr t' → t = t'.
Proof.
  induction t as [a kids IH] using Tree_ind.
  intros par dep [b kids'] par' dep' Hr Hr' Hta. simpl in Hta. subst b.
  apply Repr_inv in Hr as (n & Hn & _ & _ & Hs & _ & Hk).
  apply Repr_inv in Hr' as (n' & Hn' & _ & _ & Hs' & _ & Hk').
  assert (n' = n) as -> by congruence. f_equal.
  rewrite Hs in Hs'. clear Hs Hn Hn'.
  revert kids' Hs' Hk'. induction kids as [|k kids IHk]; intros [|k' kids'] Hs' Hk';
    try done.
  simpl in Hs'. injection Hs' as Hk1 Hrest.
  apply Forall_cons in IH as [IH1 IH2]. apply Forall_cons in Hk as [Hr Hk].
  apply Forall_cons in Hk' as [Hr' Hk'].
  f_equal; [|by apply IHk].
  eapply IH1; [exact Hr|exact Hr'|done].
Qed.

Section Invariant.
Context (min_height : Z) (tooltip_key : JsValue).

Lemma run_app evs1 : ∀ evs2 st,
  run min_height tooltip_key (evs1 ++ evs2) st
  = run min_height tooltip_key evs1 st ≫= run min_height tooltip_key evs2.
Proof.
  induction evs1 as [|ev evs1 IH]; intros evs2 st; simpl; [done|].
  destruct (dispatch min_height tooltip_key ev st) as [st1|]; [|done]. apply IH.
Qed.

(** A property holds of every state of every session when the pass of
    [load] establishes it and clicks and the end of the transitions keep
    it. *)
Lemma session_invariant (P : State → Prop) :
  (∀ data T st',
     tree_inv (loaded data init).2 T → (loaded data init).1 = taddr T →
     st_nodes (loaded data init).2 = [] → st_links (loaded data init).2 = [] →
     session_inv st' T →
     update min_height tooltip_key (loaded data init).1 (loaded data init).2 = Some st' →
     P st') →
  (∀ st T this e st',
     session_inv st T → P st →
     st_nodes st !! this = Some e → glyph_click e = true →
     session_inv st' T →
     click min_height tooltip_key this (datum e) st = Some st' → P st') →
  (∀ st T, session_inv st T → P st → P (transitions_end st)) →
  ∀ data evs st,
    session min_height tooltip_key data evs = Some st →
    ∃ T, session_inv st T ∧ P st.
Proof.
  intros Hload Hclick Hend data evs st Hs. unfold session in Hs.
  destruct (load_inv min_height tooltip_key data) as (st0 & T & Hl & Hinv & Hh).
  rewrite Hl in Hs. exists T.
  assert (P st0) as HP0.
  { destruct (loaded_spec data) as (T0 & Hroot & Htree & Hids & Hscene & Hnil & _).
    unfold load_callback in Hl.
    assert (st_links (loaded data init).2 = []) as Hnil'.
    { unfold loaded. by destruct (hierarchy data (st_heap init)). }
    destruct (loaded data init) as [root st00] eqn:Hld. simpl in *.
    destruct (update min_height tooltip_key root st00) as [st0'|] eqn:Hup; [|done].
    simpl in Hl. injection Hl as ->.
    assert (T0 = T) as ->.
    { destruct Hinv as ((Hr1 & HT1 & _) & _).
      destruct (update_inv min_height tooltip_key root st00 T0 Htree Hids Hscene)
        as (st1 & Hup1 & (Hr0 & HT0 & _) & _).
      assert (st1 = st0) as -> by congruence.
      eapply Repr_unique; [exact HT0|exact HT1|congruence]. }
    apply (Hload data T st0); rewrite ?Hld; simpl; done. }
  clear Hl. revert st0 Hinv Hh HP0 Hs.
  induction evs as [|ev evs IH]; intros st0 Hinv Hh HP0 Hs; simpl in Hs.
  { by simplify_eq. }
  destruct (dispatch_inv min_height tooltip_key ev st0 T Hinv Hh)
    as (st1 & Hd & Hinv1 & Hh1).
  rewrite Hd in Hs. apply (IH st1); try done.
  destruct ev as [this|]; simpl in Hd.
  - destruct (st_nodes st0 !! this) as [e|] eqn:He; [|by simplify_eq].
    destruct (glyph_click e) eqn:Hc; [|by simplify_eq].
    by eapply (Hclick st0 T this e st1).
  - simplify_eq. by eapply Hend.
Qed.
End Invariant.

(** ** One pass, step by step *)

Section Pass.
Context (min_height : Z) (tooltip_key : JsValue).

(** The heaps of a pass: [σ3] after the layout and the join, [σ4] after
    the filter of entering nodes, and the heap of the result after the
    stash. *)
Lemma update_pass S st T :
  tree_inv st T → ids_inv st → scene_inv st →
  ∃ σ3 σ4 clicks data_links st',
    let pre := preorder (st_heap st) T in
    let bf := breadth_first (length (st_heap st)) (st_heap st) [T] in
    let entering := filter (λ a, find_elem a 0 (st_nodes st) = None) bf in
    update min_height tooltip_key S st = Some st' ∧
    (∀ B (f : Node.t → B),
       (∀ r n, f (layout_node r n) = f n) → (∀ k n, f (Node.set_id k n) = f n) →
       agree f (st_heap st) σ3) ∧
    (∀ a, σ4 !! a
          = (if decide (a ∈ entering) then normalize_node else λ n, n) <$> σ3 !! a) ∧
    (∀ a, st_heap st' !! a
          = (if decide (a ∈ pre) then stash_node else λ n, n) <$> σ4 !! a) ∧
    bf ≡ₚ pre ∧ NoDup pre ∧ NoDup entering ∧
    (∀ a, a ∈ entering ↔ a ∈ pre ∧ ∀ e, e ∈ st_nodes st → datum e ≠ a) ∧
    filter_entering entering σ3 = (clicks, σ4) ∧
    length clicks = length entering ∧
    st_nodes st'
    = map (λ e, moved_node σ4 S (bool_decide (datum e ∈ pre)) e) (st_nodes st)
      ++ zip_with (entering_node tooltip_key S σ3 σ4) entering clicks ∧
    links (taddr T) σ4 = Some data_links ∧
    st_links st' = join_links S σ4 (st_links st) data_links ∧
    (∀ i a, pre !! i = Some a →
       ∃ n, st_heap st !! a = Some n ∧
            placement <$> σ3 !! a = Some (placement (layout_node (Z.of_nat i) n))).
Proof.
  intros Htree Hids Hscene.
  destruct (update_spec min_height tooltip_key S st T Htree Hids Hscene)
    as (σ1 & σ3 & σ4 & clicks & data_links & st' & Hup & Hlay & Hrel13 & Hout3 &
        Hid3 & Hσ4 & Hσ5 & Hroot' & Hids' & [Hclicks Hfe] & Hnodes' & Hdl & Hlinks').
  destruct Htree as (Hroot & HT & Hnd & Hall).
  destruct Hscene as (Hscene & Hshown).
  set (σ0 := st_heap st) in *. set (pre := preorder σ0 T) in *.
  set (bf := breadth_first (length σ0) σ0 [T]) in *.
  set (entering := filter (λ a, find_elem a 0 (st_nodes st) = None) bf) in *.
  assert (bf ≡ₚ pre) as Hbf.
  { unfold bf. rewrite breadth_first_preorder by apply (preorder_fuel σ0 T HT Hnd).
    simpl. by rewrite app_nil_r. }
  destruct (layout_result σ0 T σ1 pre HT Hnd Hlay) as (_ & Hpre & Hlen1 & Hlout & Hlin).
  assert (∀ {B} (f : Node.t → B), (∀ r n, f (layout_node r n) = f n) → agree f σ0 σ1)
    as Hag01.
  { intros B f Hf a. destruct (decide (a ∈ pre)) as [Ha|Ha].
    - apply list_elem_of_lookup in Ha as [i Hi]. rewrite (Hlin _ _ Hi).
      destruct (σ0 !! a); [|done]. cbn. by rewrite Hf.
    - by rewrite Hlout. }
  assert (∀ {B} (f : Node.t → B), (∀ k n, f (Node.set_id k n) = f n) → agree f σ1 σ3)
    as Hag13.
  { intros B f Hf. eapply heap_rel_agree; [|exact Hrel13].
    intros n n' [->|(_ & k & ->)]; [done | by rewrite Hf]. }
  exists σ3, σ4, clicks, data_links, st'. split_and!; try done.
  - intros B f Hf1 Hf2. eapply agree_trans; [by apply Hag01 | by apply Hag13].
  - apply NoDup_filter. by rewrite Hbf.
  - intros a. unfold entering. rewrite list_elem_of_filter, find_elem_None, Hbf. tauto.
  - intros i a Hi.
    destruct (Repr_lookup σ0 T None 0 a HT) as [n Hn].
    { eapply preorder_addrs. by eapply list_elem_of_lookup_2. }
    exists n. split; [done|].
    rewrite <-(Hag13 _ placement) by (by intros ? []).
    rewrite (Hlin i a Hi), Hn. done.
Qed.

Lemma update_height S st T st' :
  tree_inv st T →
  update min_height tooltip_key S st = Some st' →
  st_height st'
  = Some (Z.max min_height
            (Z.of_nat (length (preorder (st_heap st) T)) * row_height + margin_top)).
Proof.
  intros (Hroot & HT & Hnd & Hall) Hup.
  assert (length (breadth_first (length (st_heap st)) (st_heap st) [T])
          = length (preorder (st_heap st) T)) as Hlen.
  { rewrite breadth_first_preorder by apply (preorder_fuel _ T HT Hnd).
    simpl. by rewrite app_nil_r. }
  unfold update in Hup. rewrite Hroot, (descendants_spec _ T HT Hnd) in Hup.
  destruct (layout _ _) as [[σ1 tr]|]; [|done].
  destruct (group_keys _ _) as [keys st2].
  destruct (bind_data _ _ _) as [joined st3].
  destruct (filter_entering _ _) as [clicks σ4].
  destruct (links _ _) as [dl|]; [|done].
  destruct (each _ _ _ _) as [[σ5 tr5]|]; [|done].
  injection Hup as <-. simpl. by rewrite Hlen.
Qed.
End Pass.

(** ** What [root.links()] returns *)

Lemma breadth_first_agree fuel : ∀ σ σ' ts,
  agree shape σ σ' → breadth_first fuel σ' ts = breadth_first fuel σ ts.
Proof.
  induction fuel as [|fuel IH]; intros σ σ' ts H; destruct ts as [|t ts]; try done.
  change (breadth_first (S fuel) σ' (t :: ts)) with
    (map taddr (t :: ts) ++ breadth_first fuel σ' (flat_map (expanded_kids σ') (t :: ts))).
  change (breadth_first (S fuel) σ (t :: ts)) with
    (map taddr (t :: ts) ++ breadth_first fuel σ (flat_map (expanded_kids σ) (t :: ts))).
  by rewrite (flat_map_expanded_kids_agree _ _ _ H), (IH σ σ').
Qed.

Section Links.
Context (σ : Store) (T : Tree).
Hypothesis HT : Repr σ None 0 T.
Hypothesis Hnd : NoDup (addrs T).

(** A link for every node that [each] visits, the root apart: from the
    parent of the node to the node. *)
Lemma links_spec :
  links (taddr T) σ
  = Some (map (λ a, mkLink (get Node.parent σ a) a)
            (filter (λ a, a ≠ taddr T) (breadth_first (length σ) σ [T]))).
Proof using HT Hnd.
  unfold links, each.
  assert (∀ n (s : Store * list Link),
            agree shape s.1
              (if bool_decide (n ≠ taddr T)
               then (s.1, s.2 ++ [mkLink (get Node.parent s.1 n) n])
               else s).1) as Hsh.
  { intros n s. destruct (bool_decide _); apply agree_refl. }
  pose proof (each_loop_spec (A := Store * list Link) fst _ Hsh
                (length σ) [T] (σ, [])) as H.
  simpl in H. simpl. rewrite H.
  - f_equal.
    generalize (breadth_first (length σ) σ [T]). intros l.
    assert (∀ acc,
              foldl (λ (s : Store * list Link) n,
                       if bool_decide (n ≠ taddr T)
                       then (s.1, s.2 ++ [mkLink (get Node.parent s.1 n) n])
                       else s) (σ, acc) l
              = (σ, acc ++ map (λ a, mkLink (get Node.parent σ a) a)
                             (filter (λ a, a ≠ taddr T) l))) as Hf.
    { induction l as [|x l IH]; intros acc; simpl; [by rewrite app_nil_r|].
      rewrite filter_cons. case_bool_decide as Hx.
      - destruct (decide (x ≠ taddr T)) as [_|Hx']; [|done]. simpl. rewrite IH.
        by rewrite <-app_assoc.
      - destruct (decide (x ≠ taddr T)) as [Hx'|_]; [done|]. apply IH. }
    by rewrite (Hf []).
  - constructor; [by exists None, 0 | constructor].
  - by apply preorder_fuel.
Qed.
End Links.

Lemma links_agree σ σ' T :
  Repr σ None 0 T → NoDup (addrs T) → agree shape σ σ' →
  links (taddr T) σ' = links (taddr T) σ.
Proof.
  intros HT Hnd H.
  assert (Repr σ' None 0 T) as HT'.
  { eapply Repr_agree; [|done]. by apply agree_shape_skeleton. }
  rewrite (links_spec σ T HT Hnd), (links_spec σ' T HT' Hnd). f_equal.
  rewrite <-(agree_length _ _ _ H), (breadth_first_agree _ σ σ') by done.
  apply map_ext. intros a.
  assert (agree Node.parent σ σ') as Hp.
  { eapply agree_weaken; [|exact H]. by intros [] [] [=]. }
  by rewrite (agree_get _ _ _ _ Hp).
Qed.

(** ** The scene follows the tree *)

Lemma visible_preorder st T a :
  tree_inv st T → visible (st_heap st) a ↔ a ∈ preorder (st_heap st) T.
Proof. intros (_ & HT & Hnd & Hall). symmetry. by apply preorder_visible. Qed.

Lemma position_agree σ σ' a :
  agree placement σ σ' → position σ' a = position σ a.
Proof.
  intros H. unfold position.
  assert (agree Node.x σ σ') as Hx by (eapply agree_weaken; [|exact H]; by intros [] [] [=]).
  assert (agree Node.y σ σ') as Hy by (eapply agree_weaken; [|exact H]; by intros [] [] [=]).
  by rewrite (agree_get _ _ _ _ Hx), (agree_get _ _ _ _ Hy).
Qed.

Lemma link_path_agree σ σ' l :
  agree (λ n, (Node.depth n, Node.row n)) σ σ' → link_path σ' l = link_path σ l.
Proof.
  intros H. unfold link_path.
  assert (agree (λ n, Some (Node.depth n)) σ σ') as Hd
    by (eapply agree_weaken; [|exact H]; intros [] [] [=]; simpl; congruence).
  assert (agree Node.row σ σ') as Hr
    by (eapply agree_weaken; [|exact H]; by intros [] [] [=]).
  rewrite (agree_get _ _ _ _ Hr).
  destruct (source l) as [s|]; [|done]. simpl.
  by rewrite (agree_get _ _ _ _ Hr), (agree_get _ _ _ _ Hd).
Qed.

(** What is left of a link join when its transitions have ended: a path
    for every link, whatever the paths were before. *)
Lemma join_links_end S σ group : ∀ data,
  omap end_link_transition (join_links S σ group data)
  = map (λ l, mkLinkElem l (link_path σ l) None) data.
Proof.
  unfold join_links.
  induction group as [|e group IH]; intros data.
  - simpl. rewrite drop_nil. simpl. induction data as [|l data IHd]; [done|].
    simpl. by f_equal.
  - destruct data as [|l data].
    + simpl. rewrite app_nil_r. clear IH.
      assert (∀ g : list LinkElem,
                omap end_link_transition
                  (map (λ e, mkLinkElem (link_datum e) (path_d e)
                               (Some (collapsed_path σ S false, true))) g) = []) as Hn.
      { induction g as [|x g IHg]; [done|]. simpl. apply IHg. }
      apply (Hn (e :: group)).
    + simpl. f_equal. apply IH.
Qed.

Lemma end_link_transition_idem (l : list LinkElem) :
  omap end_link_transition (omap end_link_transition l) = omap end_link_transition l.
Proof.
  induction l as [|e l IH]; [done|].
  change (omap end_link_transition (e :: l)) with
    (match end_link_transition e with
     | Some y => y :: omap end_link_transition l
     | None => omap end_link_transition l
     end).
  destruct (end_link_transition e) as [e'|] eqn:He; [|done].
  change (omap end_link_transition (e' :: omap end_link_transition l)) with
    (match end_link_transition e' with
     | Some y => y :: omap end_link_transition (omap end_link_transition l)
     | None => omap end_link_transition (omap end_link_transition l)
     end).
  assert (end_link_transition e' = Some e') as ->; [|by rewrite IH].
  unfold end_link_transition in *.
  destruct (link_transition e) as [[p r]|] eqn:Ht.
  - destruct r; [done|]. by simplify_eq.
  - simplify_eq. by rewrite Ht.
Qed.

Section Scene.
Context (min_height : Z) (tooltip_key : JsValue).

(** After a pass the tree is visited as before it. *)
Lemma update_after S st T st' :
  tree_inv st T → ids_inv st → scene_inv st →
  update min_height tooltip_key S st = Some st' →
  tree_inv st' T ∧
  preorder (st_heap st') T = preorder (st_heap st) T ∧
  (∀ a, visible (st_heap st') a ↔ visible (st_heap st) a).
Proof.
  intros Htree Hids Hscene Hup.
  destruct (update_inv min_height tooltip_key S st T Htree Hids Hscene)
    as (st'' & Hup' & Htree' & _).
  assert (st'' = st') as -> by congruence.
  destruct (update_pass min_height tooltip_key S st T Htree Hids Hscene)
    as (σ3 & σ4 & clicks & data_links & st'' & Hup'' & Hag & Hσ4 & Hσ5 & _).
  assert (st'' = st') as -> by congruence.
  assert (preorder (st_heap st') T = preorder (st_heap st) T) as Hpre.
  { pose proof Htree as (_ & HT & _).
    assert (agree shape (st_heap st) σ3) as H03 by (apply Hag; by intros ? []).
    assert (Repr σ3 None 0 T) as HT3.
    { eapply Repr_agree; [|done]. by apply agree_shape_skeleton. }
    assert (heap_rel normalized_from σ3 σ4) as H34.
    { intros a. rewrite Hσ4. destruct (σ3 !! a) as [n|]; [|constructor].
      simpl. constructor. case_decide; [apply normalize_node_from | by left]. }
    assert (agree shape σ4 (st_heap st')) as H45.
    { eapply (pointwise_agree shape stash_node
                (λ a, a ∈ preorder (st_heap st) T)); [done|]. apply stash_node_shape. }
    rewrite (preorder_agree σ4 (st_heap st')) by done.
    rewrite (preorder_normalized σ3 σ4 T None 0) by done.
    by rewrite (preorder_agree (st_heap st) σ3). }
  split_and!; try done.
  intros a. by rewrite (visible_preorder st' T), (visible_preorder st T), Hpre.
Qed.

Lemma update_sync S st T st' :
  tree_inv st T → ids_inv st → scene_inv st →
  update min_height tooltip_key S st = Some st' →
  scene_shown st' ∧ scene_sync st'.
Proof.
  intros Htree Hids Hscene Hup.
  destruct (update_after S st T st' Htree Hids Hscene Hup) as (Htree' & Hpre & Hvis).
  destruct (update_pass min_height tooltip_key S st T Htree Hids Hscene)
    as (σ3 & σ4 & clicks & data_links & st'' & Hup'' & Hag & Hσ4 & Hσ5 & _ & _ & _ &
        Hent & _ & Hlen & Hnodes & _).
  assert (st'' = st') as -> by congruence.
  assert (∀ a, position (st_heap st') a = position σ4 a) as Hpos.
  { intros a. apply position_agree.
    eapply (pointwise_agree placement stash_node
              (λ a, a ∈ preorder (st_heap st) T)); [done|]. by intros []. }
  split.
  - intros a Ha. apply Hvis in Ha. rewrite (visible_preorder st T) in Ha by done.
    rewrite Hnodes.
    destruct (find_elem a 0 (st_nodes st)) as [j|] eqn:Hj.
    + apply find_elem_Some in Hj as (e & He & Hd & _).
      exists (moved_node σ4 S (bool_decide (datum e ∈ preorder (st_heap st) T)) e).
      split; [|done]. apply elem_of_app. left. apply list_elem_of_fmap.
      exists e. split; [done|]. by eapply list_elem_of_lookup_2.
    + rewrite find_elem_None in Hj.
      assert (a ∈ filter (λ a, find_elem a 0 (st_nodes st) = None)
                    (breadth_first (length (st_heap st)) (st_heap st) [T])) as Hin
        by by apply Hent.
      apply list_elem_of_lookup in Hin as [i Hi].
      destruct (clicks !! i) as [c|] eqn:Hc.
      2:{ apply lookup_ge_None in Hc. apply lookup_lt_Some in Hi. lia. }
      exists (entering_node tooltip_key S σ3 σ4 a c). split; [|done].
      apply elem_of_app. right. apply list_elem_of_lookup. exists i.
      apply lookup_zip_with_Some. eauto.
  - intros e He. rewrite Hnodes in He. rewrite Hvis, (visible_preorder st T) by done.
    apply elem_of_app in He as [He|He].
    + apply list_elem_of_fmap in He as (e0 & -> & He0). simpl. split.
      * intros Hin. left. rewrite bool_decide_eq_true_2 by done. by rewrite Hpos.
      * intros Hout. rewrite bool_decide_eq_false_2 by done. by eexists.
    + apply list_elem_of_lookup in He as [i Hi].
      apply lookup_zip_with_Some in Hi as (a & c & -> & Ha & Hc). simpl. split.
      * intros _. left. by rewrite Hpos.
      * intros Hout. exfalso. apply Hout. eapply Hent. by eapply list_elem_of_lookup_2.
Qed.

Lemma transitions_end_sync st :
  scene_shown st ∧ scene_sync st →
  scene_shown (transitions_end st) ∧ scene_sync (transitions_end st).
Proof.
  intros [Hshown Hsync]. split.
  - intros a Ha. simpl in Ha. destruct (Hshown a Ha) as (e & He & <-).
    destruct (Hsync e He) as [Hv _]. specialize (Hv Ha).
    destruct (end_node_transition e) as [e'|] eqn:Hend.
    + exists e'. split.
      * simpl. apply list_elem_of_omap. by exists e.
      * unfold end_node_transition in Hend.
        destruct Hv as [Ht|(Ht & _)]; rewrite Ht in Hend; simpl in Hend; by simplify_eq.
    + exfalso. unfold end_node_transition in Hend.
      destruct Hv as [Ht|(Ht & _)]; by rewrite Ht in Hend.
  - intros e' He'. simpl in He'. apply list_elem_of_omap in He' as (e & He & Hend).
    destruct (Hsync e He) as [Hv Hn]. simpl.
    unfold end_node_transition in Hend.
    destruct (transition e) as [t|] eqn:Ht.
    + destruct (then_remove t) eqn:Hr; [done|]. simplify_eq. simpl. split.
      * intros Ha. right. destruct (Hv Ha) as [Ht'|(Ht' & _)]; [|done].
        by simplify_eq.
      * intros Ha. destruct (Hn Ha) as [p Hp]. by simplify_eq.
    + simplify_eq. split.
      * intros Ha. right. destruct (Hv Ha) as [Ht'|Ht']; [congruence|].
        by destruct Ht' as (_ & ? & ?).
      * intros Ha. destruct (Hn Ha) as [p Hp]. congruence.
Qed.

Lemma update_links_sync S st T st' :
  tree_inv st T → ids_inv st → scene_inv st →
  update min_height tooltip_key S st = Some st' →
  links_sync st'.
Proof.
  intros Htree Hids Hscene Hup.
  destruct (update_after S st T st' Htree Hids Hscene Hup)
    as ((Hroot' & HT' & Hnd & _) & _).
  destruct (update_pass min_height tooltip_key S st T Htree Hids Hscene)
    as (σ3 & σ4 & clicks & data_links & st'' & Hup'' & Hag & Hσ4 & Hσ5 & _ & _ & _ &
        _ & _ & _ & _ & Hdl & Hlinks & _).
  assert (st'' = st') as -> by congruence.
  assert (∀ B (f : Node.t → B), (∀ n, f (stash_node n) = f n) →
            agree f σ4 (st_heap st')) as H45.
  { intros B f Hf.
    by eapply (pointwise_agree f stash_node (λ a, a ∈ preorder (st_heap st) T)). }
  exists data_links. split.
  - rewrite Hroot'. simpl. rewrite <-Hdl.
    symmetry. apply links_agree; [done|done|].
    apply agree_sym, H45, stash_node_shape.
  - rewrite Hlinks, join_links_end. apply map_ext. intros l. f_equal.
    symmetry. apply link_path_agree, H45. by intros [].
Qed.

Lemma transitions_end_links_sync st :
  links_sync st → links_sync (transitions_end st).
Proof.
  intros (dl & Hdl & Hl). exists dl. split; [done|]. simpl.
  by rewrite end_link_transition_idem.
Qed.

(** In every state of a session the scene follows the tree. *)
Lemma session_sync data evs st :
  session min_height tooltip_key data evs = Some st →
  ∃ T, session_inv st T ∧ (scene_shown st ∧ scene_sync st) ∧ links_sync st.
Proof.
  intros Hs.
  destruct (session_invariant min_height tooltip_key
              (λ st, (scene_shown st ∧ scene_sync st) ∧ links_sync st)) with
    (data := data) (evs := evs) (st := st) as (T & Hinv & HP); try done.
  - intros d T st' Htree Hroot Hnil _ _ Hup.
    destruct (loaded_spec d) as (T0 & _ & Htree0 & Hids & Hscene & _).
    split.
    + by eapply (update_sync _ _ T0).
    + by eapply (update_links_sync _ _ T0).
  - intros st0 T this e st' Hinv HP He Hc _ Hclick.
    pose proof (toggled_inv this (datum e) st0 T Hinv) as (Htree & Hids & Hscene & _).
    split.
    + by eapply (update_sync _ _ T).
    + by eapply (update_links_sync _ _ T).
  - intros st0 T _ [H1 H2]. split.
    + by apply transitions_end_sync.
    + by apply transitions_end_links_sync.
  - by exists T.
Qed.
End Scene.

(** X1.  In every state of a session, also while transitions run and
    whatever the clicks were: no node has two elements; every visible node
    has an element, which is at the position of its node and opaque or
    moving there; the element of a node that is not visible is fading out
    and will be removed. *)
Theorem scene_follows_tree min_height tooltip_key data evs st :
  session min_height tooltip_key data evs = Some st →
  NoDup (datum <$> st_nodes st) ∧
  (∀ a, visible (st_heap st) a →
     ∃ e, e ∈ st_nodes st ∧ datum e = a ∧
          (transition e = Some (mkTransition (position (st_heap st) a) 1 false) ∨
           (transition e = None ∧ transform e = position (st_heap st) a ∧
            opacity e = 1%Z))) ∧
  (∀ e, e ∈ st_nodes st → ¬ visible (st_heap st) (datum e) →
     ∃ p, transition e = Some (mkTransition p 0 true)).
Proof.
  intros Hs.
  destruct (session_sync _ _ _ _ _ Hs)
    as (T & (_ & _ & (Hnd & _) & _) & (Hshown & Hsync) & _).
  split_and!; [done|..].
  - intros a Ha. destruct (Hshown a Ha) as (e & He & <-).
    exists e. split_and!; try done. by apply (Hsync e He).
  - intros e He Hn. by apply (Hsync e He).
Qed.

(** The two folders, the first of them just collapsed. *)
Lemma scene_follows_tree_witness :
  session 0 JsNull two_folders [TransitionsEnd; Click 1] = Some two_folders_collapsed ∧
  NoDup (datum <$> st_nodes two_folders_collapsed) ∧
  (∀ a, visible (st_heap two_folders_collapsed) a →
     ∃ e, e ∈ st_nodes two_folders_collapsed ∧ datum e = a ∧
          (transition e
           = Some (mkTransition (position (st_heap two_folders_collapsed) a) 1 false) ∨
           (transition e = None ∧
            transform e = position (st_heap two_folders_collapsed) a ∧
            opacity e = 1%Z))) ∧
  (∀ e, e ∈ st_nodes two_folders_collapsed →
     ¬ visible (st_heap two_folders_collapsed) (datum e) →
     ∃ p, transition e = Some (mkTransition p 0 true)).
Proof.
  split; [by vm_compute|].
  apply (scene_follows_tree 0 JsNull two_folders [TransitionsEnd; Click 1]).
  by vm_compute.
Defined.

(** X2.  When the transitions of a state of a session have ended, the
    scene has exactly one element for every visible node and no other; each
    is at the position of its node, opaque, with no transition left. *)
Theorem settled_scene_is_visible_tree min_height tooltip_key data evs st :
  session min_height tooltip_key data evs = Some st →
  session min_height tooltip_key data (evs ++ [TransitionsEnd])
  = Some (transitions_end st) ∧
  NoDup (datum <$> st_nodes (transitions_end st)) ∧
  (∀ a, a ∈ datum <$> st_nodes (transitions_end st) ↔ visible (st_heap st) a) ∧
  (∀ e, e ∈ st_nodes (transitions_end st) →
     transition e = None ∧ opacity e = 1%Z ∧
     transform e = position (st_heap st) (datum e)).
Proof.
  intros Hs.
  assert (session min_height tooltip_key data (evs ++ [TransitionsEnd])
          = Some (transitions_end st)) as Hs'.
  { unfold session in *.
    destruct (load_callback min_height tooltip_key (Success data) init)
      as [[st0|]|]; try done.
    by rewrite run_app, Hs. }
  destruct (session_sync _ _ _ _ _ Hs') as (T & (_ & _ & (Hnd & _) & _) & HP & _).
  destruct (session_sync _ _ _ _ _ Hs) as (_ & _ & (Hshown & Hsync) & _).
  destruct HP as [Hshown' Hsync'].
  assert (∀ e', e' ∈ st_nodes (transitions_end st) →
            visible (st_heap st) (datum e') ∧ transition e' = None) as Hleft.
  { intros e' He'. simpl in He'. apply list_elem_of_omap in He' as (e & He & Hend).
    unfold end_node_transition in Hend.
    destruct (transition e) as [t|] eqn:Ht.
    - destruct (then_remove t) eqn:Hr; [done|]. simplify_eq. simpl. split; [|done].
      destruct (Hsync e He) as [_ Hn].
      destruct (session_sync _ _ _ _ _ Hs) as (T0 & ((_ & HT & Hnd0 & Hall) & _) & _).
      destruct (decide (datum e ∈ preorder (st_heap st) T0)) as [Hin|Hout].
      + by apply (preorder_visible (st_heap st) T0).
      + exfalso. destruct Hn as [p Hp].
        * by rewrite <-(preorder_visible (st_heap st) T0).
        * rewrite Ht in Hp. injection Hp as ->. done.
    - simplify_eq. split; [|done].
      destruct (Hsync e' He) as [_ Hn].
      destruct (session_sync _ _ _ _ _ Hs) as (T0 & ((_ & HT & Hnd0 & Hall) & _) & _).
      destruct (decide (datum e' ∈ preorder (st_heap st) T0)) as [Hin|Hout].
      + by apply (preorder_visible (st_heap st) T0).
      + exfalso. destruct Hn as [p Hp].
        * by rewrite <-(preorder_visible (st_heap st) T0).
        * congruence. }
  split_and!; try done.
  - intros a. split.
    + intros (e & -> & He)%list_elem_of_fmap. by apply Hleft.
    + intros Ha. destruct (Hshown' a Ha) as (e & He & <-).
      apply list_elem_of_fmap. by exists e.
  - intros e He. destruct (Hleft e He) as [Hv Ht].
    destruct (Hsync' e He) as [Hs1 _]. destruct (Hs1 Hv) as [Ht'|(_ & ? & ?)]; [|done].
    congruence.
Qed.

(** The two folders, the first of them collapsed. *)
Lemma settled_scene_is_visible_tree_witness :
  session 0 JsNull two_folders [TransitionsEnd; Click 1] = Some two_folders_collapsed ∧
  session 0 JsNull two_folders ([TransitionsEnd; Click 1] ++ [TransitionsEnd])
  = Some (transitions_end two_folders_collapsed) ∧
  NoDup (datum <$> st_nodes (transitions_end two_folders_collapsed)) ∧
  (∀ a, a ∈ datum <$> st_nodes (transitions_end two_folders_collapsed)
        ↔ visible (st_heap two_folders_collapsed) a) ∧
  (∀ e, e ∈ st_nodes (transitions_end two_folders_collapsed) →
     transition e = None ∧ opacity e = 1%Z ∧
     transform e = position (st_heap two_folders_collapsed) (datum e)).
Proof.
  split; [by vm_compute|].
  apply (settled_scene_is_visible_tree 0 JsNull two_folders [TransitionsEnd; Click 1]).
  by vm_compute.
Defined.

(** X3.  The link join is by index, and still: when the transitions of a
    state of a session have ended, the paths are the links of
    [root.links()], one path for each link and in that order, each drawn
    from the row of the parent to the row of the child.  There is a link
    for every visible node but the root, from its parent. *)
Theorem settled_links_are_tree_links min_height tooltip_key data evs st :
  session min_height tooltip_key data evs = Some st →
  ∃ root data_links,
    st_root st = Some root ∧
    links root (st_heap st) = Some data_links ∧
    st_links (transitions_end st)
    = map (λ l, mkLinkElem l (link_path (st_heap st) l) None) data_links ∧
    NoDup (target <$> data_links) ∧
    (∀ a, a ∈ target <$> data_links ↔ visible (st_heap st) a ∧ a ≠ root) ∧
    (∀ l, l ∈ data_links → source l = get Node.parent (st_heap st) (target l)).
Proof.
  intros Hs.
  destruct (session_sync _ _ _ _ _ Hs)
    as (T & ((Hroot & HT & Hnd & Hall) & _) & _ & (dl & Hdl & Hl)).
  rewrite Hroot in Hdl. simpl in Hdl.
  exists (taddr T), dl. split_and!; try done.
  all: rewrite (links_spec _ T HT Hnd) in Hdl; injection Hdl as <-.
  all: set (bf := breadth_first (length (st_heap st)) (st_heap st) [T]).
  all: assert (bf ≡ₚ preorder (st_heap st) T) as Hbf
    by (unfold bf; rewrite breadth_first_preorder by apply (preorder_fuel _ T HT Hnd);
        simpl; by rewrite app_nil_r).
  all: assert (target <$> map (λ a, mkLink (get Node.parent (st_heap st) a) a)
                           (filter (λ a, a ≠ taddr T) bf)
               = filter (λ a, a ≠ taddr T) bf) as Ht
    by (rewrite <-list_fmap_compose; apply list_fmap_id).
  - rewrite Ht. apply NoDup_filter. rewrite Hbf. by apply preorder_NoDup.
  - intros a. rewrite Ht, list_elem_of_filter, Hbf.
    rewrite (preorder_visible (st_heap st) T HT Hnd Hall). tauto.
  - intros l (a & -> & _)%list_elem_of_fmap. done.
Qed.

(** The two folders, the first of them collapsed. *)
Lemma settled_links_are_tree_links_witness :
  session 0 JsNull two_folders [TransitionsEnd; Click 1] = Some two_folders_collapsed ∧
  ∃ root data_links,
    st_root two_folders_collapsed = Some root ∧
    links root (st_heap two_folders_collapsed) = Some data_links ∧
    st_links (transitions_end two_folders_collapsed)
    = map (λ l, mkLinkElem l (link_path (st_heap two_folders_collapsed) l) None)
        data_links ∧
    NoDup (target <$> data_links) ∧
    (∀ a, a ∈ target <$> data_links
          ↔ visible (st_heap two_folders_collapsed) a ∧ a ≠ root) ∧
    (∀ l, l ∈ data_links →
          source l = get Node.parent (st_heap two_folders_collapsed) (target l)).
Proof.
  split; [by vm_compute|].
  apply (settled_links_are_tree_links 0 JsNull two_folders [TransitionsEnd; Click 1]).
  by vm_compute.
Defined.

(** ** What an element shows *)

(** What the glyphicon and the file name read of a node. *)
Lemma shape_at_has_slot σ σ' a :
  shape <$> σ' !! a = shape <$> σ !! a → has_slot σ' a = has_slot σ a.
Proof.
  intros H. unfold has_slot, hasOwn_children, hasOwn__children.
  destruct (σ !! a) as [n|], (σ' !! a) as [n'|]; try done.
  simpl in H. injection H as _ _ _ Hc Hu.
  unfold Node.hasOwn_children, Node.hasOwn__children. by rewrite Hc, Hu.
Qed.

Lemma shape_at_folder_icon σ σ' a :
  shape <$> σ' !! a = shape <$> σ !! a → folder_icon σ' a = folder_icon σ a.
Proof.
  intros H. unfold folder_icon, hasOwn_children, hasOwn__children.
  destruct (σ !! a) as [n|], (σ' !! a) as [n'|]; try done.
  simpl in H. injection H as _ _ _ Hc Hu.
  unfold Node.hasOwn_children, Node.hasOwn__children. by rewrite Hc, Hu.
Qed.

Lemma shape_at_glyphicon_color σ σ' a :
  shape <$> σ' !! a = shape <$> σ !! a → glyphicon_color σ' a = glyphicon_color σ a.
Proof.
  intros H. unfold glyphicon_color, hasOwn_children, hasOwn__children.
  destruct (σ !! a) as [n|], (σ' !! a) as [n'|]; try done.
  simpl in H. injection H as _ _ _ Hc Hu.
  unfold Node.hasOwn_children, Node.hasOwn__children. by rewrite Hc, Hu.
Qed.

Lemma shape_at_data {A} (f : Data → option A) σ σ' a :
  shape <$> σ' !! a = shape <$> σ !! a →
  get (λ n, f (Node.data n)) σ' a = get (λ n, f (Node.data n)) σ a.
Proof.
  intros H. unfold get.
  destruct (σ !! a) as [n|], (σ' !! a) as [n'|]; try done.
  simpl in H. injection H as Hd _ _ _ _. simpl. by rewrite Hd.
Qed.

Lemma lookup_at_has_slot σ σ' a : σ' !! a = σ !! a → has_slot σ' a = has_slot σ a.
Proof. intros H. apply shape_at_has_slot. by rewrite H. Qed.

(** The filter of entering glyphicons attaches the click listener to the
    nodes that have a child list property when it is done. *)
Lemma filter_entering_has_slot ds : ∀ σ i a c,
  NoDup ds → ds !! i = Some a → (filter_entering ds σ).1 !! i = Some c →
  c = has_slot (filter_entering ds σ).2 a.
Proof.
  induction ds as [|d ds IH]; intros σ i a c Hnd Ha Hc; [done|].
  apply NoDup_cons in Hnd as [Hd Hnd].
  cbn [filter_entering] in *. rewrite entering_filter_eq in *.
  pose proof (filter_entering_spec ds (alter normalize_node d σ)) as [_ Hσ'].
  destruct (filter_entering ds (alter normalize_node d σ)) as [bs σ2] eqn:Hf.
  simpl in *. destruct i as [|i]; simpl in Ha, Hc.
  - injection Ha as ->. injection Hc as <-. symmetry. apply lookup_at_has_slot.
    rewrite Hσ', foldl_alter_lookup by done. rewrite decide_False by done.
    by destruct (alter normalize_node a σ !! a).
  - specialize (IH (alter normalize_node d σ) i a c Hnd Ha).
    rewrite Hf in IH. by apply IH.
Qed.

Section Glyphs.
Context (min_height : Z) (tooltip_key : JsValue).

Lemma update_glyphs S st T st' :
  tree_inv st T → ids_inv st → scene_inv st → scene_glyphs st →
  update min_height tooltip_key S st = Some st' →
  scene_glyphs st'.
Proof.
  intros Htree Hids Hscene Hg Hup.
  destruct (update_pass min_height tooltip_key S st T Htree Hids Hscene)
    as (σ3 & σ4 & clicks & data_links & st'' & Hup'' & Hag & Hσ4 & Hσ5 & _ & _ & Hndent &
        Hent & Hfe & Hlen & Hnodes & _).
  assert (st'' = st') as -> by congruence.
  assert (agree shape (st_heap st) σ3) as H03 by (apply Hag; by intros ? []).
  assert (agree shape σ4 (st_heap st')) as H45.
  { eapply (pointwise_agree shape stash_node
              (λ a, a ∈ preorder (st_heap st) T)); [done|]. apply stash_node_shape. }
  intros e He. rewrite Hnodes in He. apply elem_of_app in He as [He|He].
  - apply list_elem_of_fmap in He as (e0 & -> & He0). simpl.
    assert (shape <$> st_heap st' !! datum e0 = shape <$> st_heap st !! datum e0) as Hsh.
    { rewrite <-(H45 (datum e0)), Hσ4, (H03 (datum e0)).
      rewrite decide_False; [by destruct (σ3 !! datum e0)|].
      intros Hin. apply Hent in Hin as [_ Hno]. by apply (Hno e0). }
    rewrite (shape_at_has_slot _ _ _ Hsh), (shape_at_folder_icon _ _ _ Hsh),
      (shape_at_glyphicon_color _ _ _ Hsh), (shape_at_data data_name _ _ _ Hsh),
      (shape_at_data data_children _ _ _ Hsh).
    by apply Hg.
  - apply list_elem_of_lookup in He as [i Hi].
    apply lookup_zip_with_Some in Hi as (a & c & -> & Ha & Hc). simpl.
    assert (shape <$> st_heap st' !! a = shape <$> σ4 !! a) as Hsh by by rewrite (H45 a).
    rewrite (shape_at_has_slot _ _ _ Hsh), (shape_at_folder_icon _ _ _ Hsh),
      (shape_at_glyphicon_color _ _ _ Hsh), (shape_at_data data_name _ _ _ Hsh),
      (shape_at_data data_children _ _ _ Hsh).
    split_and!; try done.
    + pose proof (filter_entering_has_slot _ σ3 i a c Hndent Ha) as Hs.
      rewrite Hfe in Hs. by apply Hs.
    + assert (a ∈ filter (λ a, find_elem a 0 (st_nodes st) = None)
                    (breadth_first (length (st_heap st)) (st_heap st) [T])) as Hin
        by by eapply list_elem_of_lookup_2.
      pose proof (Hσ4 a) as H4. rewrite decide_True in H4 by done.
      destruct (σ3 !! a) as [n3|] eqn:Hn3.
      2:{ left. apply shape_at_glyphicon_color. by rewrite H4, Hn3. }
      simpl in H4. destruct (normalize_node_from n3) as [Heq|(Hc3 & Hu3 & Hd3 & Heq)].
      * left. apply shape_at_glyphicon_color. by rewrite H4, Hn3, Heq.
      * right. split.
        -- unfold glyphicon_color, hasOwn_children, hasOwn__children.
           rewrite Hn3. unfold Node.hasOwn_children, Node.hasOwn__children.
           by rewrite Hc3, Hu3.
        -- unfold get. rewrite H4. simpl. by rewrite normalize_node_data.
Qed.

Lemma toggled_glyphs this e st T :
  session_inv st T → scene_glyphs st →
  st_nodes st !! this = Some e → glyph_click e = true →
  scene_glyphs (toggled this (datum e) st).
Proof.
  intros (_ & _ & (Hnd & _) & _) Hg He Hc.
  assert (agree Node.data (st_heap st) (toggle (datum e) (st_heap st))) as Hdata.
  { apply toggle_agree. intros n n' Ht.
    by destruct (toggled_node_rest _ _ Ht) as (_ & -> & _). }
  intros e' He'. simpl in He'. apply list_elem_of_lookup in He' as [i Hi].
  destruct (decide (this = i)) as [->|Hne].
  - rewrite list_lookup_alter_eq, He in Hi. simpl in Hi. injection Hi as <-. simpl.
    destruct (Hg e) as (Hclick & _ & Hname & _); [by eapply list_elem_of_lookup_2|].
    rewrite Hc in Hclick. split_and!; try done.
    + unfold has_slot, hasOwn_children, hasOwn__children in *.
      destruct (st_heap st !! datum e) as [n|] eqn:Hn; [|done].
      destruct (toggle_lookup_eq _ _ _ Hn) as (n' & -> & Ht).
      by destruct (toggled_node_rest _ _ Ht) as (_ & _ & _ & _ & _ & _ & _ & _ & _ & ->).
    + rewrite Hname. unfold get.
      pose proof (Hdata (datum e)) as Hd.
      destruct (st_heap st !! datum e), (toggle (datum e) (st_heap st) !! datum e);
        simpl in *; congruence.
    + by left.
  - rewrite list_lookup_alter_ne in Hi by done.
    assert (datum e' ≠ datum e) as Hd.
    { intros Heq. apply Hne.
      eapply (NoDup_lookup (datum <$> st_nodes st)); [done| |].
      - by rewrite list_lookup_fmap, He.
      - rewrite list_lookup_fmap, Hi. simpl. by rewrite Heq. }
    assert (toggle (datum e) (st_heap st) !! datum e' = st_heap st !! datum e') as Hl
      by by apply toggle_lookup_ne.
    assert (shape <$> toggle (datum e) (st_heap st) !! datum e'
            = shape <$> st_heap st !! datum e') as Hsh by by rewrite Hl.
    change (st_heap (toggled this (datum e) st)) with (toggle (datum e) (st_heap st)).
    rewrite (shape_at_has_slot _ _ _ Hsh), (shape_at_folder_icon _ _ _ Hsh),
      (shape_at_glyphicon_color _ _ _ Hsh), (shape_at_data data_name _ _ _ Hsh),
      (shape_at_data data_children _ _ _ Hsh).
    apply Hg. by eapply list_elem_of_lookup_2.
Qed.

Lemma transitions_end_glyphs st :
  scene_glyphs st → scene_glyphs (transitions_end st).
Proof.
  intros Hg e He. simpl in He.
  apply list_elem_of_omap in He as (e0 & He0 & Hend).
  unfold end_node_transition in Hend. simpl.
  destruct (transition e0) as [t|]; [|simplify_eq; by apply Hg].
  destruct (then_remove t); [done|]. simplify_eq. simpl. by apply Hg.
Qed.

Lemma session_glyphs data evs st :
  session min_height tooltip_key data evs = Some st →
  ∃ T, session_inv st T ∧ scene_glyphs st.
Proof.
  apply (session_invariant min_height tooltip_key scene_glyphs).
  - intros d T st' Htree Hroot Hnil _ _ Hup.
    destruct (loaded_spec d) as (T0 & _ & Htree0 & Hids & Hscene & _).
    eapply (update_glyphs _ _ T0); try done.
    intros e He. rewrite Hnil in He. by apply elem_of_nil in He.
  - intros st0 T this e st' Hinv HP He Hc _ Hclick.
    pose proof (toggled_inv this (datum e) st0 T Hinv) as (Htree & Hids & Hscene & _).
    eapply (update_glyphs _ _ T); try done. by eapply toggled_glyphs.
  - intros st0 T _ HP. by apply transitions_end_glyphs.
Qed.
End Glyphs.

(** X4.  In every state of a session the glyphicon of an element is the
    one [folder_icon] gives for its node as the node is now: open folder
    when the node has [children], closed folder when it has [_children]
    only, file when it has neither.  The click listener is on the
    glyphicons of the nodes that have one of the two properties and on no
    other, and the file name is the [name] of the record of the node. *)
Theorem glyphicon_shows_node_state min_height tooltip_key data evs st :
  session min_height tooltip_key data evs = Some st →
  ∀ e, e ∈ st_nodes st →
    glyph_text e = folder_icon (st_heap st) (datum e) ∧
    (hasOwn_children (st_heap st) (datum e) = true → glyph_text e = glyph_e118) ∧
    (hasOwn_children (st_heap st) (datum e) = false →
     hasOwn__children (st_heap st) (datum e) = true → glyph_text e = glyph_e117) ∧
    (has_slot (st_heap st) (datum e) = false → glyph_text e = glyph_e022) ∧
    glyph_click e = has_slot (st_heap st) (datum e) ∧
    filename_text e = get (λ n, data_name (Node.data n)) (st_heap st) (datum e).
Proof.
  intros Hs e He. destruct (session_glyphs _ _ _ _ _ Hs) as (T & _ & Hg).
  destruct (Hg e He) as (Hc & Ht & Hn & _).
  split_and!; try done; rewrite Ht; unfold folder_icon, has_slot.
  - by intros ->.
  - by intros -> ->.
  - by intros [-> ->]%orb_false_elim.
Qed.

(** The two folders, the first of them collapsed. *)
Lemma glyphicon_shows_node_state_witness :
  session 0 JsNull two_folders [TransitionsEnd; Click 1] = Some two_folders_collapsed ∧
  ∀ e, e ∈ st_nodes two_folders_collapsed →
    glyph_text e = folder_icon (st_heap two_folders_collapsed) (datum e) ∧
    (hasOwn_children (st_heap two_folders_collapsed) (datum e) = true →
     glyph_text e = glyph_e118) ∧
    (hasOwn_children (st_heap two_folders_collapsed) (datum e) = false →
     hasOwn__children (st_heap two_folders_collapsed) (datum e) = true →
     glyph_text e = glyph_e117) ∧
    (has_slot (st_heap two_folders_collapsed) (datum e) = false →
     glyph_text e = glyph_e022) ∧
    glyph_click e = has_slot (st_heap two_folders_collapsed) (datum e) ∧
    filename_text e
    = get (λ n, data_name (Node.data n)) (st_heap two_folders_collapsed) (datum e).
Proof.
  split; [by vm_compute|].
  apply (glyphicon_shows_node_state 0 JsNull two_folders [TransitionsEnd; Click 1]).
  by vm_compute.
Defined.

(** X5.  In every state of a session the glyphicon of an element has the
    colour [glyphicon_color] gives for its node as the node is now, slate
    gray when collapsed, eerie black when expanded, onyx for a file, with
    one exception: [update] colours an entering glyphicon before its filter
    gives a record with an empty [children] array its [children] property,
    so such a folder may have onyx, the colour of a file. *)
Theorem glyphicon_colour_shows_node_state min_height tooltip_key data evs st :
  session min_height tooltip_key data evs = Some st →
  ∀ e n, e ∈ st_nodes st → st_heap st !! datum e = Some n →
    (data_children (Node.data n) ≠ Some [] →
     glyph_fill e = glyphicon_color (st_heap st) (datum e)) ∧
    (data_children (Node.data n) = Some [] →
     glyph_fill e = glyphicon_color (st_heap st) (datum e) ∨ glyph_fill e = onyx).
Proof.
  intros Hs e n He Hn. destruct (session_glyphs _ _ _ _ _ Hs) as (T & _ & Hg).
  destruct (Hg e He) as (_ & _ & _ & [Hf|[Hf Hd]]).
  - split; [done|]. by left.
  - unfold get in Hd. rewrite Hn in Hd. simpl in Hd. split; [done|]. by right.
Qed.

(** The empty folder, which is drawn in onyx with the open-folder icon. *)
Lemma glyphicon_colour_shows_node_state_witness :
  session 0 JsNull empty_folder [] = Some empty_folder_state ∧
  ∀ e n, e ∈ st_nodes empty_folder_state →
    st_heap empty_folder_state !! datum e = Some n →
    (data_children (Node.data n) ≠ Some [] →
     glyph_fill e = glyphicon_color (st_heap empty_folder_state) (datum e)) ∧
    (data_children (Node.data n) = Some [] →
     glyph_fill e = glyphicon_color (st_heap empty_folder_state) (datum e) ∨
     glyph_fill e = onyx).
Proof.
  split; [by vm_compute|].
  apply (glyphicon_colour_shows_node_state 0 JsNull empty_folder []).
  by vm_compute.
Defined.

(** ** From one state of a session to a later one *)

Section Later.
Context (min_height : Z) (tooltip_key : JsValue).

Lemma session_snoc data evs ev st' :
  session min_height tooltip_key data (evs ++ [ev]) = Some st' →
  ∃ st, session min_height tooltip_key data evs = Some st ∧
        dispatch min_height tooltip_key ev st = Some st'.
Proof.
  unfold session.
  destruct (load_callback min_height tooltip_key (Success data) init)
    as [[st0|]|]; try done.
  rewrite run_app. destruct (run min_height tooltip_key evs st0) as [st|]; [|done].
  simpl. destruct (dispatch min_height tooltip_key ev st) as [st1|] eqn:Hd; [|done].
  intros [= <-]. by exists st.
Qed.

(** A relation that every event keeps holds between a state of a session
    and every later one. *)
Lemma session_later (R : State → State → Prop) :
  (∀ st, R st st) →
  (∀ st1 st2 st3, R st1 st2 → R st2 st3 → R st1 st3) →
  (∀ data evs st ev st',
     session min_height tooltip_key data evs = Some st →
     dispatch min_height tooltip_key ev st = Some st' → R st st') →
  ∀ data evs evs' st st',
    session min_height tooltip_key data evs = Some st →
    session min_height tooltip_key data (evs ++ evs') = Some st' →
    R st st'.
Proof.
  intros Hrefl Htrans Hstep data evs evs'.
  induction evs' as [|ev evs' IH] using rev_ind; intros st st' Hs Hs'.
  - rewrite app_nil_r in Hs'. assert (st' = st) as -> by congruence. apply Hrefl.
  - rewrite app_assoc in Hs'. apply session_snoc in Hs' as (st1 & Hs1 & Hd).
    eapply Htrans; [by apply IH|]. by eapply Hstep.
Qed.

(** What an event leaves of a node. *)
Lemma dispatch_keeps data evs st ev st' :
  session min_height tooltip_key data evs = Some st →
  dispatch min_height tooltip_key ev st = Some st' →
  length (st_heap st') = length (st_heap st) ∧
  ∀ a n, st_heap st !! a = Some n →
    ∃ n', st_heap st' !! a = Some n' ∧
          Node.id n' = Node.id n ∧ Node.data n' = Node.data n ∧
          Node.parent n' = Node.parent n ∧ Node.depth n' = Node.depth n ∧
          Node.hasOwn_children n' || Node.hasOwn__children n'
          = Node.hasOwn_children n || Node.hasOwn__children n.
Proof.
  intros Hs Hd.
  assert (length (st_heap st) = length (st_heap st) ∧
          ∀ a n, st_heap st !! a = Some n →
            ∃ n', st_heap st !! a = Some n' ∧
                  Node.id n' = Node.id n ∧ Node.data n' = Node.data n ∧
                  Node.parent n' = Node.parent n ∧ Node.depth n' = Node.depth n ∧
                  Node.hasOwn_children n' || Node.hasOwn__children n'
                  = Node.hasOwn_children n || Node.hasOwn__children n) as Hsame.
  { split; [done|]. intros a n Hn. by exists n. }
  destruct ev as [this|]; simpl in Hd; [|by simplify_eq].
  destruct (st_nodes st !! this) as [e|] eqn:He; [|by simplify_eq].
  destruct (glyph_click e) eqn:Hc; [|by simplify_eq].
  destruct (session_glyphs _ _ _ _ _ Hs) as (T & Hinv & Hg).
  destruct (click_effect min_height tooltip_key this (datum e) st T Hinv)
    as (st'' & Hclick & _ & Hlen & Heff).
  assert (st'' = st') as -> by congruence.
  split; [done|]. intros a n Hn.
  destruct (Heff a n Hn) as (mt & n' & Hmt & Hn' & Hid & _ & Hdata & Hpar & Hdep & Hsl).
  exists n'. split_and!; try done.
  unfold slots in Hsl. injection Hsl as Hc' Hu'.
  assert (Node.hasOwn_children n' = Node.hasOwn_children mt) as ->
    by (unfold Node.hasOwn_children; by rewrite Hc').
  assert (Node.hasOwn__children n' = Node.hasOwn__children mt) as ->
    by (unfold Node.hasOwn__children; by rewrite Hu').
  destruct (decide (a = datum e)) as [->|Hne].
  - destruct (toggle_lookup_eq _ _ _ Hn) as (mt' & Hmt' & Ht).
    assert (mt' = mt) as -> by congruence.
    pose proof (toggled_node_rest _ _ Ht) as (_ & _ & _ & _ & _ & _ & _ & _ & _ & Hs').
    rewrite Hs'.
    destruct (Hg e) as (Hclick' & _); [by eapply list_elem_of_lookup_2|].
    rewrite Hc in Hclick'. by rewrite <-(has_slot_lookup _ _ _ Hn).
  - rewrite toggle_lookup_ne in Hmt by done. by assert (mt = n) as -> by congruence.
Qed.
End Later.

(** X6.  A node is a folder or a file for good: whether it has a child
    list property, [children] or [_children], is the same in every later
    state of a session.  A click on the glyphicon of a file, which has
    neither, changes nothing at all. *)
Theorem files_stay_files min_height tooltip_key data evs st :
  session min_height tooltip_key data evs = Some st →
  (∀ evs' st', session min_height tooltip_key data (evs ++ evs') = Some st' →
     ∀ a, has_slot (st_heap st') a = has_slot (st_heap st) a) ∧
  (∀ this e, st_nodes st !! this = Some e →
     has_slot (st_heap st) (datum e) = false →
     dispatch min_height tooltip_key (Click this) st = Some st).
Proof.
  intros Hs. split.
  - intros evs' st' Hs'. revert data evs evs' st st' Hs Hs'.
    apply (session_later min_height tooltip_key
             (λ st st', ∀ a, has_slot (st_heap st') a = has_slot (st_heap st) a)).
    + done.
    + intros st1 st2 st3 H12 H23 a. by rewrite H23.
    + intros data evs st ev st' Hs Hd a.
      destruct (dispatch_keeps _ _ _ _ _ _ _ Hs Hd) as [Hlen Hk].
      destruct (st_heap st !! a) as [n|] eqn:Hn.
      * destruct (Hk a n Hn) as (n' & Hn' & _ & _ & _ & _ & Hsl).
        by rewrite (has_slot_lookup _ _ _ Hn), (has_slot_lookup _ _ _ Hn').
      * assert (st_heap st' !! a = None) as Hn'.
        { apply lookup_ge_None. apply lookup_ge_None in Hn. lia. }
        unfold has_slot, hasOwn_children, hasOwn__children. by rewrite Hn, Hn'.
  - intros this e He Hno. simpl. rewrite He.
    destruct (session_glyphs _ _ _ _ _ Hs) as (T & _ & Hg).
    destruct (Hg e) as (Hclick & _); [by eapply list_elem_of_lookup_2|].
    by rewrite Hclick, Hno.
Qed.

(** Scenario A, loaded. *)
Lemma files_stay_files_witness :
  session 0 JsNull scenario_A [] = Some scenario_A_state ∧
  (∀ evs' st', session 0 JsNull scenario_A ([] ++ evs') = Some st' →
     ∀ a, has_slot (st_heap st') a = has_slot (st_heap scenario_A_state) a) ∧
  (∀ this e, st_nodes scenario_A_state !! this = Some e →
     has_slot (st_heap scenario_A_state) (datum e) = false →
     dispatch 0 JsNull (Click this) scenario_A_state = Some scenario_A_state).
Proof.
  split; [by vm_compute|].
  apply (files_stay_files 0 JsNull scenario_A []). by vm_compute.
Defined.

(** X7.  In every state of a session every node has an identity: a
    positive number, at most the counter [id], that no other node has. *)
Theorem identities_are_unique min_height tooltip_key data evs st :
  session min_height tooltip_key data evs = Some st →
  (∀ a n, st_heap st !! a = Some n →
     ∃ k, Node.id n = Some k ∧ (0 < k ≤ st_id st)%Z) ∧
  (∀ a b n m, st_heap st !! a = Some n → st_heap st !! b = Some m →
     Node.id n = Node.id m → a = b).
Proof.
  intros Hs.
  destruct (session_inv_of _ _ _ _ _ Hs) as (T & (_ & (_ & Hle & Hinj) & _ & Hren & _) & _).
  rewrite rendered_lookup in Hren. split.
  - intros a n Hn. destruct (Hren a n Hn) as ([k Hk] & _). exists k. split; [done|].
    apply (Hle a). unfold get. by rewrite Hn.
  - intros a b n m Hn Hm Heq. destruct (Hren a n Hn) as ([k Hk] & _).
    apply (Hinj a b k); unfold get.
    + by rewrite Hn.
    + rewrite Hm. simpl. congruence.
Qed.

(** The two folders, the first of them collapsed. *)
Lemma identities_are_unique_witness :
  session 0 JsNull two_folders [TransitionsEnd; Click 1] = Some two_folders_collapsed ∧
  (∀ a n, st_heap two_folders_collapsed !! a = Some n →
     ∃ k, Node.id n = Some k ∧ (0 < k ≤ st_id two_folders_collapsed)%Z) ∧
  (∀ a b n m, st_heap two_folders_collapsed !! a = Some n →
     st_heap two_folders_collapsed !! b = Some m →
     Node.id n = Node.id m → a = b).
Proof.
  split; [by vm_compute|].
  apply (identities_are_unique 0 JsNull two_folders [TransitionsEnd; Click 1]).
  by vm_compute.
Defined.

(** X8.  No event makes or drops a node, and none changes the identity,
    the record, the parent or the depth of a node: they are in every later
    state of a session what they were after [load]. *)
Theorem nodes_are_stable min_height tooltip_key data evs evs' st st' :
  session min_height tooltip_key data evs = Some st →
  session min_height tooltip_key data (evs ++ evs') = Some st' →
  length (st_heap st') = length (st_heap st) ∧
  ∀ a n, st_heap st !! a = Some n →
    ∃ n', st_heap st' !! a = Some n' ∧
          Node.id n' = Node.id n ∧ Node.data n' = Node.data n ∧
          Node.parent n' = Node.parent n ∧ Node.depth n' = Node.depth n.
Proof.
  revert data evs evs' st st'.
  apply (session_later min_height tooltip_key
           (λ st st',
              length (st_heap st') = length (st_heap st) ∧
              ∀ a n, st_heap st !! a = Some n →
                ∃ n', st_heap st' !! a = Some n' ∧
                      Node.id n' = Node.id n ∧ Node.data n' = Node.data n ∧
                      Node.parent n' = Node.parent n ∧ Node.depth n' = Node.depth n)).
  - intros st. split; [done|]. intros a n Hn. by exists n.
  - intros st1 st2 st3 [Hl12 H12] [Hl23 H23]. split; [congruence|].
    intros a n Hn. destruct (H12 a n Hn) as (n2 & Hn2 & ? & ? & ? & ?).
    destruct (H23 a n2 Hn2) as (n3 & Hn3 & ? & ? & ? & ?).
    exists n3. split_and!; congruence.
  - intros data evs st ev st' Hs Hd.
    destruct (dispatch_keeps _ _ _ _ _ _ _ Hs Hd) as [Hlen Hk].
    split; [done|]. intros a n Hn.
    destruct (Hk a n Hn) as (n' & ? & ? & ? & ? & ? & _). by exists n'.
Qed.

(** The two folders: after [load], and with the first of them collapsed. *)
Lemma nodes_are_stable_witness :
  session 0 JsNull two_folders [TransitionsEnd] = Some two_folders_shown ∧
  session 0 JsNull two_folders ([TransitionsEnd] ++ [Click 1])
  = Some two_folders_collapsed ∧
  length (st_heap two_folders_collapsed) = length (st_heap two_folders_shown) ∧
  ∀ a n, st_heap two_folders_shown !! a = Some n →
    ∃ n', st_heap two_folders_collapsed !! a = Some n' ∧
          Node.id n' = Node.id n ∧ Node.data n' = Node.data n ∧
          Node.parent n' = Node.parent n ∧ Node.depth n' = Node.depth n.
Proof.
  split; [by vm_compute|]. split; [by vm_compute|].
  apply (nodes_are_stable 0 JsNull two_folders [TransitionsEnd] [Click 1]);
    by vm_compute.
Defined.

(** ** The height of the drawing *)

Lemma visible_count st T l :
  tree_inv st T → NoDup l → (∀ a, a ∈ l ↔ visible (st_heap st) a) →
  length l = length (preorder (st_heap st) T).
Proof.
  intros Htree Hnd Hl. apply Permutation_length, NoDup_Permutation; [done|..].
  - destruct Htree as (_ & _ & ? & _). by apply preorder_NoDup.
  - intros a. by rewrite Hl, (visible_preorder st T).
Qed.

(** X9.  In every state of a session the height that the svg has or is
    moving to is 27 for each visible node and 40 for the margin, or
    [min_height] when that is more. *)
Theorem height_fits_visible_rows min_height tooltip_key data evs st :
  session min_height tooltip_key data evs = Some st →
  ∃ l, NoDup l ∧ (∀ a, a ∈ l ↔ visible (st_heap st) a) ∧
       st_height st = Some (Z.max min_height (Z.of_nat (length l) * 27 + 40)).
Proof.
  intros Hs.
  assert (∃ T, session_inv st T ∧ ∃ T', tree_inv st T' ∧
            st_height st
            = Some (Z.max min_height
                      (Z.of_nat (length (preorder (st_heap st) T')) * row_height
                       + margin_top))) as (T & _ & (T' & Htree & Hh)).
  { revert data evs st Hs. apply session_invariant.
    - intros d T st' _ _ _ _ _ Hup.
      destruct (loaded_spec d) as (T0 & _ & Htree0 & Hids & Hscene & _).
      destruct (update_after min_height tooltip_key _ _ T0 st' Htree0 Hids Hscene Hup)
        as (Htree' & Hpre & _).
      exists T0. split; [done|]. rewrite Hpre. by eapply update_height.
    - intros st0 T this e st' Hinv0 _ He Hc _ Hclick.
      pose proof (toggled_inv this (datum e) st0 T Hinv0) as (Htree & Hids & Hscene & _).
      destruct (update_after min_height tooltip_key _ _ T st' Htree Hids Hscene Hclick)
        as (Htree' & Hpre & _).
      exists T. split; [done|]. rewrite Hpre. by eapply update_height.
    - intros st0 T _ (T0 & Htree & Hh). by exists T0. }
  exists (preorder (st_heap st) T'). split_and!; try done.
  - destruct Htree as (_ & _ & ? & _). by apply preorder_NoDup.
  - intros a. by rewrite (visible_preorder st T').
Qed.

(** The two folders with the first of them collapsed, in a frame that
    wants 100 at least. *)
Lemma height_fits_visible_rows_witness :
  session 100 JsNull two_folders [TransitionsEnd; Click 1]
  = Some (default init (session 100 JsNull two_folders [TransitionsEnd; Click 1])) ∧
  ∃ l, NoDup l ∧
       (∀ a, a ∈ l ↔
             visible
               (st_heap (default init
                           (session 100 JsNull two_folders [TransitionsEnd; Click 1]))) a) ∧
       st_height (default init (session 100 JsNull two_folders [TransitionsEnd; Click 1]))
       = Some (Z.max 100 (Z.of_nat (length l) * 27 + 40)).
Proof.
  split; [by vm_compute|].
  apply (height_fits_visible_rows 100 JsNull two_folders [TransitionsEnd; Click 1]).
  by vm_compute.
Defined.

(** ** What a click shows and hides *)

Lemma ancestor_agree σ σ' b a :
  agree Node.parent σ σ' → ancestor σ b a → ancestor σ' b a.
Proof.
  intros H Ha. induction Ha as [a n p Hn Hp|a n p b Hn Hp _ IH].
  - destruct (agree_lookup _ _ _ _ _ H Hn) as (n' & Hn' & Hp').
    eapply ancestor_parent; [done|]. congruence.
  - destruct (agree_lookup _ _ _ _ _ H Hn) as (n' & Hn' & Hp').
    eapply ancestor_further; [done| |done]. congruence.
Qed.

Lemma ancestor_inv σ b a :
  ancestor σ b a →
  ∃ n p, σ !! a = Some n ∧ Node.parent n = Some p ∧ (b = p ∨ ancestor σ b p).
Proof. intros [a' n p Hn Hp|a' n p b' Hn Hp Hb]; exists n, p; eauto. Qed.

Section Click.
Context (min_height : Z) (tooltip_key : JsValue).

(** A click turns the clicked node from expanded to collapsed or back
    and no other node, and keeps the parents. *)
Lemma click_expansion data evs st this e :
  session min_height tooltip_key data evs = Some st →
  st_nodes st !! this = Some e → glyph_click e = true →
  ∃ st',
    dispatch min_height tooltip_key (Click this) st = Some st' ∧
    (∀ a, is_Some (st_heap st' !! a) ↔ is_Some (st_heap st !! a)) ∧
    (∀ b, hasOwn_children (st_heap st') b
          = if decide (b = datum e) then negb (hasOwn_children (st_heap st) (datum e))
            else hasOwn_children (st_heap st) b) ∧
    (∀ a b, ancestor (st_heap st') b a ↔ ancestor (st_heap st) b a).
Proof.
  intros Hs He Hc.
  destruct (session_glyphs _ _ _ _ _ Hs) as (T & Hinv & Hg).
  destruct (click_effect min_height tooltip_key this (datum e) st T Hinv)
    as (st' & Hclick & _ & Hlen & Heff).
  exists st'. simpl. rewrite He, Hc. split; [done|].
  assert (∀ a, is_Some (st_heap st' !! a) ↔ is_Some (st_heap st !! a)) as Hdom.
  { intros a. rewrite !lookup_lt_is_Some. lia. }
  assert (agree Node.parent (st_heap st) (st_heap st')) as Hpar.
  { intros a. destruct (st_heap st !! a) as [n|] eqn:Hn.
    - destruct (Heff a n Hn) as (mt & n' & _ & Hn' & _ & _ & _ & Hp & _).
      rewrite Hn'. simpl. by rewrite Hp.
    - destruct (st_heap st' !! a) as [n'|] eqn:Hn'; [|done].
      assert (is_Some (st_heap st !! a)) as [? ?] by (apply Hdom; by eexists).
      congruence. }
  split_and!; [done| |].
  - intros b. unfold hasOwn_children at 1.
    destruct (st_heap st !! b) as [n|] eqn:Hn.
    + destruct (Heff b n Hn) as (mt & n' & Hmt & Hn' & _ & _ & _ & _ & _ & Hsl).
      rewrite Hn'. unfold slots in Hsl. injection Hsl as Hc' _.
      unfold Node.hasOwn_children. rewrite Hc'.
      destruct (decide (b = datum e)) as [->|Hne].
      * destruct (toggle_lookup_eq _ _ _ Hn) as (mt' & Hmt' & Ht).
        assert (mt' = mt) as -> by congruence.
        unfold hasOwn_children. rewrite Hn. unfold Node.hasOwn_children.
        by destruct Ht as [(v & -> & ->)|(-> & ->)].
      * rewrite toggle_lookup_ne in Hmt by done.
        assert (mt = n) as -> by congruence.
        unfold hasOwn_children. by rewrite Hn.
    + destruct (st_heap st' !! b) as [n'|] eqn:Hn'.
      { assert (is_Some (st_heap st !! b)) as [? ?] by (apply Hdom; by eexists).
        congruence. }
      destruct (decide (b = datum e)) as [->|Hne].
      * exfalso. destruct (Hg e) as (Hclick' & _); [by eapply list_elem_of_lookup_2|].
        rewrite Hc in Hclick'. unfold has_slot, hasOwn_children, hasOwn__children in Hclick'.
        by rewrite Hn in Hclick'.
      * unfold hasOwn_children. by rewrite Hn.
  - intros a b. split; apply ancestor_agree; [by apply agree_sym|done].
Qed.
End Click.

(** X10.  A click on the glyphicon of an expanded folder hides the nodes
    below it and no other: afterwards a node is visible when it was
    visible and the folder is not among its ancestors. *)
Theorem collapse_hides_descendants min_height tooltip_key data evs st this e :
  session min_height tooltip_key data evs = Some st →
  st_nodes st !! this = Some e →
  hasOwn_children (st_heap st) (datum e) = true →
  ∃ st',
    dispatch min_height tooltip_key (Click this) st = Some st' ∧
    hasOwn_children (st_heap st') (datum e) = false ∧
    hasOwn__children (st_heap st') (datum e) = true ∧
    ∀ a, visible (st_heap st') a
         ↔ visible (st_heap st) a ∧ ¬ ancestor (st_heap st) (datum e) a.
Proof.
  intros Hs He Hx.
  assert (glyph_click e = true) as Hc.
  { destruct (session_glyphs _ _ _ _ _ Hs) as (T & _ & Hg).
    destruct (Hg e) as (-> & _); [by eapply list_elem_of_lookup_2|].
    unfold has_slot. by rewrite Hx. }
  destruct (click_expansion min_height tooltip_key data evs st this e Hs He Hc)
    as (st' & Hd & Hdom & Hexp & Hanc).
  exists st'. split; [done|].
  assert (hasOwn_children (st_heap st') (datum e) = false) as Hx'.
  { rewrite Hexp, decide_True by done. by rewrite Hx. }
  split_and!; [done| |].
  - assert (session min_height tooltip_key data (evs ++ [Click this]) = Some st') as Hs'.
    { unfold session in *.
      destruct (load_callback min_height tooltip_key (Success data) init)
        as [[st0|]|]; try done.
      rewrite run_app, Hs. simpl in *. by rewrite Hd. }
    destruct (session_glyphs _ _ _ _ _ Hs) as (T & Hinv & _).
    destruct (dispatch_keeps _ _ _ _ _ _ _ Hs Hd) as [_ Hk].
    assert (is_Some (st_heap st !! datum e)) as [n Hn].
    { unfold hasOwn_children in Hx. by destruct (st_heap st !! datum e). }
    destruct (Hk _ n Hn) as (n' & Hn' & _ & _ & _ & _ & Hsl).
    unfold hasOwn_children in Hx, Hx'. unfold hasOwn__children.
    rewrite Hn in Hx. rewrite Hn' in Hx'. rewrite Hn'.
    rewrite Hx, Hx' in Hsl. done.
  - intros a. unfold visible. rewrite Hdom. split.
    + intros [Ha Hall]. split_and!; [done| |].
      * intros b Hb. specialize (Hall b (proj2 (Hanc a b) Hb)).
        rewrite Hexp in Hall. destruct (decide (b = datum e)) as [->|_]; [|done].
        by rewrite Hx in Hall.
      * intros Hb. specialize (Hall _ (proj2 (Hanc a _) Hb)). congruence.
    + intros [[Ha Hall] Hno]. split; [done|]. intros b Hb%Hanc.
      rewrite Hexp. destruct (decide (b = datum e)) as [->|_]; [done|]. by apply Hall.
Qed.

(** Folder [a] of the two folders, whose element is the second. *)
Lemma collapse_hides_descendants_witness :
  session 0 JsNull two_folders [TransitionsEnd] = Some two_folders_shown ∧
  st_nodes two_folders_shown !! 1 = Some two_folders_shown_a ∧
  hasOwn_children (st_heap two_folders_shown) (datum two_folders_shown_a) = true ∧
  ∃ st',
    dispatch 0 JsNull (Click 1) two_folders_shown = Some st' ∧
    hasOwn_children (st_heap st') (datum two_folders_shown_a) = false ∧
    hasOwn__children (st_heap st') (datum two_folders_shown_a) = true ∧
    ∀ a, visible (st_heap st') a
         ↔ visible (st_heap two_folders_shown) a ∧
           ¬ ancestor (st_heap two_folders_shown) (datum two_folders_shown_a) a.
Proof.
  split; [by vm_compute|]. split; [by vm_compute|]. split; [by vm_compute|].
  apply (collapse_hides_descendants 0 JsNull two_folders [TransitionsEnd]
           two_folders_shown 1 two_folders_shown_a); by vm_compute.
Defined.

(** X11.  A click on the glyphicon of a collapsed folder hides nothing
    and shows nodes below the folder only: what is visible stays visible,
    a node that the folder is no ancestor of is visible afterwards only if
    it was before, and the children of the folder are visible afterwards if
    the folder is. *)
Theorem expand_shows_children min_height tooltip_key data evs st this e :
  session min_height tooltip_key data evs = Some st →
  st_nodes st !! this = Some e →
  glyph_click e = true →
  hasOwn_children (st_heap st) (datum e) = false →
  ∃ st',
    dispatch min_height tooltip_key (Click this) st = Some st' ∧
    hasOwn_children (st_heap st') (datum e) = true ∧
    (∀ a, visible (st_heap st) a → visible (st_heap st') a) ∧
    (∀ a, visible (st_heap st') a → ¬ ancestor (st_heap st) (datum e) a →
          visible (st_heap st) a) ∧
    (∀ a n, st_heap st !! a = Some n → Node.parent n = Some (datum e) →
            visible (st_heap st) (datum e) → visible (st_heap st') a).
Proof.
  intros Hs He Hc Hx.
  destruct (click_expansion min_height tooltip_key data evs st this e Hs He Hc)
    as (st' & Hd & Hdom & Hexp & Hanc).
  exists st'. split; [done|].
  assert (hasOwn_children (st_heap st') (datum e) = true) as Hx'.
  { rewrite Hexp, decide_True by done. by rewrite Hx. }
  split_and!; [done|..].
  - intros a [Ha Hall]. split; [by apply Hdom|]. intros b Hb%Hanc.
    rewrite Hexp. destruct (decide (b = datum e)) as [->|_]; [by rewrite Hx|].
    by apply Hall.
  - intros a [Ha Hall] Hno. split; [by apply Hdom|]. intros b Hb.
    specialize (Hall b (proj2 (Hanc a b) Hb)). rewrite Hexp in Hall.
    destruct (decide (b = datum e)) as [->|_]; [done|]. done.
  - intros a n Hn Hp [_ Hall]. split; [apply Hdom; by eexists|]. intros b Hb%Hanc.
    rewrite Hexp. destruct (decide (b = datum e)) as [->|Hne]; [by rewrite Hx|].
    apply Hall. apply ancestor_inv in Hb as (n' & p & Hn' & Hp' & [->|Hb]).
    + congruence.
    + assert (p = datum e) as -> by congruence. done.
Qed.

(** Folder [a] of the two folders, collapsed before. *)
Lemma expand_shows_children_witness :
  session 0 JsNull two_folders [TransitionsEnd; Click 1] = Some two_folders_collapsed ∧
  st_nodes two_folders_collapsed !! 1 = Some two_folders_collapsed_a ∧
  glyph_click two_folders_collapsed_a = true ∧
  hasOwn_children (st_heap two_folders_collapsed) (datum two_folders_collapsed_a)
  = false ∧
  ∃ st',
    dispatch 0 JsNull (Click 1) two_folders_collapsed = Some st' ∧
    hasOwn_children (st_heap st') (datum two_folders_collapsed_a) = true ∧
    (∀ a, visible (st_heap two_folders_collapsed) a → visible (st_heap st') a) ∧
    (∀ a, visible (st_heap st') a →
          ¬ ancestor (st_heap two_folders_collapsed) (datum two_folders_collapsed_a) a →
          visible (st_heap two_folders_collapsed) a) ∧
    (∀ a n, st_heap two_folders_collapsed !! a = Some n →
            Node.parent n = Some (datum two_folders_collapsed_a) →
            visible (st_heap two_folders_collapsed) (datum two_folders_collapsed_a) →
            visible (st_heap st') a).
Proof.
  split; [by vm_compute|]. split; [by vm_compute|]. split; [by vm_compute|].
  split; [by vm_compute|].
  apply (expand_shows_children 0 JsNull two_folders [TransitionsEnd; Click 1]
           two_folders_collapsed 1 two_folders_collapsed_a); by vm_compute.
Defined.

(** ** The nodes that [d3.hierarchy] makes *)

Lemma data_size_eq d :
  data_size d = S (sum_list (map data_size (default [] (data_children d)))).
Proof.
  destruct d as [f [l|]]; [|done]. simpl. f_equal.
  induction l as [|c l IH]; [done|]. simpl. by rewrite IH.
Qed.

(** A tree on the heap has a node for each record below its root. *)
Lemma Repr_size σ t : ∀ par dep n,
  Repr σ par dep t → σ !! taddr t = Some n →
  length (addrs t) = data_size (Node.data n).
Proof.
  induction t as [a kids IH] using Tree_ind. intros par dep n Hr Hn. simpl in Hn.
  apply Repr_inv in Hr as (n' & Hn' & _ & _ & _ & Hdata & Hk).
  assert (n' = n) as -> by congruence.
  rewrite data_size_eq. simpl. f_equal.
  revert Hdata. generalize (default [] (data_children (Node.data n))). clear Hn Hn'.
  induction kids as [|k kids IHk]; intros [|d ds] Hdata; try done.
  simpl in Hdata. injection Hdata as Hd Hds.
  apply Forall_cons in IH as [IH1 IH2]. apply Forall_cons in Hk as [Hr Hk].
  simpl. rewrite length_app. f_equal; [|by apply IHk].
  destruct (σ !! taddr k) as [nk|] eqn:Hnk; [|done]. simpl in Hd. injection Hd as <-.
  by eapply IH1.
Qed.

Lemma tree_inv_length st T : tree_inv st T → length (addrs T) = length (st_heap st).
Proof.
  intros (_ & HT & Hnd & Hall).
  transitivity (length (seq 0 (length (st_heap st)))); [|by rewrite length_seq].
  apply Permutation_length, NoDup_Permutation; [done|apply NoDup_seq|].
  intros a. rewrite elem_of_seq. split.
  - intros Ha. destruct (Repr_lookup _ _ _ _ _ HT Ha) as [n Hn].
    apply lookup_lt_Some in Hn. lia.
  - intros [_ Ha]. apply Hall. lia.
Qed.

(** A node comes out of [d3.hierarchy] with a [children] array only when
    its record has a [children] array that is not empty. *)
Lemma hierarchy_children_fresh (P : Node.t → Prop) l :
  Forall (λ d, ∀ dep par σ b n,
            length σ ≤ b → (hierarchy_node d dep par σ).2 !! b = Some n → P n) l →
  ∀ a dep σ b n,
    length σ ≤ b → (hierarchy_children a dep l σ).2 !! b = Some n → P n.
Proof.
  induction 1 as [|k l Hk _ IH]; intros a dep σ b n Hb Hn.
  - simpl in Hn. apply lookup_lt_Some in Hn. lia.
  - simpl in Hn.
    destruct (hierarchy_node_spec k (S dep) (Some a) σ) as (tk & _ & Htk).
    specialize (Hk (S dep) (Some a) σ).
    destruct (hierarchy_node k (S dep) (Some a) σ) as [bk σ'] eqn:Hnode.
    simpl in Htk, Hk.
    assert (Forall (λ d, ∀ dep par σ, ∃ t,
                      (hierarchy_node d dep par σ).1 = length σ ∧
                      built σ (hierarchy_node d dep par σ).2 par dep t d) l) as Hspec.
    { apply Forall_forall. intros d _ dep' par' σ0. apply hierarchy_node_spec. }
    destruct (built_children_spec l Hspec a dep σ') as (ts & _ & Hbc).
    specialize (IH a dep σ').
    destruct (hierarchy_children a dep l σ') as [bs σ''] eqn:Hch.
    simpl in Hbc, IH, Hn.
    destruct Hbc as (_ & _ & _ & _ & Hframe & _).
    destruct (decide (b < length σ')) as [Hlt|Hge].
    + rewrite Hframe in Hn by done. by eapply Hk.
    + eapply IH; [|done]. lia.
Qed.

Lemma hierarchy_node_fresh d : ∀ dep par σ b n,
  length σ ≤ b → (hierarchy_node d dep par σ).2 !! b = Some n →
  is_Some (Node.children n) → ∃ c cs, data_children (Node.data n) = Some (c :: cs).
Proof.
  induction d as [f|f l IH] using Data_ind; intros dep par σ b n Hb Hn Hsome.
  - rewrite hierarchy_node_eq in Hn. simpl in Hn.
    assert (b = length σ) as ->.
    { apply lookup_lt_Some in Hn. rewrite length_app in Hn. simpl in Hn. lia. }
    rewrite list_lookup_middle in Hn by done. simplify_eq.
    by destruct Hsome.
  - destruct l as [|c cs].
    { rewrite hierarchy_node_eq in Hn. simpl in Hn.
      assert (b = length σ) as ->.
      { apply lookup_lt_Some in Hn. rewrite length_app in Hn. simpl in Hn. lia. }
      rewrite list_lookup_middle in Hn by done. simplify_eq.
      by destruct Hsome. }
    rewrite hierarchy_node_eq in Hn.
    set (d := mkData f (Some (c :: cs))) in *.
    set (σ1 := σ ++ [Node.new d dep par]) in *.
    assert (Forall (λ d, ∀ dep par σ, ∃ t,
                      (hierarchy_node d dep par σ).1 = length σ ∧
                      built σ (hierarchy_node d dep par σ).2 par dep t d) (c :: cs))
      as Hspec.
    { apply Forall_forall. intros d0 _ dep' par' σ0. apply hierarchy_node_spec. }
    destruct (built_children_spec _ Hspec (length σ) dep σ1) as (ts & _ & Hbc).
    pose proof (hierarchy_children_fresh
                  (λ n, is_Some (Node.children n) →
                        ∃ c cs, data_children (Node.data n) = Some (c :: cs))
                  (c :: cs) IH (length σ) dep σ1) as Hkids.
    destruct (hierarchy_children (length σ) dep (c :: cs) σ1) as [ks σ2] eqn:Hch.
    simpl in Hbc, Hkids, Hn.
    destruct Hbc as (_ & _ & _ & _ & Hframe & _).
    assert (length σ1 = S (length σ)) as Hl1.
    { unfold σ1. rewrite length_app. simpl. lia. }
    destruct (decide (b = length σ)) as [->|Hne].
    + rewrite list_lookup_alter_eq, Hframe in Hn by lia.
      unfold σ1 in Hn. rewrite list_lookup_middle in Hn by done.
      simpl in Hn. injection Hn as <-. by exists c, cs.
    + rewrite list_lookup_alter_ne in Hn by done.
      eapply Hkids; [|done|done]. lia.
Qed.

(** The state in which the callback of [load] calls [update]: the root
    holds the input, and no node is collapsed or has an empty child
    list. *)
Lemma loaded_nodes data :
  Node.data <$> st_heap (loaded data init).2 !! (loaded data init).1 = Some data ∧
  ∀ a n, st_heap (loaded data init).2 !! a = Some n →
    Node._children n = None ∧
    (is_Some (Node.children n) → ∃ c cs, data_children (Node.data n) = Some (c :: cs)).
Proof.
  unfold loaded, hierarchy. simpl.
  destruct (hierarchy_node_spec data 0 None []) as (T & Hroot & Hb).
  pose proof (hierarchy_node_fresh data 0 None []) as Hfresh.
  destruct (hierarchy_node data 0 None []) as [root σ]. simpl in *. subst root.
  destruct Hb as (_ & _ & _ & _ & _ & Hdata & _ & Hid).
  simpl in Hid, Hfresh, Hdata.
  set (σ' := alter (λ n, Node.set_y0 (Some 0%Z) (Node.set_x0 (Some 0%Z) n)) 0 σ).
  assert (agree shape σ σ') as Hsh by (apply agree_alter; by intros []).
  split.
  - assert (agree Node.data σ σ') as Hd by (apply agree_alter; by intros []).
    by rewrite <-(Hd 0).
  - intros a n' Hn'.
    destruct (agree_lookup shape σ' σ a n') as (n & Hn & Hs); [by apply agree_sym|done|].
    unfold shape in Hs. injection Hs as Hd _ _ Hc Hu.
    rewrite <-Hu, <-Hc, <-Hd. split.
    + destruct (Hid a n) as [_ ?]; [lia|done|done].
    + apply (Hfresh a n); [lia|done].
Qed.

Lemma filter_ne_length (l : list nat) x :
  NoDup l → x ∈ l → S (length (filter (λ a, a ≠ x) l)) = length l.
Proof.
  induction l as [|y l IH]; intros Hnd Hx; [by apply elem_of_nil in Hx|].
  apply NoDup_cons in Hnd as [Hy Hnd]. rewrite filter_cons.
  destruct (decide (y ≠ x)) as [Hne|Heq].
  - simpl. f_equal. apply IH; [done|]. apply elem_of_cons in Hx as [->|Hx]; done.
  - assert (y = x) as -> by (by destruct (decide (y = x))).
    simpl. f_equal. f_equal. clear IH Hx Hnd Heq.
    induction l as [|z l IH]; [done|]. rewrite filter_cons.
    apply not_elem_of_cons in Hy as [Hz Hy].
    destruct (decide (z ≠ x)); [|done]. simpl. f_equal. by apply IH.
Qed.

Section Loaded.
Context (min_height : Z) (tooltip_key : JsValue).

(** The first state of a session: what [load] leaves. *)
Lemma session_nil data st :
  session min_height tooltip_key data [] = Some st →
  update min_height tooltip_key (loaded data init).1 (loaded data init).2 = Some st.
Proof.
  unfold session, load_callback. destruct (loaded data init) as [root st0]. simpl.
  destruct (update min_height tooltip_key root st0) as [st1|]; [|done]. simpl.
  by intros [= ->].
Qed.

Lemma update_links_data S st T st' :
  tree_inv st T → ids_inv st → scene_inv st →
  update min_height tooltip_key S st = Some st' →
  ∃ σ4 data_links,
    st_links st' = join_links S σ4 (st_links st) data_links ∧
    links (taddr T) (st_heap st') = Some data_links.
Proof.
  intros Htree Hids Hscene Hup.
  destruct (update_after min_height tooltip_key S st T st' Htree Hids Hscene Hup)
    as ((Hroot' & HT' & Hnd & _) & _).
  destruct (update_pass min_height tooltip_key S st T Htree Hids Hscene)
    as (σ3 & σ4 & clicks & data_links & st'' & Hup'' & Hag & Hσ4 & Hσ5 & _ & _ & _ &
        _ & _ & _ & _ & Hdl & Hlinks & _).
  assert (st'' = st') as -> by congruence.
  exists σ4, data_links. split; [done|]. rewrite <-Hdl.
  symmetry. apply links_agree; [done|done|]. apply agree_sym.
  eapply (pointwise_agree shape stash_node
            (λ a, a ∈ preorder (st_heap st) T)); [done|]. apply stash_node_shape.
Qed.

(** A later state has the records and the folders of an earlier one. *)
Lemma session_keeps data evs evs' st st' :
  session min_height tooltip_key data evs = Some st →
  session min_height tooltip_key data (evs ++ evs') = Some st' →
  length (st_heap st') = length (st_heap st) ∧
  ∀ a n, st_heap st !! a = Some n →
    ∃ n', st_heap st' !! a = Some n' ∧ Node.data n' = Node.data n ∧
          has_slot (st_heap st') a = has_slot (st_heap st) a.
Proof.
  revert data evs evs' st st'.
  apply (session_later min_height tooltip_key
           (λ st st',
              length (st_heap st') = length (st_heap st) ∧
              ∀ a n, st_heap st !! a = Some n →
                ∃ n', st_heap st' !! a = Some n' ∧ Node.data n' = Node.data n ∧
                      has_slot (st_heap st') a = has_slot (st_heap st) a)).
  - intros st. split; [done|]. intros a n Hn. by exists n.
  - intros st1 st2 st3 [Hl12 H12] [Hl23 H23]. split; [congruence|].
    intros a n Hn. destruct (H12 a n Hn) as (n2 & Hn2 & ? & ?).
    destruct (H23 a n2 Hn2) as (n3 & Hn3 & ? & ?).
    exists n3. split_and!; congruence.
  - intros data evs st ev st' Hs Hd.
    destruct (dispatch_keeps _ _ _ _ _ _ _ Hs Hd) as [Hlen Hk].
    split; [done|]. intros a n Hn.
    destruct (Hk a n Hn) as (n' & Hn' & _ & ? & _ & _ & Hsl). exists n'.
    split_and!; try done.
    by rewrite (has_slot_lookup _ _ _ Hn), (has_slot_lookup _ _ _ Hn').
Qed.

(** After [load] a node whose record has no [children] has no child
    list. *)
Lemma load_leaves data st a n :
  session min_height tooltip_key data [] = Some st →
  st_heap st !! a = Some n → data_children (Node.data n) = None →
  has_slot (st_heap st) a = false.
Proof.
  intros Hs%session_nil Hn Hd.
  destruct (loaded_spec data) as (T0 & _ & Htree & Hids & Hscene & _).
  destruct (loaded_nodes data) as [_ Hfresh].
  destruct (update_inv min_height tooltip_key (loaded data init).1 _ T0
              Htree Hids Hscene)
    as (st' & Hup & _ & _ & _ & _ & Hdata & _ & _ & _ & Hslots & _).
  assert (st' = st) as -> by congruence.
  destruct (agree_lookup Node.data _ _ a n (agree_sym _ _ _ Hdata) Hn)
    as (n0 & Hn0 & Hd0).
  assert (slots n = slots n0) as Hsl.
  { apply (Hslots a n0 n); [done|done|]. rewrite Hd0, Hd. done. }
  destruct (Hfresh a n0 Hn0) as [Hu Hc].
  rewrite (has_slot_lookup _ _ _ Hn).
  unfold slots in Hsl. injection Hsl as Hc' Hu'.
  unfold Node.hasOwn_children, Node.hasOwn__children. rewrite Hc', Hu', Hu.
  destruct (Node.children n0) as [v|] eqn:Hv; [|done].
  destruct Hc as (c & cs & Hcs); [by eexists|]. congruence.
Qed.
End Loaded.

(** X12.  [load] draws the whole input: after it there is one node for
    each record, all of them visible, one element for each node and one
    path for each node but the root. *)
Theorem load_draws_every_record min_height tooltip_key data st :
  session min_height tooltip_key data [] = Some st →
  length (st_heap st) = data_size data ∧
  (∀ a, a < data_size data → visible (st_heap st) a) ∧
  length (st_nodes st) = data_size data ∧
  S (length (st_links st)) = data_size data.
Proof.
  intros Hs%session_nil.
  destruct (loaded_spec data) as (T & Hroot & Htree & Hids & Hscene & Hnil & Hall & _).
  destruct (loaded_nodes data) as [Hrootdata _].
  assert (st_links (loaded data init).2 = []) as Hnil'.
  { unfold loaded. by destruct (hierarchy data (st_heap init)). }
  destruct (update_after min_height tooltip_key _ _ T st Htree Hids Hscene Hs)
    as (Htree' & Hpre & Hvis).
  destruct (update_inv min_height tooltip_key (loaded data init).1 _ T
              Htree Hids Hscene)
    as (st' & Hup & _ & _ & _ & _ & Hdata & _).
  assert (st' = st) as -> by congruence.
  destruct (update_pass min_height tooltip_key (loaded data init).1 _ T
              Htree Hids Hscene)
    as (σ3 & σ4 & clicks & dl & st' & Hup' & _ & _ & _ & Hbf & Hndpre & Hndent &
        Hent & _ & Hlen & Hnodes & _).
  assert (st' = st) as -> by congruence.
  destruct (update_links_data min_height tooltip_key _ _ T st Htree Hids Hscene Hs)
    as (σ4' & dl' & Hlinks & Hdl).
  set (st0 := (loaded data init).2) in *.
  assert (length (addrs T) = data_size data) as Hsize.
  { pose proof Htree as (_ & HT & _).
    destruct (Repr_root _ _ _ _ HT) as (n & Hn & _).
    rewrite (Repr_size _ _ _ _ n HT Hn). f_equal.
    rewrite Hroot, Hn in Hrootdata. simpl in Hrootdata. congruence. }
  assert (length (st_heap st) = data_size data) as Hheap.
  { by rewrite <-(tree_inv_length st T). }
  assert (length (preorder (st_heap st0) T) = data_size data) as Hlenpre.
  { rewrite <-Hsize. apply Permutation_length, NoDup_Permutation; [done|by destruct Htree as (_&_&?&_)|].
    intros a. split; [apply preorder_addrs|apply Hall]. }
  split_and!; try done.
  - intros a Ha. apply Hvis. apply (visible_preorder st0 T); [done|].
    apply Hall. destruct Htree' as (_ & _ & _ & Hcov). apply Hcov. lia.
  - rewrite Hnil in Hent, Hndent, Hlen, Hnodes.
    rewrite Hnodes. simpl. rewrite length_zip_with, Hlen, Nat.min_id.
    rewrite <-Hlenpre. apply Permutation_length, NoDup_Permutation; [done|done|].
    intros a. rewrite Hent. split; [by intros [? _]|].
    intros Ha. split; [done|]. by intros e ?%elem_of_nil.
  - rewrite Hlinks, Hnil'. unfold join_links. simpl. rewrite drop_nil. simpl.
    rewrite length_map.
    pose proof Htree' as (_ & HT' & Hnd' & _).
    rewrite (links_spec _ T HT' Hnd') in Hdl. injection Hdl as <-.
    rewrite drop_0, length_map.
    rewrite filter_ne_length.
    + rewrite <-Hlenpre, <-Hpre. apply Permutation_length.
      rewrite breadth_first_preorder by apply (preorder_fuel _ T HT' Hnd').
      simpl. by rewrite app_nil_r.
    + rewrite breadth_first_preorder by apply (preorder_fuel _ T HT' Hnd').
      simpl. rewrite app_nil_r. by apply preorder_NoDup.
    + rewrite breadth_first_preorder by apply (preorder_fuel _ T HT' Hnd').
      simpl. rewrite app_nil_r. apply taddr_in_preorder.
Qed.

(** Scenario A. *)
Lemma load_draws_every_record_witness :
  session 0 JsNull scenario_A [] = Some scenario_A_state ∧
  length (st_heap scenario_A_state) = data_size scenario_A ∧
  (∀ a, a < data_size scenario_A → visible (st_heap scenario_A_state) a) ∧
  length (st_nodes scenario_A_state) = data_size scenario_A ∧
  S (length (st_links scenario_A_state)) = data_size scenario_A.
Proof.
  split; [by vm_compute|].
  apply (load_draws_every_record 0 JsNull scenario_A). by vm_compute.
Defined.

(** X13.  The folders are the records that have a [children] property,
    empty or not: in every state of a session a node has a child list
    property, [children] or [_children], exactly when its record has
    one. *)
Theorem folders_are_records_with_children min_height tooltip_key data evs st :
  session min_height tooltip_key data evs = Some st →
  ∀ a n, st_heap st !! a = Some n →
    (has_slot (st_heap st) a = true ↔ is_Some (data_children (Node.data n))).
Proof.
  intros Hs a n Hn.
  destruct (session_inv_total min_height tooltip_key data []) as (st0 & T0 & Hs0 & _).
  destruct (session_keeps min_height tooltip_key data [] evs st0 st Hs0 Hs) as [Hlen Hk].
  destruct (session_inv_of _ _ _ _ _ Hs)
    as (T & ((_ & HT & _ & Hall) & _ & _ & Hren & _) & _).
  split.
  - intros Hslot. destruct (data_children (Node.data n)) as [l|] eqn:Hd; [done|].
    exfalso.
    assert (is_Some (st_heap st0 !! a)) as [n0 Hn0].
    { apply lookup_lt_is_Some. rewrite <-Hlen. by eapply lookup_lt_Some. }
    destruct (Hk a n0 Hn0) as (n' & Hn' & Hd' & Hsl).
    assert (n' = n) as -> by congruence.
    rewrite (load_leaves min_height tooltip_key data st0 a n0 Hs0 Hn0) in Hsl
      by congruence.
    congruence.
  - intros [[|c cs] Hd].
    + destruct Hren as (_ & Hempty & _). by eapply Hempty.
    + rewrite (has_slot_lookup _ _ _ Hn).
      assert (a ∈ addrs T) as Ha by (apply Hall; by eapply lookup_lt_Some).
      clear -HT Ha Hn Hd. revert HT. generalize (@None nat) 0.
      induction T as [b kids IH] using Tree_ind. intros par dep HT.
      apply Repr_inv in HT as (m & Hm & _ & _ & Hitems & Hdata & Hkids).
      apply elem_of_addrs in Ha as [->|(k & Hk & Ha)].
      * assert (m = n) as -> by congruence. rewrite Hd in Hdata. simpl in Hdata.
        destruct kids as [|k kids]; [done|]. simpl in Hitems.
        unfold slot_items in Hitems.
        unfold Node.hasOwn_children, Node.hasOwn__children.
        by destruct (Node.children n), (Node._children n).
      * rewrite Forall_forall in IH, Hkids. exact (IH k Hk Ha _ _ (Hkids k Hk)).
Qed.

(** The empty folder. *)
Lemma folders_are_records_with_children_witness :
  session 0 JsNull empty_folder [] = Some empty_folder_state ∧
  ∀ a n, st_heap empty_folder_state !! a = Some n →
    (has_slot (st_heap empty_folder_state) a = true
     ↔ is_Some (data_children (Node.data n))).
Proof.
  split; [by vm_compute|].
  apply (folders_are_records_with_children 0 JsNull empty_folder []). by vm_compute.
Defined.

(** ** What a click leaves in place *)

Lemma app_eq_middle {A} (l1 l2 l r : list A) x :
  x ∉ l1 → l1 ++ l2 = l ++ x :: r → ∃ l', l = l1 ++ l' ∧ l2 = l' ++ x :: r.
Proof.
  revert l. induction l1 as [|y l1 IH]; intros l Hx Heq.
  - exists l. by simpl in *.
  - apply not_elem_of_cons in Hx as [Hne Hx]. destruct l as [|z l].
    + simpl in Heq. injection Heq as -> _. done.
    + simpl in Heq. injection Heq as -> Heq.
      destruct (IH l Hx Heq) as (l' & -> & ->). by exists l'.
Qed.

Lemma NoDup_middle_eq {A} (l1 r1 l r : list A) x :
  NoDup (l1 ++ x :: r1) → l1 ++ x :: r1 = l ++ x :: r → l1 = l.
Proof.
  revert l. induction l1 as [|y l1 IH]; intros l Hnd Heq.
  - destruct l as [|z l]; [done|]. simpl in *. injection Heq as -> Heq.
    apply NoDup_cons in Hnd as [Hx _]. exfalso. apply Hx. rewrite Heq.
    apply elem_of_app. right. by left.
  - destruct l as [|z l].
    + simpl in *. injection Heq as -> Heq. apply NoDup_cons in Hnd as [Hx _].
      exfalso. apply Hx. apply elem_of_app. right. by left.
    + simpl in *. injection Heq as -> Heq. apply NoDup_cons in Hnd as [_ Hnd].
      f_equal. by apply IH.
Qed.

(** A traversal that does not reach a node does not see its toggle. *)
Lemma preorder_unreached σ σ' X t :
  (∀ b, b ≠ X → hasOwn_children σ' b = hasOwn_children σ b) →
  X ∉ preorder σ t → preorder σ' t = preorder σ t.
Proof.
  intros Hsame. induction t as [a kids IH] using Tree_ind. intros Hx.
  rewrite elem_of_preorder in Hx. simpl.
  assert (a ≠ X) as Ha by (intros ->; apply Hx; by left).
  rewrite (Hsame a Ha). f_equal.
  destruct (hasOwn_children σ a) eqn:Hc; [|done].
  apply flat_map_ext_in. rewrite Forall_forall in IH. apply Forall_forall.
  intros k Hk. apply IH; [done|]. intros Hin. apply Hx. right. split; [done|]. eauto.
Qed.

(** The traversal is the same up to the toggled node. *)
Lemma preorder_prefix σ σ' X t :
  (∀ b, b ≠ X → hasOwn_children σ' b = hasOwn_children σ b) →
  NoDup (addrs t) →
  ∀ l r, preorder σ t = l ++ X :: r → ∃ r', preorder σ' t = l ++ X :: r'.
Proof.
  intros Hsame. induction t as [a kids IH] using Tree_ind. intros Hnd l r Heq.
  simpl in Heq. destruct l as [|y l]; simpl in Heq.
  { injection Heq as -> _. simpl. by eexists. }
  injection Heq as -> Heq.
  assert (NoDup (preorder σ (TNode y kids))) as Hndp by by apply preorder_NoDup.
  simpl in Hndp. rewrite Heq in Hndp. apply NoDup_cons in Hndp as [Hy _].
  assert (y ≠ X) as Hne.
  { intros ->. apply Hy. apply elem_of_app. right. by left. }
  simpl. rewrite (Hsame y Hne).
  destruct (hasOwn_children σ y); [|by destruct l].
  simpl in Hnd. apply NoDup_cons in Hnd as [_ Hnd].
  assert (∃ r', flat_map (preorder σ') kids = l ++ X :: r') as [r' Hr'];
    [|exists r'; by rewrite Hr'].
  clear Hy Hne. revert l Heq.
  induction kids as [|k kids IHk]; intros l Heq; [by destruct l|].
  apply Forall_cons in IH as [IH1 IH2]. simpl in Hnd, Heq.
  apply NoDup_app in Hnd as (Hnd1 & Hdis & Hnd2). simpl.
  destruct (decide (X ∈ preorder σ k)) as [Hin|Hout].
  - apply list_elem_of_split in Hin as (l1 & r1 & Hk).
    assert (l1 = l) as ->.
    { eapply (NoDup_middle_eq l1 (r1 ++ flat_map (preorder σ) kids)).
      - rewrite app_comm_cons, app_assoc, <-Hk. apply NoDup_app. split_and!.
        + by apply preorder_NoDup.
        + intros b Hb1 Hb2. apply (Hdis b); [by eapply preorder_addrs|].
          apply elem_of_flat_map in Hb2 as (k' & Hk' & Hb2).
          apply elem_of_flat_map. exists k'. split; [done|]. by eapply preorder_addrs.
        + eapply sublist_NoDup; [exact Hnd2|]. apply sublist_flat_map, Forall_forall.
          intros k' _. apply preorder_sublist.
      - rewrite <-Heq, Hk. by rewrite <-app_assoc. }
    destruct (IH1 Hnd1 l r1 Hk) as [r1' Hr1]. rewrite Hr1.
    exists (r1' ++ flat_map (preorder σ') kids). by rewrite <-app_assoc.
  - rewrite (preorder_unreached σ σ' X k Hsame Hout).
    destruct (app_eq_middle _ _ _ _ _ Hout Heq) as (l' & -> & Heq').
    destruct (IHk IH2 Hnd2 l' Heq') as [r' Hr']. rewrite Hr'.
    exists r'. by rewrite <-app_assoc.
Qed.

Section Rows.
Context (min_height : Z) (tooltip_key : JsValue).

(** After a pass the node visited [i]-th is in row [i]. *)
Lemma update_rows S st T st' :
  tree_inv st T → ids_inv st → scene_inv st →
  update min_height tooltip_key S st = Some st' →
  ∀ i a, preorder (st_heap st') T !! i = Some a →
    ∃ n, st_heap st' !! a = Some n ∧
         Node.row n = Some (Z.of_nat i) ∧
         Node.x n = Some (Z.of_nat (Node.depth n) * indentation)%Z ∧
         Node.y n = Some (Z.of_nat i * row_height)%Z.
Proof.
  intros Htree Hids Hscene Hup i a Hi.
  destruct (update_after min_height tooltip_key S st T st' Htree Hids Hscene Hup)
    as (Htree' & Hpre & _).
  rewrite Hpre in Hi.
  destruct (update_pass min_height tooltip_key S st T Htree Hids Hscene)
    as (σ3 & σ4 & clicks & dl & st'' & Hup' & Hag & Hσ4 & Hσ5 & _ & _ & _ &
        _ & _ & _ & _ & _ & _ & Hrows).
  assert (st'' = st') as -> by congruence.
  destruct (Hrows i a Hi) as (n & Hn & Hpl).
  assert (agree (λ n, (placement n, Node.depth n)) σ3 (st_heap st')) as H35.
  { intros b. rewrite Hσ5, Hσ4. destruct (σ3 !! b) as [m|]; [|done]. simpl. f_equal.
    assert (∀ m, (placement (normalize_node m), Node.depth (normalize_node m))
                 = (placement m, Node.depth m)) as Hnorm.
    { intros m'. unfold normalize_node.
      destruct (data_children (Node.data m')) as [[|??]|]; try done.
      by destruct (_ && _), m'. }
    assert (∀ m, (placement (stash_node m), Node.depth (stash_node m))
                 = (placement m, Node.depth m)) as Hstash by by intros [].
    repeat case_decide; by rewrite ?Hstash, ?Hnorm. }
  assert (agree Node.depth (st_heap st) σ3) as Hd by (apply Hag; by intros ? []).
  destruct (σ3 !! a) as [n3|] eqn:Hn3; [|done].
  destruct (agree_lookup _ _ _ _ _ H35 Hn3) as (n' & Hn' & Heq).
  destruct (agree_lookup _ _ _ _ _ Hd Hn) as (n3' & Hn3' & Hdep).
  assert (n3' = n3) as -> by congruence.
  simpl in Hpl. injection Hpl as Hx3 Hy3 Hr3. injection Heq as Hx Hy Hr Hdep'.
  exists n'. split_and!; try done; congruence.
Qed.

(** In every state of a session the visible nodes are laid out. *)
Lemma session_rows data evs st :
  session min_height tooltip_key data evs = Some st →
  ∃ T, session_inv st T ∧
    ∀ i a, preorder (st_heap st) T !! i = Some a →
      ∃ n, st_heap st !! a = Some n ∧
           Node.row n = Some (Z.of_nat i) ∧
           Node.x n = Some (Z.of_nat (Node.depth n) * indentation)%Z ∧
           Node.y n = Some (Z.of_nat i * row_height)%Z.
Proof.
  intros Hs.
  assert (∃ T, session_inv st T ∧ ∀ T', tree_inv st T' →
            ∀ i a, preorder (st_heap st) T' !! i = Some a →
              ∃ n, st_heap st !! a = Some n ∧
                   Node.row n = Some (Z.of_nat i) ∧
                   Node.x n = Some (Z.of_nat (Node.depth n) * indentation)%Z ∧
                   Node.y n = Some (Z.of_nat i * row_height)%Z) as (T & Hinv & HP).
  { revert data evs st Hs. apply session_invariant.
    - intros d T st' _ _ _ _ [Htree' _] Hup T' Htree''.
      destruct (loaded_spec d) as (T0 & _ & Htree0 & Hids & Hscene & _).
      destruct (update_after min_height tooltip_key _ _ T0 st' Htree0 Hids Hscene Hup)
        as (Htree1 & _).
      assert (T' = T0) as ->.
      { destruct Htree'' as (Hr1 & HT1 & _). destruct Htree1 as (Hr2 & HT2 & _).
        eapply Repr_unique; [done|done|congruence]. }
      exact (update_rows _ _ _ _ Htree0 Hids Hscene Hup).
    - intros st0 T this e st' Hinv0 _ He Hc _ Hclick T' Htree''.
      pose proof (toggled_inv this (datum e) st0 T Hinv0) as (Htree & Hids & Hscene & _).
      destruct (update_after min_height tooltip_key _ _ T st' Htree Hids Hscene Hclick)
        as (Htree1 & _).
      assert (T' = T) as ->.
      { destruct Htree'' as (Hr1 & HT1 & _). destruct Htree1 as (Hr2 & HT2 & _).
        eapply Repr_unique; [done|done|congruence]. }
      exact (update_rows _ _ _ _ Htree Hids Hscene Hclick).
    - intros st0 T _ HP T' Htree'. by apply HP. }
  exists T. split; [done|]. apply HP. by destruct Hinv.
Qed.
End Rows.

(** X14.  A click moves nothing that is above the clicked node: a
    visible node whose row is at most the row of the clicked node has the
    same row and the same position after the click, the clicked node too.
    When the clicked node is not visible itself, its element fading out,
    every visible node keeps its row and position. *)
Theorem click_keeps_rows_above min_height tooltip_key data evs st this e nX :
  session min_height tooltip_key data evs = Some st →
  st_nodes st !! this = Some e → glyph_click e = true →
  st_heap st !! datum e = Some nX →
  ∃ st',
    dispatch min_height tooltip_key (Click this) st = Some st' ∧
    ∀ a n, st_heap st !! a = Some n → visible (st_heap st) a →
      (visible (st_heap st) (datum e) →
       ∃ r rX, Node.row n = Some r ∧ Node.row nX = Some rX ∧ (r ≤ rX)%Z) →
      ∃ n', st_heap st' !! a = Some n' ∧ placement n' = placement n.
Proof.
  intros Hs He Hc HnX.
  destruct (session_rows _ _ _ _ _ Hs) as (T & Hinv & Hrows).
  destruct (session_inv_of _ _ _ _ _ Hs) as (T0 & _ & Hh).
  destruct (click_inv min_height tooltip_key this (datum e) st T Hinv Hh)
    as (st' & Hclick & _).
  exists st'. split; [simpl; by rewrite He, Hc|].
  pose proof (toggled_inv this (datum e) st T Hinv) as (Htree & Hids & Hscene & _).
  destruct (update_after min_height tooltip_key _ _ T st' Htree Hids Hscene Hclick)
    as (_ & Hpre & _).
  change (st_heap (toggled this (datum e) st)) with (toggle (datum e) (st_heap st))
    in Hpre.
  pose proof (update_rows min_height tooltip_key _ _ T st' Htree Hids Hscene Hclick)
    as Hrows'.
  assert (∀ b, b ≠ datum e →
            hasOwn_children (toggle (datum e) (st_heap st)) b
            = hasOwn_children (st_heap st) b) as Hsame.
  { intros b Hb. apply hasOwn_children_lookup. by apply toggle_lookup_ne. }
  pose proof Hinv as (Htree0 & _).
  pose proof Htree0 as (_ & _ & Hnd & _).
  intros a n Hn Ha Hrow. rewrite (visible_preorder st T) in Ha by done.
  apply list_elem_of_lookup in Ha as [i Hi].
  destruct (Hrows i a Hi) as (n0 & Hn0 & Hr & Hx & Hy).
  assert (n0 = n) as -> by congruence.
  assert (preorder (st_heap st') T !! i = Some a) as Hi'.
  { rewrite Hpre.
    destruct (decide (datum e ∈ preorder (st_heap st) T)) as [Hin|Hout].
    - destruct Hrow as (r & rX & Hr' & HrX & Hle).
      { by apply (visible_preorder st T). }
      apply list_elem_of_lookup in Hin as [j Hj].
      destruct (Hrows j (datum e) Hj) as (nX' & HnX' & HrX' & _).
      assert (nX' = nX) as -> by congruence.
      assert (i ≤ j) as Hij by (rewrite Hr in Hr'; rewrite HrX in HrX'; simplify_eq; lia).
      pose proof (take_drop_middle _ _ _ Hj) as Hsplit.
      destruct (preorder_prefix _ (toggle (datum e) (st_heap st)) (datum e) T Hsame Hnd
                  (take j (preorder (st_heap st) T))
                  (drop (S j) (preorder (st_heap st) T))) as [r' Hr''];
        [by rewrite Hsplit|].
      rewrite Hr''.
      assert (length (take j (preorder (st_heap st) T)) = j) as Hlen.
      { rewrite length_take. apply lookup_lt_Some in Hj. lia. }
      destruct (decide (i = j)) as [->|Hne].
      + rewrite list_lookup_middle by done. congruence.
      + rewrite lookup_app_l by lia. rewrite lookup_take_lt by lia. done.
    - by rewrite (preorder_unreached _ _ (datum e) T Hsame Hout). }
  destruct (Hrows' i a Hi') as (n' & Hn' & Hr1 & Hx1 & Hy1).
  exists n'. split; [done|].
  destruct (dispatch_keeps min_height tooltip_key data evs st (Click this) st' Hs)
    as [_ Hkeep]; [simpl; by rewrite He, Hc|].
  destruct (Hkeep a n Hn) as (n'' & Hn'' & _ & _ & _ & Hdep & _).
  assert (n'' = n') as -> by congruence.
  unfold placement. rewrite Hr, Hx, Hy, Hr1, Hx1, Hy1. by rewrite Hdep.
Qed.

(** A click on folder [b] of the two folders, which are all shown. *)
Lemma click_keeps_rows_above_witness :
  session 0 JsNull two_folders [TransitionsEnd] = Some two_folders_shown ∧
  st_nodes two_folders_shown !! 2 = Some two_folders_shown_b ∧
  glyph_click two_folders_shown_b = true ∧
  st_heap two_folders_shown !! datum two_folders_shown_b = Some two_folders_b ∧
  ∃ st',
    dispatch 0 JsNull (Click 2) two_folders_shown = Some st' ∧
    ∀ a n, st_heap two_folders_shown !! a = Some n →
      visible (st_heap two_folders_shown) a →
      (visible (st_heap two_folders_shown) (datum two_folders_shown_b) →
       ∃ r rX, Node.row n = Some r ∧ Node.row two_folders_b = Some rX ∧ (r ≤ rX)%Z) →
      ∃ n', st_heap st' !! a = Some n' ∧ placement n' = placement n.
Proof.
  split; [by vm_compute|]. split; [by vm_compute|]. split; [by vm_compute|].
  split; [by vm_compute|].
  apply (click_keeps_rows_above 0 JsNull two_folders [TransitionsEnd]
           two_folders_shown 2 two_folders_shown_b two_folders_b); by vm_compute.
Defined.

(** ** A folder with nothing in it *)

(** The parent of a node of a tree has a record with children. *)
Lemma parent_has_kids σ t : ∀ par dep b n p np,
  Repr σ par dep t → b ∈ addrs t → b ≠ taddr t →
  σ !! b = Some n → Node.parent n = Some p → σ !! p = Some np →
  default [] (data_children (Node.data np)) ≠ [].
Proof.
  induction t as [a kids IH] using Tree_ind. intros par dep b n p np Hr Hb Hne Hn Hp Hnp.
  apply Repr_inv in Hr as (na & Hna & _ & _ & _ & Hdata & Hk).
  apply elem_of_addrs in Hb as [->|(k & Hk' & Hb)]; [done|].
  rewrite Forall_forall in IH, Hk.
  destruct (decide (b = taddr k)) as [->|Hbk].
  - destruct (Repr_root _ _ _ _ (Hk _ Hk')) as (m & Hm & Hpm & _).
    assert (p = a) as -> by congruence. assert (np = na) as -> by congruence.
    intros Hnil. rewrite Hnil in Hdata. destruct kids; [|done].
    by apply elem_of_nil in Hk'.
  - exact (IH k Hk' _ _ b n p np (Hk _ Hk') Hb Hbk Hn Hp Hnp).
Qed.

Lemma ancestor_child σ b a :
  ancestor σ b a → ∃ c n, σ !! c = Some n ∧ Node.parent n = Some b.
Proof. induction 1 as [a n p Hn Hp|a n p b Hn Hp _ IH]; eauto. Qed.

(** The traversal does not see the toggle of a node with no child. *)
Lemma preorder_childless σ σ' X t : ∀ par dep nX,
  (∀ b, b ≠ X → hasOwn_children σ' b = hasOwn_children σ b) →
  Repr σ par dep t → σ !! X = Some nX →
  default [] (data_children (Node.data nX)) = [] →
  preorder σ' t = preorder σ t.
Proof.
  induction t as [a kids IH] using Tree_ind. intros par dep nX Hsame Hr HnX Hnil.
  apply Repr_inv in Hr as (na & Hna & _ & _ & _ & Hdata & Hk). simpl.
  destruct (decide (a = X)) as [->|Hne].
  - assert (na = nX) as -> by congruence. rewrite Hnil in Hdata.
    destruct kids; [|done]. simpl. by destruct (hasOwn_children _ _), (hasOwn_children _ _).
  - rewrite (Hsame a Hne). f_equal. destruct (hasOwn_children σ a); [|done].
    apply flat_map_ext_in. rewrite Forall_forall in IH, Hk. apply Forall_forall.
    intros k Hk'. exact (IH k Hk' _ _ nX Hsame (Hk k Hk') HnX Hnil).
Qed.

(** X15.  A click on a folder whose record has an empty [children] array
    turns the folder from open to closed or back and does nothing else to
    the drawing: the same nodes are visible, each in its row at its
    position, and the scene has the elements it had, no element enters. *)
Theorem empty_folder_click_moves_nothing
    min_height tooltip_key data evs st this e nX :
  session min_height tooltip_key data evs = Some st →
  st_nodes st !! this = Some e →
  st_heap st !! datum e = Some nX →
  data_children (Node.data nX) = Some [] →
  ∃ st',
    dispatch min_height tooltip_key (Click this) st = Some st' ∧
    hasOwn_children (st_heap st') (datum e)
    = negb (hasOwn_children (st_heap st) (datum e)) ∧
    (∀ a, visible (st_heap st') a ↔ visible (st_heap st) a) ∧
    (∀ a n, st_heap st !! a = Some n → visible (st_heap st) a →
       ∃ n', st_heap st' !! a = Some n' ∧ placement n' = placement n) ∧
    datum <$> st_nodes st' = datum <$> st_nodes st.
Proof.
  intros Hs He HnX Hd.
  assert (glyph_click e = true) as Hc.
  { destruct (session_folders _ _ _ _ _ Hs) as (T & _ & Hf).
    destruct (Hf e nX) as [? _]; try done. by eapply list_elem_of_lookup_2. }
  destruct (click_expansion min_height tooltip_key data evs st this e Hs He Hc)
    as (st' & Hdisp & Hdom & Hexp & Hanc).
  exists st'. split; [done|].
  destruct (session_rows _ _ _ _ _ Hs) as (T & Hinv & Hrows).
  destruct (session_sync _ _ _ _ _ Hs) as (_ & _ & (Hshown & _) & _).
  pose proof Hinv as ((Hroot & HT & Hnd & Hall) & _).
  assert (∀ a, ¬ ancestor (st_heap st) (datum e) a) as Hnokid.
  { intros a (c & n & Hn & Hp)%ancestor_child.
    eapply (parent_has_kids _ T None 0 c n (datum e) nX); try done.
    - apply Hall. by eapply lookup_lt_Some.
    - intros ->. destruct (Repr_root _ _ _ _ HT) as (m & Hm & Hpm & _). congruence.
    - by rewrite Hd. }
  assert (∀ a, visible (st_heap st') a ↔ visible (st_heap st) a) as Hvis.
  { intros a. unfold visible. rewrite Hdom. apply and_iff_compat_l.
    split; intros Hv b Hb.
    - specialize (Hv b (proj2 (Hanc a b) Hb)). rewrite Hexp in Hv.
      destruct (decide (b = datum e)) as [->|_]; [by destruct (Hnokid a)|done].
    - apply Hanc in Hb. rewrite Hexp.
      destruct (decide (b = datum e)) as [->|_]; [by destruct (Hnokid a)|by apply Hv]. }
  simpl in Hdisp. rewrite He, Hc in Hdisp. unfold click in Hdisp.
  pose proof (toggled_inv this (datum e) st T Hinv) as (Htree & Hids & Hscene & _).
  destruct (update_after min_height tooltip_key _ _ T st' Htree Hids Hscene Hdisp)
    as (_ & Hpre & _).
  change (st_heap (toggled this (datum e) st)) with (toggle (datum e) (st_heap st))
    in Hpre.
  pose proof (update_rows min_height tooltip_key _ _ T st' Htree Hids Hscene Hdisp)
    as Hrows'.
  assert (preorder (st_heap st') T = preorder (st_heap st) T) as Hpre'.
  { rewrite Hpre. apply (preorder_childless _ _ (datum e) T None 0 nX); try done.
    - intros b Hb. apply hasOwn_children_lookup. by apply toggle_lookup_ne.
    - by rewrite Hd. }
  split_and!; try done.
  - rewrite Hexp. by rewrite decide_True.
  - intros a n Hn Ha. rewrite (visible_preorder st T) in Ha by done.
    apply list_elem_of_lookup in Ha as [i Hi].
    destruct (Hrows i a Hi) as (n0 & Hn0 & Hr & Hx & Hy).
    assert (n0 = n) as -> by congruence.
    rewrite <-Hpre' in Hi.
    destruct (Hrows' i a Hi) as (n' & Hn' & Hr1 & Hx1 & Hy1).
    exists n'. split; [done|].
    destruct (dispatch_keeps min_height tooltip_key data evs st (Click this) st' Hs)
      as [_ Hkeep]; [simpl; by rewrite He, Hc|].
    destruct (Hkeep a n Hn) as (n'' & Hn'' & _ & _ & _ & Hdep & _).
    assert (n'' = n') as -> by congruence.
    unfold placement. rewrite Hr, Hx, Hy, Hr1, Hx1, Hy1. by rewrite Hdep.
  - destruct (update_pass min_height tooltip_key (datum e) _ T Htree Hids Hscene)
      as (σ3 & σ4 & clicks & dl & st'' & Hup' & _ & _ & _ & _ & _ & _ &
          Hent & _ & Hlen & Hnodes & _).
    assert (st'' = st') as -> by congruence.
    set (entering := filter (λ a, find_elem a 0 (st_nodes (toggled this (datum e) st)) = None)
                       (breadth_first (length (st_heap (toggled this (datum e) st)))
                          (st_heap (toggled this (datum e) st)) [T])) in *.
    assert (entering = []) as Hnone.
    { destruct entering as [|a l] eqn:Hent'; [done|]. exfalso.
      destruct (Hent a) as [[Hin Hno] _]; [by left|].
      change (st_heap (toggled this (datum e) st)) with (toggle (datum e) (st_heap st))
        in Hin.
      rewrite <-Hpre, Hpre' in Hin.
      apply (visible_preorder st T) in Hin; [|done].
      destruct (Hshown a Hin) as (e0 & He0 & Hd0).
      apply list_elem_of_lookup in He0 as [i Hi].
      destruct (decide (this = i)) as [->|Hne].
      - apply (Hno (mkNodeElem (datum e0) (transform e0) (opacity e0)
                      (glyphicon_color (toggle (datum e) (st_heap st)) (datum e0))
                      (glyph_click e0)
                      (folder_icon (toggle (datum e) (st_heap st)) (datum e0))
                      (filename_dx e0) (filename_text e0) (filename_hover e0)
                      (transition e0))); [|done].
        simpl. apply list_elem_of_lookup. exists i.
        by rewrite list_lookup_alter_eq, Hi.
      - apply (Hno e0); [|done]. simpl. apply list_elem_of_lookup. exists i.
        by rewrite list_lookup_alter_ne. }
    rewrite Hnodes, Hnone. simpl. rewrite app_nil_r.
    rewrite <-list_fmap_compose. simpl.
    apply list_eq. intros i. rewrite !list_lookup_fmap.
    destruct (decide (this = i)) as [->|Hne].
    + rewrite list_lookup_alter_eq. by destruct (st_nodes st !! i).
    + by rewrite list_lookup_alter_ne.
Qed.

(** The empty folder, clicked. *)
Lemma empty_folder_click_moves_nothing_witness :
  session 0 JsNull empty_folder [] = Some empty_folder_state ∧
  st_nodes empty_folder_state !! 0 = Some empty_folder_elem ∧
  st_heap empty_folder_state !! datum empty_folder_elem = Some empty_folder_node ∧
  data_children (Node.data empty_folder_node) = Some [] ∧
  ∃ st',
    dispatch 0 JsNull (Click 0) empty_folder_state = Some st' ∧
    hasOwn_children (st_heap st') (datum empty_folder_elem)
    = negb (hasOwn_children (st_heap empty_folder_state) (datum empty_folder_elem)) ∧
    (∀ a, visible (st_heap st') a ↔ visible (st_heap empty_folder_state) a) ∧
    (∀ a n, st_heap empty_folder_state !! a = Some n →
       visible (st_heap empty_folder_state) a →
       ∃ n', st_heap st' !! a = Some n' ∧ placement n' = placement n) ∧
    datum <$> st_nodes st' = datum <$> st_nodes empty_folder_state.
Proof.
  split; [by vm_compute|]. split; [by vm_compute|]. split; [by vm_compute|].
  split; [by vm_compute|].
  apply (empty_folder_click_moves_nothing 0 JsNull empty_folder []
           empty_folder_state 0 empty_folder_elem empty_folder_node); by vm_compute.
Defined.

(** ** [load] *)

Section Load.
Context (min_height : Z) (tooltip_key : JsValue).

Lemma loaded_root data : (loaded data init).1 = (hierarchy data []).1.
Proof. unfold loaded. simpl. by destruct (hierarchy data []). Qed.

(** The callback of [load] puts the previous position of the root at
    the origin. *)
Lemma loaded_origin data :
  previous_position (st_heap (loaded data init).2) (loaded data init).1
  = (Some 0%Z, Some 0%Z).
Proof.
  unfold loaded, hierarchy. simpl.
  destruct (hierarchy_node_spec data 0 None []) as (T & Hroot & Hb).
  destruct (hierarchy_node data 0 None []) as [root σ]. simpl in *. subst root.
  destruct Hb as (Ht & HT & _). destruct (Repr_root _ _ _ _ HT) as (n & Hn & _).
  simpl in Ht. rewrite Ht in Hn.
  unfold previous_position, get. rewrite list_lookup_alter_eq, Hn. done.
Qed.

(** What the callback of [load] has done on a fresh widget when it
    returns: the pass of [update] on the tree of the input. *)
Lemma loaded_pass data st' :
  update min_height tooltip_key (loaded data init).1 (loaded data init).2 = Some st' →
  st_root st' = Some (hierarchy data []).1 ∧
  Node.data <$> st_heap st' !! (hierarchy data []).1 = Some data ∧
  length (st_heap st') = data_size data ∧
  (∀ a n, st_heap st' !! a = Some n →
     visible (st_heap st') a ∧ is_Some (Node.id n) ∧
     (∃ i, i < data_size data ∧ Node.row n = Some (Z.of_nat i) ∧
           Node.y n = Some (Z.of_nat i * row_height)%Z) ∧
     Node.x n = Some (Z.of_nat (Node.depth n) * indentation)%Z ∧
     Node.x0 n = Node.x n ∧ Node.y0 n = Node.y n) ∧
  NoDup (datum <$> st_nodes st') ∧
  length (st_nodes st') = data_size data ∧
  (∀ e, e ∈ st_nodes st' →
     transform e = (Some 0%Z, Some 0%Z) ∧ opacity e = 0%Z ∧
     transition e = Some (mkTransition (position (st_heap st') (datum e)) 1 false)) ∧
  S (length (st_links st')) = data_size data ∧
  st_height st'
  = Some (Z.max min_height (Z.of_nat (data_size data) * row_height + margin_top)).
Proof.
  intros Hs. rewrite <-loaded_root.
  destruct (loaded_spec data) as (T & Hroot & Htree & Hids & Hscene & Hnil & Hall & _).
  destruct (loaded_nodes data) as [Hrootdata _].
  assert (st_links (loaded data init).2 = []) as Hnil'.
  { unfold loaded. by destruct (hierarchy data (st_heap init)). }
  destruct (update_after min_height tooltip_key _ _ T st' Htree Hids Hscene Hs)
    as (Htree' & Hpre & Hvis).
  destruct (update_inv min_height tooltip_key (loaded data init).1 _ T
              Htree Hids Hscene)
    as (st'' & Hup & _ & _ & Hscene' & _ & Hdata & _ & Hin & _).
  assert (st'' = st') as -> by congruence.
  destruct (update_pass min_height tooltip_key (loaded data init).1 _ T
              Htree Hids Hscene)
    as (σ3 & σ4 & clicks & dl & st'' & Hup' & _ & _ & Hσ5 & Hbf & Hndpre & Hndent &
        Hent & _ & Hlen & Hnodes & _).
  assert (st'' = st') as -> by congruence.
  destruct (update_scene min_height tooltip_key (loaded data init).1 _ T
              Htree Hids Hscene)
    as (τ3 & τ4 & clicks' & st'' & Hup'' & _ & Hnodes' & _ & Hprev & Hpos & _).
  assert (st'' = st') as -> by congruence.
  destruct (update_links_data min_height tooltip_key _ _ T st' Htree Hids Hscene Hs)
    as (σ4' & dl' & Hlinks & Hdl).
  pose proof (update_rows min_height tooltip_key _ _ T st' Htree Hids Hscene Hs)
    as Hrows.
  pose proof (update_height min_height tooltip_key _ _ T st' Htree Hs) as Hheight.
  set (st0 := (loaded data init).2) in *.
  assert (length (addrs T) = data_size data) as Hsize.
  { pose proof Htree as (_ & HT & _).
    destruct (Repr_root _ _ _ _ HT) as (n & Hn & _).
    rewrite (Repr_size _ _ _ _ n HT Hn). f_equal.
    rewrite Hroot, Hn in Hrootdata. simpl in Hrootdata. congruence. }
  assert (length (st_heap st') = data_size data) as Hheap.
  { by rewrite <-(tree_inv_length st' T). }
  assert (length (preorder (st_heap st0) T) = data_size data) as Hlenpre.
  { rewrite <-Hsize.
    apply Permutation_length, NoDup_Permutation;
      [done|by destruct Htree as (_&_&?&_)|].
    intros a. split; [apply preorder_addrs|apply Hall]. }
  pose proof (loaded_origin data) as Horigin. fold st0 in Horigin.
  split_and!; try done.
  - destruct Htree' as (Hr & _). by rewrite Hr, Hroot.
  - rewrite <-(Hdata _). done.
  - intros a n Hn.
    assert (a ∈ preorder (st_heap st0) T) as Ha.
    { apply Hall. destruct Htree' as (_ & _ & _ & Hcov). apply Hcov.
      by eapply lookup_lt_Some. }
    destruct (Hin a n Ha Hn) as (Hid & Hx0 & Hy0).
    pose proof Ha as [i Hi]%list_elem_of_lookup.
    rewrite <-Hpre in Hi. destruct (Hrows i a Hi) as (n' & Hn' & Hr & Hx & Hy).
    assert (n' = n) as -> by congruence.
    split_and!; try done.
    + apply Hvis. by apply (visible_preorder st0 T).
    + exists i. split_and!; try done.
      rewrite Hpre in Hi. apply lookup_lt_Some in Hi. lia.
  - by destruct Hscene'.
  - rewrite Hnil in Hent, Hndent, Hlen, Hnodes.
    rewrite Hnodes. simpl. rewrite length_zip_with, Hlen, Nat.min_id.
    rewrite <-Hlenpre. apply Permutation_length, NoDup_Permutation; [done|done|].
    intros a. rewrite Hent. split; [by intros [? _]|].
    intros Ha. split; [done|]. by intros e ?%elem_of_nil.
  - intros e He. rewrite Hnodes', Hnil in He. simpl in He.
    apply list_elem_of_lookup in He as [i Hi].
    apply lookup_zip_with_Some in Hi as (a & c & -> & _ & _). simpl.
    by rewrite Hprev, Horigin, Hpos.
  - rewrite Hlinks, Hnil'. unfold join_links. simpl. rewrite drop_nil. simpl.
    rewrite length_map.
    pose proof Htree' as (_ & HT' & Hnd' & _).
    rewrite (links_spec _ T HT' Hnd') in Hdl. injection Hdl as <-.
    rewrite drop_0, length_map.
    rewrite filter_ne_length.
    + rewrite <-Hlenpre, <-Hpre. apply Permutation_length.
      rewrite breadth_first_preorder by apply (preorder_fuel _ T HT' Hnd').
      simpl. by rewrite app_nil_r.
    + rewrite breadth_first_preorder by apply (preorder_fuel _ T HT' Hnd').
      simpl. rewrite app_nil_r. by apply preorder_NoDup.
    + rewrite breadth_first_preorder by apply (preorder_fuel _ T HT' Hnd').
      simpl. rewrite app_nil_r. apply taddr_in_preorder.
  - by rewrite Hheight, Hlenpre.
Qed.
End Load.

(** C8, as the code has it.  [load] hands the file and its callback to
    [d3.json] and returns, normally and with nothing drawn: it does not
    fail, whatever becomes of the request.  The callback runs when the
    answer arrives, once.  On an error it throws that error, to [d3.json]
    that called it; nothing is built or drawn, the state is what it was,
    and no request is sent again.  On data, on a fresh widget, it builds a
    node for each record, puts the previous position of the root at the
    origin and runs [update] with the root as pivot: every node is visible
    and laid out in its row, has an identity and its position stashed;
    every node has an element, which starts at the origin, transparent, and
    moves to the position of its node; the paths and the height are
    there. *)
Theorem load_returns_and_callback_builds_or_throws
    min_height tooltip_key d3_json json_file :
  (∀ w, load json_file w
        = Returns (mkWidget (w_state w) (w_pending w ++ [json_file]))) ∧
  (∀ w i error,
     w_pending w !! i = Some json_file → d3_json json_file = Failure error →
     answer min_height tooltip_key d3_json i w
     = Some (Throws error (mkWidget (w_state w) (delete i (w_pending w))))) ∧
  (∀ data w0,
     d3_json json_file = Success data →
     load json_file (mkWidget init []) = Returns w0 →
     ∃ st',
       answer min_height tooltip_key d3_json 0 w0 = Some (Returns (mkWidget st' [])) ∧
       session min_height tooltip_key data [] = Some st' ∧
       previous_position (st_heap (loaded data init).2) (loaded data init).1
       = (Some 0%Z, Some 0%Z) ∧
       update min_height tooltip_key (loaded data init).1 (loaded data init).2
       = Some st' ∧
       st_root st' = Some (hierarchy data []).1 ∧
       Node.data <$> st_heap st' !! (hierarchy data []).1 = Some data ∧
       length (st_heap st') = data_size data ∧
       (∀ a n, st_heap st' !! a = Some n →
          visible (st_heap st') a ∧ is_Some (Node.id n) ∧
          (∃ i, i < data_size data ∧ Node.row n = Some (Z.of_nat i) ∧
                Node.y n = Some (Z.of_nat i * row_height)%Z) ∧
          Node.x n = Some (Z.of_nat (Node.depth n) * indentation)%Z ∧
          Node.x0 n = Node.x n ∧ Node.y0 n = Node.y n) ∧
       NoDup (datum <$> st_nodes st') ∧
       length (st_nodes st') = data_size data ∧
       (∀ e, e ∈ st_nodes st' →
          transform e = (Some 0%Z, Some 0%Z) ∧ opacity e = 0%Z ∧
          transition e
          = Some (mkTransition (position (st_heap st') (datum e)) 1 false)) ∧
       S (length (st_links st')) = data_size data ∧
       st_height st'
       = Some (Z.max min_height
                 (Z.of_nat (data_size data) * row_height + margin_top))).
Proof.
  split_and!.
  - done.
  - intros w i error Hi Hr. unfold answer. by rewrite Hi, Hr.
  - intros data w0 Hr [= <-].
    destruct (load_inv min_height tooltip_key data) as (st' & T & Hl & _).
    assert (update min_height tooltip_key (loaded data init).1 (loaded data init).2
            = Some st') as Hup.
    { unfold load_callback in Hl. destruct (loaded data init) as [root st0]. simpl.
      destruct (update min_height tooltip_key root st0) as [st1|]; [|done].
      simpl in Hl. by injection Hl as ->. }
    exists st'. split_and!.
    + unfold answer. simpl. by rewrite Hr, Hl.
    + unfold session. by rewrite Hl.
    + apply loaded_origin.
    + done.
    + by apply (loaded_pass min_height tooltip_key data st').
    + by apply (loaded_pass min_height tooltip_key data st').
    + by apply (loaded_pass min_height tooltip_key data st').
    + by apply (loaded_pass min_height tooltip_key data st').
    + by apply (loaded_pass min_height tooltip_key data st').
    + by apply (loaded_pass min_height tooltip_key data st').
    + by apply (loaded_pass min_height tooltip_key data st').
    + by apply (loaded_pass min_height tooltip_key data st').
    + by apply (loaded_pass min_height tooltip_key data st').
Qed.

(** A request that fails and one that yields Scenario A. *)
Lemma load_returns_and_callback_builds_or_throws_witness :
  (∀ w i error,
     w_pending w !! i = Some "tree.json"%string →
     Failure "404" = Failure error →
     answer 0 JsNull (λ _, Failure "404") i w
     = Some (Throws error (mkWidget (w_state w) (delete i (w_pending w))))) ∧
  (∀ data w0,
     Success scenario_A = Success data →
     load "tree.json" (mkWidget init []) = Returns w0 →
     ∃ st',
       answer 0 JsNull (λ _, Success scenario_A) 0 w0
       = Some (Returns (mkWidget st' [])) ∧
       session 0 JsNull data [] = Some st' ∧
       previous_position (st_heap (loaded data init).2) (loaded data init).1
       = (Some 0%Z, Some 0%Z) ∧
       update 0 JsNull (loaded data init).1 (loaded data init).2 = Some st' ∧
       st_root st' = Some (hierarchy data []).1 ∧
       Node.data <$> st_heap st' !! (hierarchy data []).1 = Some data ∧
       length (st_heap st') = data_size data ∧
       (∀ a n, st_heap st' !! a = Some n →
          visible (st_heap st') a ∧ is_Some (Node.id n) ∧
          (∃ i, i < data_size data ∧ Node.row n = Some (Z.of_nat i) ∧
                Node.y n = Some (Z.of_nat i * row_height)%Z) ∧
          Node.x n = Some (Z.of_nat (Node.depth n) * indentation)%Z ∧
          Node.x0 n = Node.x n ∧ Node.y0 n = Node.y n) ∧
       NoDup (datum <$> st_nodes st') ∧
       length (st_nodes st') = data_size data ∧
       (∀ e, e ∈ st_nodes st' →
          transform e = (Some 0%Z, Some 0%Z) ∧ opacity e = 0%Z ∧
          transition e
          = Some (mkTransition (position (st_heap st') (datum e)) 1 false)) ∧
       S (length (st_links st')) = data_size data ∧
       st_height st'
       = Some (Z.max 0 (Z.of_nat (data_size data) * row_height + margin_top))).
Proof.
  split.
  - apply (load_returns_and_callback_builds_or_throws 0 JsNull
             (λ _, Failure "404") "tree.json").
  - apply (load_returns_and_callback_builds_or_throws 0 JsNull
             (λ _, Success scenario_A) "tree.json").
Defined.

(** C8, as stated, fails where the request fails: [load] has returned,
    normally, when the error comes, and what throws is the callback. *)
Lemma load_returns_before_the_error_counterexample :
  load "tree.json" (mkWidget init []) = Returns (mkWidget init ["tree.json"%string]) ∧
  (∀ error w, load "tree.json" (mkWidget init []) ≠ Throws error w) ∧
  answer 0 JsNull (λ _, Failure "404") 0 (mkWidget init ["tree.json"%string])
  = Some (Throws "404" (mkWidget init [])).
Proof. split_and!; done. Qed.
